(** * Stealth addresses for Solana: a shallow embedding and its properties

    The development follows the TypeScript sources:
    - [src/crypto.ts]   (key derivation, view tags, scalar-form signing),
    - [src/encoding.ts] (the [st:sol:] meta-address codec),
    - [src/sdk.ts]      (account, payment, scanner, announcement codec).

    JavaScript exceptions are modelled by the [result] type, [Uint8Array]s by
    lists of [byte], [bigint]s by [Z], and JavaScript strings by lists of
    code units. *)

From Stdlib Require Import String Ascii.
From Stdlib Require Import ZArith List Lia Bool Znumtheory Eqdep_dec.
From Stdlib Require Import Strings.Byte.
From Bignums Require Import BigZ.
Import ListNotations.
Open Scope Z_scope.

Set Warnings "-register-all".

(* ================================================================= *)
(** * Exceptions *)

(** Every [throw] site reachable from the modelled functions, in the
    repository and in the libraries it calls. *)
Inductive error : Type :=
| InvalidViewingPubkeyLength (n : nat)   (* encodeMetaAddress *)
| InvalidSpendingPubkeyLength (n : nat)  (* encodeMetaAddress *)
| InvalidStealthAddressFormat            (* decodeMetaAddress: prefix *)
| InvalidBase58Encoding                  (* decodeMetaAddress: payload *)
| InvalidStealthAddressLength (n : nat)  (* decodeMetaAddress: length *)
| InvalidSecretKeyLength (n : nat)       (* extractScalar *)
| NonBase58Character                     (* bs58.decode *)
| ExpectedString                         (* bs58.decode on a non-string *)
| JsonSyntaxError                        (* JSON.parse *)
| JsTypeError                            (* property access on null *)
| InvalidPublicKeyInput                  (* new PublicKey *)
| BadPoint                               (* Point.fromHex *)
| InvertZero                             (* Fp.inv *)
| ScalarOutOfRange                       (* Point.multiply *)
| LowOrderResult                         (* x25519.scalarMult *)
| BadSecretKey                           (* Keypair.fromSecretKey *)
| LibraryError (code : Z).               (* anything else a library raises *)

Inductive result (A : Type) : Type :=
| Ok (a : A)
| Throw (e : error).
Arguments Ok {A} a.
Arguments Throw {A} e.

Definition bind {A B} (r : result A) (k : A -> result B) : result B :=
  match r with
  | Ok a => k a
  | Throw e => Throw e
  end.

Notation "x <- r ;; k" := (bind r (fun x => k))
  (at level 61, r at next level, right associativity).

(** [try { body } catch { handler }] *)
Definition try_catch {A} (body : result A) (handler : error -> result A) : result A :=
  match body with
  | Ok a => Ok a
  | Throw e => handler e
  end.

Definition throws {A} (r : result A) : Prop := exists e, r = Throw e.

(* ================================================================= *)
(** * Bytes, strings, big integers *)

Definition bytes := list byte.

Definition b2z (b : byte) : Z := Z.of_N (Byte.to_N b).

(** Storing a number into a [Uint8Array] keeps its low eight bits. *)
Definition z2b (z : Z) : byte :=
  match Byte.of_N (Z.to_N (z mod 256)) with
  | Some b => b
  | None => x00
  end.

(** A JavaScript string, as the list of its code units. *)
Definition jsstring := list Z.

Definition lit (s : string) : jsstring :=
  map (fun a => Z.of_N (N_of_ascii a)) (list_ascii_of_string s).

Fixpoint jsstring_eqb (s t : jsstring) : bool :=
  match s, t with
  | [], [] => true
  | c :: s', d :: t' => (c =? d) && jsstring_eqb s' t'
  | _, _ => false
  end.

(** [s.startsWith(prefix)] *)
Fixpoint startsWith (s prefix : jsstring) {struct prefix} : bool :=
  match prefix, s with
  | [], _ => true
  | p :: prefix', c :: s' => (c =? p) && startsWith s' prefix'
  | _ :: _, [] => false
  end.

(** [a.slice(from)] and [a.slice(from, to)] for in-range, non-negative
    indices, on strings and typed arrays alike. *)
Definition slice_from {A} (from : nat) (l : list A) : list A := skipn from l.
Definition slice {A} (from to : nat) (l : list A) : list A :=
  firstn (to - from) (skipn from l).

Fixpoint takeWhile {A} (f : A -> bool) (l : list A) : list A :=
  match l with
  | [] => []
  | x :: t => if f x then x :: takeWhile f t else []
  end.

Fixpoint dropWhile {A} (f : A -> bool) (l : list A) : list A :=
  match l with
  | [] => []
  | x :: t => if f x then dropWhile f t else l
  end.

(** [a[i] = f(a[i])]; an out-of-range store on a typed array is ignored. *)
Fixpoint update_at {A} (i : nat) (f : A -> A) (l : list A) : list A :=
  match l, i with
  | [], _ => []
  | x :: t, O => f x :: t
  | x :: t, S j => x :: update_at j f t
  end.

(* ================================================================= *)
(** * bs58: the Base58 codec of the [base-x] package

    [base-x] converts between radix 256 and radix 58 with the schoolbook
    multiply-and-add loop over a digit buffer.  The buffer is kept here as a
    list of digits, least significant first, that grows on demand; the
    library allocates a buffer large enough for the carry never to
    overflow. *)

Module BaseX.

Definition ALPHABET : jsstring :=
  lit "123456789ABCDEFGHJKLMNPQRSTUVWXYZabcdefghijkmnopqrstuvwxyz".
Definition BASE : Z := 58.
Definition LEADER : Z := 49. (* ALPHABET.charAt(0), the character 1 *)

Definition charAt (d : Z) : Z := nth (Z.to_nat d) ALPHABET 0.

Fixpoint index_of (c : Z) (l : list Z) (i : Z) : option Z :=
  match l with
  | [] => None
  | x :: t => if x =? c then Some i else index_of c t (i + 1)
  end.

(** [BASE_MAP[charCode]]: the digit of a character, 255 when it is not in
    the alphabet. *)
Definition BASE_MAP (c : Z) : Z :=
  match index_of c ALPHABET 0 with
  | Some i => i
  | None => 255
  end.

Section Radix.
Variables (base mul : Z).

(** The tail of the inner loop, once the used digits are exhausted:
    [while (carry !== 0) { buf[it] = carry % base; carry = carry / base }]. *)
Fixpoint carry_out (fuel : nat) (carry : Z) : list Z :=
  match fuel with
  | O => []
  | S f => if carry =? 0 then []
           else (carry mod base) :: carry_out f (carry / base)
  end.

(** One pass of the inner loop: [buf = buf * mul + carry] in radix [base]. *)
Fixpoint muladd (buf : list Z) (carry : Z) : list Z :=
  match buf with
  | [] => carry_out (S (Z.to_nat (Z.log2 carry))) carry
  | d :: buf' =>
      let c := carry + mul * d in
      (c mod base) :: muladd buf' (c / base)
  end.

(** The number a digit buffer stands for. *)
Fixpoint val (buf : list Z) : Z :=
  match buf with
  | [] => 0
  | d :: t => d + base * val t
  end.

End Radix.

Definition is_zero_byte (b : byte) : bool := Byte.eqb b x00.
Definition is_zero (d : Z) : bool := d =? 0.
Definition is_leader (c : Z) : bool := c =? LEADER.

(** [bs58.encode(source)] *)
Definition encode (source : bytes) : jsstring :=
  let zeroes := length (takeWhile is_zero_byte source) in
  let rest := dropWhile is_zero_byte source in
  let b58 := fold_left (fun buf b => muladd BASE 256 buf (b2z b)) rest [] in
  let digits := dropWhile is_zero (rev b58) in
  repeat LEADER zeroes ++ map charAt digits.

(** The character loop of [decodeUnsafe]; [None] is its [return] of
    [undefined] on a character outside the alphabet. *)
Fixpoint decode_chars (s : jsstring) (b256 : list Z) : option (list Z) :=
  match s with
  | [] => Some b256
  | c :: s' =>
      let carry := BASE_MAP c in
      if carry =? 255 then None
      else decode_chars s' (muladd 256 BASE b256 carry)
  end.

Definition decodeUnsafe (source : jsstring) : option bytes :=
  let zeroes := length (takeWhile is_leader source) in
  let rest := dropWhile is_leader source in
  match decode_chars rest [] with
  | None => None
  | Some b256 =>
      Some (repeat x00 zeroes ++ map z2b (dropWhile is_zero (rev b256)))
  end.

(** [bs58.decode(string)] *)
Definition decode (source : jsstring) : result bytes :=
  match decodeUnsafe source with
  | Some buffer => Ok buffer
  | None => Throw NonBase58Character
  end.

End BaseX.

(* ================================================================= *)
(** * src/encoding.ts *)

Record StealthMetaAddress : Type := {
  viewingPubkey : bytes;
  spendingPubkey : bytes
}.

Definition PREFIX : jsstring := lit "st:sol:".
Definition PUBKEY_LENGTH : nat := 32.

Definition encodeMetaAddress (meta : StealthMetaAddress) : result jsstring :=
  if negb (length (viewingPubkey meta) =? PUBKEY_LENGTH)%nat then
    Throw (InvalidViewingPubkeyLength (length (viewingPubkey meta)))
  else if negb (length (spendingPubkey meta) =? PUBKEY_LENGTH)%nat then
    Throw (InvalidSpendingPubkeyLength (length (spendingPubkey meta)))
  else
    let combined := viewingPubkey meta ++ spendingPubkey meta in
    Ok (PREFIX ++ BaseX.encode combined).

Definition decodeMetaAddress (encoded : jsstring) : result StealthMetaAddress :=
  if negb (startsWith encoded PREFIX) then Throw InvalidStealthAddressFormat
  else
    let payload := slice_from (length PREFIX) encoded in
    combined <-
      try_catch (BaseX.decode payload) (fun _ => Throw InvalidBase58Encoding) ;;
    if negb (length combined =? PUBKEY_LENGTH * 2)%nat then
      Throw (InvalidStealthAddressLength (length combined))
    else
      Ok {| viewingPubkey := slice 0 PUBKEY_LENGTH combined;
            spendingPubkey := slice_from PUBKEY_LENGTH combined |}.

Definition isValidMetaAddress (encoded : jsstring) : bool :=
  match decodeMetaAddress encoded with
  | Ok _ => true
  | Throw _ => false
  end.

(** The error kind [InvalidEncoding] of the specification: the three errors
    [decodeMetaAddress] raises. *)
Definition InvalidEncoding (e : error) : Prop :=
  e = InvalidStealthAddressFormat \/ e = InvalidBase58Encoding \/
  exists n, e = InvalidStealthAddressLength n.

Definition DEFAULT_BASE_URL : jsstring := lit "https://pay.stealth.sol".

(** [createPaymentLink(meta, baseUrl)]; [None] is an omitted [baseUrl]. *)
Definition createPaymentLink (meta : StealthMetaAddress)
    (baseUrl : option jsstring) : result jsstring :=
  let baseUrl := match baseUrl with
                 | Some url => url
                 | None => DEFAULT_BASE_URL
                 end in
  encoded <- encodeMetaAddress meta ;;
  Ok (baseUrl ++ lit "/" ++ encoded).


(* ================================================================= *)
(** * JSON.parse and JSON.stringify

    JSON texts are parsed by recursive descent.  Numbers whose value is an
    integer of magnitude at most 2^53 are kept exactly; the floating-point
    value of any other number is not modelled and the literal is kept as
    written. *)

Module JSON.

Inductive json : Type :=
| JNull
| JBool (b : bool)
| JNum (n : Z)
| JNumOther (literal : jsstring)
| JStr (s : jsstring)
| JArr (elems : list json)
| JObj (fields : list (jsstring * json)).

(** A JavaScript value as far as the codec sees it; [None] is [undefined]. *)
Definition jsval := option json.

Definition is_ws (c : Z) : bool := (c =? 32) || (c =? 9) || (c =? 10) || (c =? 13).
Definition is_digit (c : Z) : bool := (48 <=? c) && (c <=? 57).

Fixpoint skip_ws (s : jsstring) : jsstring :=
  match s with
  | c :: t => if is_ws c then skip_ws t else s
  | [] => []
  end.

(** ** Strings *)

Definition hex_val (c : Z) : option Z :=
  if is_digit c then Some (c - 48)
  else if (97 <=? c) && (c <=? 102) then Some (c - 87)
  else if (65 <=? c) && (c <=? 70) then Some (c - 55)
  else None.

Definition hex4 (a b c d : Z) : option Z :=
  match hex_val a, hex_val b, hex_val c, hex_val d with
  | Some x, Some y, Some z, Some w => Some (((x * 16 + y) * 16 + z) * 16 + w)
  | _, _, _, _ => None
  end.

Definition unescape (c : Z) : option Z :=
  if c =? 34 then Some 34        (* quotation mark *)
  else if c =? 92 then Some 92   (* reverse solidus *)
  else if c =? 47 then Some 47   (* solidus *)
  else if c =? 98 then Some 8    (* b: backspace *)
  else if c =? 102 then Some 12  (* f: form feed *)
  else if c =? 110 then Some 10  (* n: line feed *)
  else if c =? 114 then Some 13  (* r: carriage return *)
  else if c =? 116 then Some 9   (* t: tab *)
  else None.

(** The characters of a string literal after its opening quote, up to and
    with the closing quote. *)
Fixpoint parse_string_body (s : jsstring) : result (jsstring * jsstring) :=
  match s with
  | [] => Throw JsonSyntaxError
  | c :: t =>
      if c =? 34 then Ok ([], t)
      else if c =? 92 then
        match t with
        | [] => Throw JsonSyntaxError
        | e :: t' =>
            if e =? 117 then
              match t' with
              | h1 :: h2 :: h3 :: h4 :: t'' =>
                  match hex4 h1 h2 h3 h4 with
                  | Some u =>
                      r <- parse_string_body t'' ;; Ok (u :: fst r, snd r)
                  | None => Throw JsonSyntaxError
                  end
              | _ => Throw JsonSyntaxError
              end
            else
              match unescape e with
              | Some u => r <- parse_string_body t' ;; Ok (u :: fst r, snd r)
              | None => Throw JsonSyntaxError
              end
        end
      else if c <? 32 then Throw JsonSyntaxError
      else r <- parse_string_body t ;; Ok (c :: fst r, snd r)
  end.

(** ** Numbers *)

(** Reads a run of digits: the accumulated value, the number of digits read
    and the rest of the text. *)
Fixpoint scan_digits (s : jsstring) (acc : Z) (n : nat) : Z * nat * jsstring :=
  match s with
  | c :: t => if is_digit c then scan_digits t (10 * acc + (c - 48)) (S n)
              else (acc, n, s)
  | [] => (acc, n, [])
  end.

Definition MAX_SAFE : Z := 2 ^ 53.

(** The value [m * 10 ^ e] of a literal, when it is an integer in the exact
    range. *)
Definition exact_integer (m e : Z) : option Z :=
  if m =? 0 then Some 0
  else if 400 <? Z.abs e then None
  else if 0 <=? e then
    let v := m * 10 ^ e in if Z.abs v <=? MAX_SAFE then Some v else None
  else
    let d := 10 ^ (- e) in
    if (m mod d =? 0) && (Z.abs (m / d) <=? MAX_SAFE) then Some (m / d) else None.

(** The head of a text is the character [c]. *)
Definition starts (c : Z) (s : jsstring) : bool :=
  match s with
  | x :: _ => x =? c
  | [] => false
  end.

Definition parse_fraction (m : Z) (s : jsstring) : result (Z * nat * jsstring) :=
  if starts 46 s then
    let '(m', k, s') := scan_digits (tl s) m 0 in
    match k with
    | O => Throw JsonSyntaxError
    | _ => Ok (m', k, s')
    end
  else Ok (m, O, s).

Definition parse_exponent (s : jsstring) : result (Z * jsstring) :=
  if starts 101 s || starts 69 s then
    let t := tl s in
    let neg := starts 45 t in
    let t1 := if starts 45 t || starts 43 t then tl t else t in
    let '(e, k, s') := scan_digits t1 0 0 in
    match k with
    | O => Throw JsonSyntaxError
    | _ => Ok (if neg then - e else e, s')
    end
  else Ok (0, s).

Definition parse_number (s : jsstring) : result (json * jsstring) :=
  let neg := starts 45 s in
  let s1 := if neg then tl s else s in
  int_part <-
    (if starts 48 s1 then Ok (0, tl s1)
     else if existsb is_digit (firstn 1 s1) then
       let '(m, _, s2) := scan_digits s1 0 0 in Ok (m, s2)
     else Throw JsonSyntaxError) ;;
  frac <- parse_fraction (fst int_part) (snd int_part) ;;
  let '(m, k, s3) := frac in
  ex <- parse_exponent s3 ;;
  let '(e, s4) := ex in
  let literal := firstn (length s - length s4) s in
  Ok (match exact_integer (if neg then - m else m) (e - Z.of_nat k) with
      | Some v => JNum v
      | None => JNumOther literal
      end, s4).

(** ** Values *)

Fixpoint parse_value (fuel : nat) (s : jsstring) : result (json * jsstring) :=
  match fuel with
  | O => Throw JsonSyntaxError
  | S f =>
      let s0 := skip_ws s in
      if starts 123 s0 then
        let t := skip_ws (tl s0) in
        if starts 125 t then Ok (JObj [], tl t) else parse_members f t []
      else if starts 91 s0 then
        let t := skip_ws (tl s0) in
        if starts 93 t then Ok (JArr [], tl t) else parse_elements f t []
      else if starts 34 s0 then
        r <- parse_string_body (tl s0) ;; Ok (JStr (fst r), snd r)
      else if starts 45 s0 || existsb is_digit (firstn 1 s0) then parse_number s0
      else if startsWith s0 (lit "true") then Ok (JBool true, skipn 4 s0)
      else if startsWith s0 (lit "false") then Ok (JBool false, skipn 5 s0)
      else if startsWith s0 (lit "null") then Ok (JNull, skipn 4 s0)
      else Throw JsonSyntaxError
  end

with parse_members (fuel : nat) (s : jsstring) (acc : list (jsstring * json))
  : result (json * jsstring) :=
  match fuel with
  | O => Throw JsonSyntaxError
  | S f =>
      if starts 34 s then
        k <- parse_string_body (tl s) ;;
        let s1 := skip_ws (snd k) in
        if starts 58 s1 then
          v <- parse_value f (tl s1) ;;
          let s3 := skip_ws (snd v) in
          if starts 44 s3 then
            parse_members f (skip_ws (tl s3)) (acc ++ [(fst k, fst v)])
          else if starts 125 s3 then Ok (JObj (acc ++ [(fst k, fst v)]), tl s3)
          else Throw JsonSyntaxError
        else Throw JsonSyntaxError
      else Throw JsonSyntaxError
  end

with parse_elements (fuel : nat) (s : jsstring) (acc : list json)
  : result (json * jsstring) :=
  match fuel with
  | O => Throw JsonSyntaxError
  | S f =>
      v <- parse_value f s ;;
      let s1 := skip_ws (snd v) in
      if starts 44 s1 then parse_elements f (tl s1) (acc ++ [fst v])
      else if starts 93 s1 then Ok (JArr (acc ++ [fst v]), tl s1)
      else Throw JsonSyntaxError
  end.

(** [JSON.parse(text)].  Every level of nesting and every member consumes
    at least one character, so the recursion is never deeper than the text
    is long. *)
Definition parse (text : jsstring) : result json :=
  r <- parse_value (S (length text)) text ;;
  match skip_ws (snd r) with
  | [] => Ok (fst r)
  | _ => Throw JsonSyntaxError
  end.

(** ** JSON.stringify *)

Definition hex_digit (d : Z) : Z := if d <? 10 then 48 + d else 87 + d.

Definition escape_char (c : Z) : jsstring :=
  if c =? 34 then [92; 34]
  else if c =? 92 then [92; 92]
  else if c =? 8 then [92; 98]
  else if c =? 12 then [92; 102]
  else if c =? 10 then [92; 110]
  else if c =? 13 then [92; 114]
  else if c =? 9 then [92; 116]
  else if c <? 32 then [92; 117; 48; 48; hex_digit (c / 16); hex_digit (c mod 16)]
  else [c].

Definition quote (s : jsstring) : jsstring := 34 :: flat_map escape_char s ++ [34].

(** The decimal digits of a non-negative integer, most significant first. *)
Definition print_nat (n : Z) : jsstring :=
  if n =? 0 then [48]
  else map (fun d => 48 + d)
           (rev (BaseX.carry_out 10 (S (Z.to_nat (Z.log2 n))) n)).

Definition print_int (n : Z) : jsstring :=
  if n <? 0 then 45 :: print_nat (- n) else print_nat n.

Fixpoint join (sep : Z) (l : list jsstring) : jsstring :=
  match l with
  | [] => []
  | [x] => x
  | x :: t => x ++ sep :: join sep t
  end.

Fixpoint stringify (j : json) : jsstring :=
  match j with
  | JNull => lit "null"
  | JBool true => lit "true"
  | JBool false => lit "false"
  | JNum n => print_int n
  | JNumOther literal => literal
  | JStr s => quote s
  | JArr elems => 91 :: join 44 (map stringify elems) ++ [93]
  | JObj fields =>
      123 :: join 44 (map (fun kv => quote (fst kv) ++ 58 :: stringify (snd kv)) fields)
          ++ [125]
  end.

(** An object literal [{k1: v1, ...}] as [JSON.stringify] sees it:
    properties whose value is [undefined] are left out. *)
Fixpoint object_of (props : list (jsstring * jsval)) : list (jsstring * json) :=
  match props with
  | [] => []
  | (k, Some v) :: t => (k, v) :: object_of t
  | (_, None) :: t => object_of t
  end.

(** ** Property access *)

(** The own property [k] of a parsed object; of duplicate keys the last
    one counts. *)
Fixpoint lookup (k : jsstring) (fields : list (jsstring * json)) : jsval :=
  match fields with
  | [] => None
  | (k', v) :: t =>
      match lookup k t with
      | Some w => Some w
      | None => if jsstring_eqb k' k then Some v else None
      end
  end.

(** [value.k] for the keys the codec reads ([t], [e], [vt], [s]), none of
    which is a property of arrays, strings, numbers or booleans.  Reading a
    property of [null] raises a [TypeError]. *)
Definition get_prop (value : json) (k : jsstring) : result jsval :=
  match value with
  | JNull => Throw JsTypeError
  | JObj fields => Ok (lookup k fields)
  | _ => Ok None
  end.

End JSON.
Export JSON.

(* ================================================================= *)
(** * @solana/web3.js: PublicKey

    A [PublicKey] holds a number of at most 256 bits; it is kept here in the
    32-byte big-endian form that [toBytes] returns. *)

Record PublicKey : Type := { pk_bytes : bytes }.

Definition PUBLIC_KEY_LENGTH : nat := 32.

(** [new PublicKey(value)] for a [Uint8Array]: leading zero bytes do not
    count, and at most 32 bytes may remain. *)
Definition PublicKey_of_bytes (value : bytes) : result PublicKey :=
  let digits := dropWhile BaseX.is_zero_byte value in
  if (PUBLIC_KEY_LENGTH <? length digits)%nat then Throw InvalidPublicKeyInput
  else Ok {| pk_bytes := repeat x00 (PUBLIC_KEY_LENGTH - length digits) ++ digits |}.

(** [new PublicKey(value)] for a string: Base58 of exactly 32 bytes. *)
Definition PublicKey_of_string (value : jsstring) : result PublicKey :=
  decoded <- BaseX.decode value ;;
  if negb (length decoded =? PUBLIC_KEY_LENGTH)%nat then Throw InvalidPublicKeyInput
  else Ok {| pk_bytes := decoded |}.

Definition toBytes (k : PublicKey) : bytes := pk_bytes k.
Definition toBase58 (k : PublicKey) : jsstring := BaseX.encode (toBytes k).

Fixpoint bytes_eqb (a b : bytes) : bool :=
  match a, b with
  | [], [] => true
  | x :: a', y :: b' => Byte.eqb x y && bytes_eqb a' b'
  | _, _ => false
  end.

(** [a.equals(b)] *)
Definition PublicKey_equals (a b : PublicKey) : bool :=
  bytes_eqb (pk_bytes a) (pk_bytes b).

(* ================================================================= *)
(** * src/sdk.ts: announcements *)

Record StealthAnnouncement : Type := {
  ephemeralPubkey : bytes;
  viewTag : jsval;
  stealthAddress : PublicKey;
  txSignature : option jsstring;
  slot : option Z
}.

Definition ANNOUNCEMENT_VERSION : Z := 1.
Definition ANNOUNCEMENT_TAG : jsstring := lit "STEALTH".

Definition serializeAnnouncement (announcement : StealthAnnouncement) : jsstring :=
  let data :=
    [ (lit "v", Some (JNum ANNOUNCEMENT_VERSION));
      (lit "t", Some (JStr ANNOUNCEMENT_TAG));
      (lit "e", Some (JStr (BaseX.encode (ephemeralPubkey announcement))));
      (lit "vt", viewTag announcement);
      (lit "s", Some (JStr (toBase58 (stealthAddress announcement)))) ] in
  stringify (JObj (object_of data)).

(** [v !== ANNOUNCEMENT_TAG] *)
Definition differs_from_string (v : jsval) (s : jsstring) : bool :=
  match v with
  | Some (JStr x) => negb (jsstring_eqb x s)
  | _ => true
  end.

(** [bs58.decode(v)] on a value of any type. *)
Definition bs58_decode_value (v : jsval) : result bytes :=
  match v with
  | Some (JStr s) => BaseX.decode s
  | _ => Throw ExpectedString
  end.

Section Deserialize.

(** What [new PublicKey(v)] does with a parsed value that is neither a
    string nor [null]: a number, a boolean, an array or an object.  This is
    decided inside the big-number library and is left open. *)
Variable PublicKey_of_other : json -> result PublicKey.

(** [new PublicKey(v)] on a value of any type. *)
Definition PublicKey_of_value (v : jsval) : result PublicKey :=
  match v with
  | None => Throw JsTypeError
  | Some JNull => Throw JsTypeError
  | Some (JStr s) => PublicKey_of_string s
  | Some other => PublicKey_of_other other
  end.

Definition deserializeAnnouncement (data : jsstring)
  : result (option StealthAnnouncement) :=
  try_catch
    (parsed <- JSON.parse data ;;
     t <- get_prop parsed (lit "t") ;;
     if differs_from_string t ANNOUNCEMENT_TAG then Ok None
     else
       e <- get_prop parsed (lit "e") ;;
       eph <- bs58_decode_value e ;;
       vt <- get_prop parsed (lit "vt") ;;
       s <- get_prop parsed (lit "s") ;;
       addr <- PublicKey_of_value s ;;
       Ok (Some {| ephemeralPubkey := eph;
                   viewTag := vt;
                   stealthAddress := addr;
                   txSignature := None;
                   slot := None |}))
    (fun _ => Ok None).

End Deserialize.

(** A JSON text written with apostrophes in place of double quotes. *)
Definition json_text (s : string) : jsstring :=
  map (fun c => if c =? 39 then 34 else c) (lit s).

(** The bytes written by a string of hexadecimal digits. *)
Fixpoint hex_bytes (s : jsstring) : bytes :=
  match s with
  | h :: l :: t =>
      match JSON.hex_val h, JSON.hex_val l with
      | Some x, Some y => z2b (16 * x + y) :: hex_bytes t
      | _, _ => []
      end
  | _ => []
  end.

Definition hex (s : string) : bytes := hex_bytes (lit s).

(* ================================================================= *)
(** * @noble/hashes: SHA-256 and SHA-512 (FIPS 180-4) *)

Module SHA2.

(** [n] bytes of [x], most significant first. *)
Fixpoint be_bytes (n : nat) (x : Z) : bytes :=
  match n with
  | O => []
  | S k => be_bytes k (Z.shiftr x 8) ++ [z2b x]
  end.

Definition be_value (bs : bytes) : Z :=
  fold_left (fun acc b => acc * 256 + b2z b) bs 0.

Fixpoint chunks {A} (fuel : nat) (size : nat) (l : list A) : list (list A) :=
  match fuel with
  | O => []
  | S f => match l with
           | [] => []
           | _ => firstn size l :: chunks f size (skipn size l)
           end
  end.

Section Generic.
(** The word size in bits, the number of rounds, the round constants, the
    initial hash value and the rotation amounts. *)
Variables (w : Z) (rounds : nat) (K H0 : list Z).
Variables (A1 A2 A3 E1 E2 E3 a1 a2 a3 e1 e2 e3 : Z).

Definition wrap (x : Z) : Z := x mod 2 ^ w.
Definition rotr (x n : Z) : Z := Z.lor (Z.shiftr x n) (wrap (Z.shiftl x (w - n))).
Definition Sigma0 (x : Z) : Z := Z.lxor (Z.lxor (rotr x A1) (rotr x A2)) (rotr x A3).
Definition Sigma1 (x : Z) : Z := Z.lxor (Z.lxor (rotr x E1) (rotr x E2)) (rotr x E3).
Definition sigma0 (x : Z) : Z := Z.lxor (Z.lxor (rotr x a1) (rotr x a2)) (Z.shiftr x a3).
Definition sigma1 (x : Z) : Z := Z.lxor (Z.lxor (rotr x e1) (rotr x e2)) (Z.shiftr x e3).
Definition Ch (e f g : Z) : Z := Z.lxor (Z.land e f) (Z.land (Z.lnot e) g).
Definition Maj (a b c : Z) : Z :=
  Z.lxor (Z.lxor (Z.land a b) (Z.land a c)) (Z.land b c).

Definition word_bytes : nat := Z.to_nat (w / 8).
Definition block_bytes : nat := (16 * word_bytes)%nat.
Definition length_bytes : nat := (2 * word_bytes)%nat.

Definition pad (msg : bytes) : bytes :=
  let used := (length msg + 1 + length_bytes)%nat in
  let k := ((block_bytes - used mod block_bytes) mod block_bytes)%nat in
  msg ++ [x80] ++ repeat x00 k ++ be_bytes length_bytes (8 * Z.of_nat (length msg)).

(** The message schedule, newest word first. *)
Fixpoint schedule (n : nat) (rev_w : list Z) : list Z :=
  match n with
  | O => rev_w
  | S k =>
      let x := wrap (sigma1 (nth 1 rev_w 0) + nth 6 rev_w 0 +
                     sigma0 (nth 14 rev_w 0) + nth 15 rev_w 0) in
      schedule k (x :: rev_w)
  end.

Definition state : Type := (Z * Z * Z * Z * Z * Z * Z * Z)%type.

Definition round (s : state) (kw : Z * Z) : state :=
  let '(a, b, c, d, e, f, g, h) := s in
  let t1 := h + Sigma1 e + Ch e f g + fst kw + snd kw in
  let t2 := Sigma0 a + Maj a b c in
  (wrap (t1 + t2), a, b, c, wrap (d + t1), e, f, g).

Definition compress (s : state) (block : bytes) : state :=
  let w16 := map be_value (chunks 16 word_bytes block) in
  let ws := rev (schedule (rounds - 16) (rev w16)) in
  let '(a, b, c, d, e, f, g, h) := fold_left round (combine K ws) s in
  let '(a0, b0, c0, d0, e0, f0, g0, h0) := s in
  (wrap (a0 + a), wrap (b0 + b), wrap (c0 + c), wrap (d0 + d),
   wrap (e0 + e), wrap (f0 + f), wrap (g0 + g), wrap (h0 + h)).

Definition initial : state :=
  (nth 0 H0 0, nth 1 H0 0, nth 2 H0 0, nth 3 H0 0,
   nth 4 H0 0, nth 5 H0 0, nth 6 H0 0, nth 7 H0 0).

Definition digest (msg : bytes) : bytes :=
  let padded := pad msg in
  let blocks := chunks (length padded) block_bytes padded in
  let '(a, b, c, d, e, f, g, h) := fold_left compress blocks initial in
  be_bytes word_bytes a ++ be_bytes word_bytes b ++
  be_bytes word_bytes c ++ be_bytes word_bytes d ++
  be_bytes word_bytes e ++ be_bytes word_bytes f ++
  be_bytes word_bytes g ++ be_bytes word_bytes h.

End Generic.

Definition K512 : list Z :=
  [
    4794697086780616226; 8158064640168781261; 13096744586834688815;
    16840607885511220156; 4131703408338449720; 6480981068601479193;
    10538285296894168987; 12329834152419229976; 15566598209576043074;
    1334009975649890238; 2608012711638119052; 6128411473006802146;
    8268148722764581231; 9286055187155687089; 11230858885718282805;
    13951009754708518548; 16472876342353939154; 17275323862435702243;
    1135362057144423861; 2597628984639134821; 3308224258029322869;
    5365058923640841347; 6679025012923562964; 8573033837759648693;
    10970295158949994411; 12119686244451234320; 12683024718118986047;
    13788192230050041572; 14330467153632333762; 15395433587784984357;
    489312712824947311; 1452737877330783856; 2861767655752347644;
    3322285676063803686; 5560940570517711597; 5996557281743188959;
    7280758554555802590; 8532644243296465576; 9350256976987008742;
    10552545826968843579; 11727347734174303076; 12113106623233404929;
    14000437183269869457; 14369950271660146224; 15101387698204529176;
    15463397548674623760; 17586052441742319658; 1182934255886127544;
    1847814050463011016; 2177327727835720531; 2830643537854262169;
    3796741975233480872; 4115178125766777443; 5681478168544905931;
    6601373596472566643; 7507060721942968483; 8399075790359081724;
    8693463985226723168; 9568029438360202098; 10144078919501101548;
    10430055236837252648; 11840083180663258601; 13761210420658862357;
    14299343276471374635; 14566680578165727644; 15097957966210449927;
    16922976911328602910; 17689382322260857208; 500013540394364858;
    748580250866718886; 1242879168328830382; 1977374033974150939;
    2944078676154940804; 3659926193048069267; 4368137639120453308;
    4836135668995329356; 5532061633213252278; 6448918945643986474;
    6902733635092675308; 7801388544844847127 ].

Definition H512 : list Z :=
  [
    7640891576956012808; 13503953896175478587; 4354685564936845355;
    11912009170470909681; 5840696475078001361; 11170449401992604703;
    2270897969802886507; 6620516959819538809 ].

Definition K256 : list Z :=
  [
    1116352408; 1899447441; 3049323471; 3921009573; 961987163; 1508970993;
    2453635748; 2870763221; 3624381080; 310598401; 607225278; 1426881987;
    1925078388; 2162078206; 2614888103; 3248222580; 3835390401; 4022224774;
    264347078; 604807628; 770255983; 1249150122; 1555081692; 1996064986;
    2554220882; 2821834349; 2952996808; 3210313671; 3336571891; 3584528711;
    113926993; 338241895; 666307205; 773529912; 1294757372; 1396182291;
    1695183700; 1986661051; 2177026350; 2456956037; 2730485921; 2820302411;
    3259730800; 3345764771; 3516065817; 3600352804; 4094571909; 275423344;
    430227734; 506948616; 659060556; 883997877; 958139571; 1322822218;
    1537002063; 1747873779; 1955562222; 2024104815; 2227730452; 2361852424;
    2428436474; 2756734187; 3204031479; 3329325298 ].

Definition H256 : list Z :=
  [
    1779033703; 3144134277; 1013904242; 2773480762; 1359893119; 2600822924;
    528734635; 1541459225 ].

End SHA2.

Definition sha256 : bytes -> bytes :=
  SHA2.digest 32 64 SHA2.K256 SHA2.H256 2 13 22 6 11 25 7 18 3 17 19 10.

Definition sha512 : bytes -> bytes :=
  SHA2.digest 64 80 SHA2.K512 SHA2.H512 28 34 39 14 18 41 1 8 7 19 61 6.

(* ================================================================= *)
(** * @noble/curves: the field, the group order, the curve interface *)

(** [ed25519.CURVE.Fp]: the prime field of 2^255 - 19 elements. *)
Module Fp.

Definition ORDER : Z := 2 ^ 255 - 19.
Definition ONE : Z := 1.
Definition add (a b : Z) : Z := (a + b) mod ORDER.
Definition sub (a b : Z) : Z := (a - b) mod ORDER.
Definition mul (a b : Z) : Z := (a * b) mod ORDER.
Definition neg (a : Z) : Z := (- a) mod ORDER.

(** The same operations on machine-word integers, by which powers and the
    curve arithmetic below are computed. *)
Definition P : bigZ := BigZ.of_Z ORDER.
Definition badd (a b : bigZ) : bigZ := BigZ.modulo (BigZ.add a b) P.
Definition bsub (a b : bigZ) : bigZ := BigZ.modulo (BigZ.sub a b) P.
Definition bmul (a b : bigZ) : bigZ := BigZ.modulo (BigZ.mul a b) P.
Definition bneg (a : bigZ) : bigZ := BigZ.modulo (BigZ.opp a) P.

Fixpoint bpow_pos (a : bigZ) (e : positive) : bigZ :=
  match e with
  | xH => BigZ.modulo a P
  | xO e' => let h := bpow_pos a e' in bmul h h
  | xI e' => let h := bpow_pos a e' in bmul (bmul h h) a
  end.

Definition bpow (a : bigZ) (e : Z) : bigZ :=
  match e with
  | Z.pos e' => bpow_pos a e'
  | _ => BigZ.one
  end.

Definition binv (a : bigZ) : bigZ := bpow a (ORDER - 2).

Definition pow (a e : Z) : Z := BigZ.to_Z (bpow (BigZ.of_Z a) e).

(** [Fp.inv]: the inverse of a non-zero element, which for this prime field
    is its power [ORDER - 2]; zero has none and the library raises. *)
Definition inv (a : Z) : result Z :=
  if a mod ORDER =? 0 then Throw InvertZero else Ok (pow a (ORDER - 2)).

End Fp.

(** [ed25519.CURVE.n]: the order of the base point. *)
Definition CURVE_n : Z := 2 ^ 252 + 27742317777372353535851937790883648493.

(** [Keypair] of @solana/web3.js: the 32-byte public key and the 64-byte
    secret key it was made from. *)
Record Keypair : Type := {
  kp_publicKey : bytes;
  kp_secretKey : bytes
}.

(** The operations of [ed25519.Point] and of [x25519] that the repository
    and [Keypair] call.  [smul n P] is the scalar multiple of a point, for any
    non-negative [n]; the library's [multiply] accepts a restricted range of
    scalars, see [multiply] below. *)
Class Curve : Type := {
  point : Type;
  BASE : point;
  add : point -> point -> point;
  smul : Z -> point -> point;
  point_eqb : point -> point -> bool;
  fromHex : bytes -> result point;
  toRawBytes : point -> bytes;
  toAffine_y : point -> Z;
  x25519_scalarMult : bytes -> bytes -> result bytes
}.

(* ================================================================= *)
(** * src/crypto.ts *)

Definition L : Z := CURVE_n.

(** Convert bytes to BigInt (big-endian) *)
Definition bytesToBigInt (bs : bytes) : Z :=
  fold_left (fun result b => Z.lor (Z.shiftl result 8) (b2z b)) bs 0.

(** Convert bytes to BigInt (little-endian) *)
Definition bytesToBigIntLE (bs : bytes) : Z :=
  fold_right (fun b result => Z.lor (Z.shiftl result 8) (b2z b)) 0 bs.

(** Convert BigInt to bytes (little-endian, fixed length) *)
Fixpoint bigIntToBytesLE (value : Z) (length : nat) : bytes :=
  match length with
  | O => []
  | S n => z2b (Z.land value 255) :: bigIntToBytesLE (Z.shiftr value 8) n
  end.

(** Convert BigInt to bytes (big-endian, fixed length): the loop runs from
    the last index down; [filled] holds the bytes stored so far, those of
    the indices from [i] on. *)
Fixpoint bigIntToBytes_loop (i : nat) (v : Z) (filled : bytes) : bytes :=
  match i with
  | O => filled
  | S j => bigIntToBytes_loop j (Z.shiftr v 8) (z2b (Z.land v 255) :: filled)
  end.

Definition bigIntToBytes (value : Z) (length : nat) : bytes :=
  bigIntToBytes_loop length value [].

Definition extractScalar (secretKey : bytes) : result bytes :=
  if (length secretKey =? 64)%nat then Ok (slice 0 32 secretKey)
  else if (length secretKey =? 32)%nat then Ok secretKey
  else Throw (InvalidSecretKeyLength (length secretKey)).

(** [h[0] &= 248; h[31] &= 127; h[31] |= 64] *)
Definition clamp (h : bytes) : bytes :=
  update_at 31 (fun b => z2b (Z.lor (Z.land (b2z b) 127) 64))
    (update_at 0 (fun b => z2b (Z.land (b2z b) 248)) h).

Definition seedToScalar (seed : bytes) : Z :=
  let hash := sha512 seed in
  let h := slice 0 32 hash in
  bytesToBigIntLE (clamp h).

Definition ed25519SeedToX25519Priv (seed : bytes) : bytes :=
  let hash := sha512 seed in
  let scalar := slice 0 32 hash in
  clamp scalar.

Section Crypto.
Context {C : Curve}.

(** [P.multiply(n)]: the library takes scalars from 1 to [CURVE_n - 1]. *)
Definition multiply (P : point) (n : Z) : result point :=
  if (1 <=? n) && (n <? CURVE_n) then Ok (smul n P) else Throw ScalarOutOfRange.

(** [ed25519.getPublicKey(seed)], by which [Keypair.generate] and
    [Keypair.fromSecretKey] compute a public key. *)
Definition getPublicKey (seed : bytes) : result bytes :=
  if negb (length seed =? 32)%nat then Throw (LibraryError 32)
  else
    let head := clamp (slice 0 32 (sha512 seed)) in
    let scalar := bytesToBigIntLE head mod CURVE_n in
    point <- multiply BASE scalar ;;
    Ok (toRawBytes point).

(** [Keypair.generate()], as a function of the 32 random bytes it draws. *)
Definition Keypair_generate (random : bytes) : result Keypair :=
  publicKey <- getPublicKey random ;;
  Ok {| kp_publicKey := publicKey; kp_secretKey := random ++ publicKey |}.

(** [Keypair.fromSecretKey(secretKey)] as the repository calls it, without
    the option [skipValidation]: the key must have 64 bytes, and its last
    32 bytes must be the public key that [getPublicKey] computes from its
    first 32 bytes taken as a seed. *)
Definition Keypair_fromSecretKey (secretKey : bytes) : result Keypair :=
  if negb (length secretKey =? 64)%nat then Throw BadSecretKey
  else
    let publicKey := slice 32 64 secretKey in
    let privateScalar := slice 0 32 secretKey in
    computedPublicKey <- getPublicKey privateScalar ;;
    if bytes_eqb publicKey computedPublicKey
    then Ok {| kp_publicKey := publicKey; kp_secretKey := secretKey |}
    else Throw BadSecretKey.

(** [keypair.publicKey] *)
Definition Keypair_publicKey (k : Keypair) : result PublicKey :=
  PublicKey_of_bytes (kp_publicKey k).

Definition ed25519PubToX25519 (edPub : bytes) : result bytes :=
  point <- fromHex edPub ;;
  let y := toAffine_y point in
  let one := Fp.ONE in
  let numerator := Fp.add one y in
  let denominator := Fp.sub one y in
  inverse <- Fp.inv denominator ;;
  let u := Fp.mul numerator inverse in
  Ok (bigIntToBytesLE u 32).

Record StealthKeys : Type := {
  viewingPrivkey : bytes;
  spendingPrivkey : bytes;
  metaAddress : StealthMetaAddress
}.

Record StealthAddressResult : Type := {
  stealthPubkey : PublicKey;
  res_ephemeralPubkey : bytes;
  res_viewTag : jsval
}.

Record StealthAddressResultInternal : Type := {
  int_stealthPubkey : PublicKey;
  int_ephemeralPubkey : bytes;
  int_ephemeralPrivkey : bytes;
  int_sharedSecret : bytes;
  int_viewTag : jsval
}.

(** [a[i]] on a typed array; [undefined] out of range. *)
Definition byte_at (a : bytes) (i : nat) : jsval :=
  match nth_error a i with
  | Some b => Some (JNum (b2z b))
  | None => None
  end.

(** [generateStealthKeys()], as a function of the random bytes of its two
    [Keypair.generate()] calls. *)
Definition generateStealthKeys (random1 random2 : bytes) : result StealthKeys :=
  viewingKeypair <- Keypair_generate random1 ;;
  spendingKeypair <- Keypair_generate random2 ;;
  viewingPriv <- extractScalar (kp_secretKey viewingKeypair) ;;
  spendingPriv <- extractScalar (kp_secretKey spendingKeypair) ;;
  viewingPub <- Keypair_publicKey viewingKeypair ;;
  spendingPub <- Keypair_publicKey spendingKeypair ;;
  Ok {| viewingPrivkey := viewingPriv;
        spendingPrivkey := spendingPriv;
        metaAddress := {| viewingPubkey := toBytes viewingPub;
                          spendingPubkey := toBytes spendingPub |} |}.

(** [computeStealthAddressInternal(metaAddress)], as a function of the
    random bytes of its [Keypair.generate()] call. *)
Definition computeStealthAddressInternal (metaAddress : StealthMetaAddress)
    (random : bytes) : result StealthAddressResultInternal :=
  (* 1. Generate ephemeral keypair *)
  ephemeralKeypair <- Keypair_generate random ;;
  ephemeralSeed <- extractScalar (kp_secretKey ephemeralKeypair) ;;
  ephemeralPublic <- Keypair_publicKey ephemeralKeypair ;;
  let ephemeralPubkey := toBytes ephemeralPublic in
  (* 2. Convert to X25519 for ECDH *)
  let ephemeralX25519Priv := ed25519SeedToX25519Priv ephemeralSeed in
  viewingX25519Pub <- ed25519PubToX25519 (viewingPubkey metaAddress) ;;
  (* 3. ECDH shared secret *)
  sharedSecret <- x25519_scalarMult ephemeralX25519Priv viewingX25519Pub ;;
  (* 4. Derive tweak from shared secret *)
  let tweak := sha256 sharedSecret in
  let viewTag := byte_at tweak 0 in
  (* 5. Convert tweak to scalar (mod L) *)
  let tweakScalar := bytesToBigInt tweak mod L in
  (* 6. Compute tweak * B *)
  tweakPoint <- multiply BASE tweakScalar ;;
  (* 7. Parse spending pubkey as point and add tweak *)
  spendingPoint <- fromHex (spendingPubkey metaAddress) ;;
  let stealthPoint := add spendingPoint tweakPoint in
  let stealthPubkeyBytes := toRawBytes stealthPoint in
  stealthPublic <- PublicKey_of_bytes stealthPubkeyBytes ;;
  Ok {| int_stealthPubkey := stealthPublic;
        int_ephemeralPubkey := ephemeralPubkey;
        int_ephemeralPrivkey := ephemeralSeed;
        int_sharedSecret := sharedSecret;
        int_viewTag := viewTag |}.

Definition computeStealthAddress (metaAddress : StealthMetaAddress)
    (random : bytes) : result StealthAddressResult :=
  result <- computeStealthAddressInternal metaAddress random ;;
  Ok {| stealthPubkey := int_stealthPubkey result;
        res_ephemeralPubkey := int_ephemeralPubkey result;
        res_viewTag := int_viewTag result |}.

Definition createKeypairFromScalar (scalar : Z) (pubkey : bytes) : result Keypair :=
  let scalarBytes := bigIntToBytesLE scalar 32 in
  let secretKey := scalarBytes ++ pubkey in
  Keypair_fromSecretKey secretKey.

Definition deriveStealthKeypair (viewingPrivkey spendingPrivkey ephemeralPubkey : bytes)
  : result Keypair :=
  (* 1. Convert to X25519 for ECDH *)
  let viewingX25519Priv := ed25519SeedToX25519Priv viewingPrivkey in
  ephemeralX25519Pub <- ed25519PubToX25519 ephemeralPubkey ;;
  (* 2. ECDH shared secret *)
  sharedSecret <- x25519_scalarMult viewingX25519Priv ephemeralX25519Pub ;;
  (* 3. Derive tweak *)
  let tweak := sha256 sharedSecret in
  let tweakScalar := bytesToBigInt tweak mod L in
  (* 4. Derive spending scalar from seed *)
  let spendingScalar := seedToScalar spendingPrivkey in
  (* 5. Stealth scalar = spending_scalar + tweak (mod L) *)
  let stealthScalar := (spendingScalar + tweakScalar) mod L in
  (* 6. Compute the stealth public key *)
  stealthPoint <- multiply BASE stealthScalar ;;
  let stealthPubkey := toRawBytes stealthPoint in
  (* 7. Create Solana keypair from scalar *)
  createKeypairFromScalar stealthScalar stealthPubkey.

(** [a === b] for a byte [a] and any value [b]. *)
Definition strict_equal (a b : jsval) : bool :=
  match a, b with
  | Some (JNum x), Some (JNum y) => x =? y
  | None, None => true
  | _, _ => false
  end.

Definition checkViewTag (viewingPrivkey ephemeralPubkey : bytes) (viewTag : jsval)
  : result bool :=
  let viewingX25519Priv := ed25519SeedToX25519Priv viewingPrivkey in
  ephemeralX25519Pub <- ed25519PubToX25519 ephemeralPubkey ;;
  sharedSecret <- x25519_scalarMult viewingX25519Priv ephemeralX25519Pub ;;
  let tweak := sha256 sharedSecret in
  Ok (strict_equal (byte_at tweak 0) viewTag).

Definition computeExpectedStealthAddress
    (viewingPrivkey spendingPubkey ephemeralPubkey : bytes) : result PublicKey :=
  let viewingX25519Priv := ed25519SeedToX25519Priv viewingPrivkey in
  ephemeralX25519Pub <- ed25519PubToX25519 ephemeralPubkey ;;
  sharedSecret <- x25519_scalarMult viewingX25519Priv ephemeralX25519Pub ;;
  let tweak := sha256 sharedSecret in
  let tweakScalar := bytesToBigInt tweak mod L in
  tweakPoint <- multiply BASE tweakScalar ;;
  spendingPoint <- fromHex spendingPubkey ;;
  let stealthPoint := add spendingPoint tweakPoint in
  PublicKey_of_bytes (toRawBytes stealthPoint).

(** ** Signing *)

(** [ed25519.sign(message, privateKey)]: the signature of RFC 8032 under
    the 32-byte seed [privateKey]. *)
Definition ed25519_sign (message privateKey : bytes) : result bytes :=
  if negb (length privateKey =? 32)%nat then Throw (LibraryError 32)
  else
    let hashed := sha512 privateKey in
    let head := clamp (slice 0 32 hashed) in
    let prefix := slice 32 64 hashed in
    let scalar := bytesToBigIntLE head mod CURVE_n in
    publicPoint <- multiply BASE scalar ;;
    let pointBytes := toRawBytes publicPoint in
    let r := bytesToBigIntLE (sha512 (prefix ++ message)) mod CURVE_n in
    Rpoint <- multiply BASE r ;;
    let R := toRawBytes Rpoint in
    let k := bytesToBigIntLE (sha512 (R ++ pointBytes ++ message)) mod CURVE_n in
    let s := (r + k * scalar) mod CURVE_n in
    Ok (R ++ bigIntToBytesLE s 32).

(** The verification rule of RFC 8032, section 5.1.7, in its cofactored
    form: [[8][S]B = [8]R + [8][k]A]. *)
Definition ed25519_verify (signature message publicKey : bytes) : bool :=
  if negb (length signature =? 64)%nat then false
  else
    match fromHex publicKey, fromHex (slice 0 32 signature) with
    | Ok A, Ok R =>
        let s := bytesToBigIntLE (slice 32 64 signature) in
        if CURVE_n <=? s then false
        else
          let k := bytesToBigIntLE
                     (sha512 (slice 0 32 signature ++ publicKey ++ message))
                   mod CURVE_n in
          point_eqb (smul 8 (smul s BASE)) (smul 8 (add R (smul k A)))
    | _, _ => false
    end.

Definition signWithScalar (message : bytes) (scalar : Z) (pubkey : bytes)
  : result bytes :=
  let scalarBytes := bigIntToBytesLE scalar 32 in
  let prefix := slice 32 64 (sha512 scalarBytes) in
  let extendedKey := scalarBytes ++ prefix in
  ed25519_sign message (slice 0 32 extendedKey).

Definition getScalarFromKeypair (keypair : Keypair) : Z :=
  let scalarBytes := slice 0 32 (kp_secretKey keypair) in
  bytesToBigIntLE scalarBytes.

End Crypto.

(* ================================================================= *)
(** * What the curve library guarantees *)

(** The Montgomery u-coordinate [(1 + y) / (1 - y)] of an Edwards point. *)
Definition montgomery_u (y : Z) : Z :=
  Fp.mul (Fp.add Fp.ONE y) (Fp.pow (Fp.sub Fp.ONE y) (Fp.ORDER - 2)).

(** What X25519 returns for the point [Q] it arrives at: the library
    refuses the two points whose u-coordinate comes out as zero, the
    identity ([y = 1]) and the point of order two ([y = -1]). *)
Definition x25519_of_point {C : Curve} (Q : point) : result bytes :=
  let y := toAffine_y Q in
  if (Fp.sub Fp.ONE y =? 0) || (Fp.add Fp.ONE y =? 0) then Throw LowOrderResult
  else Ok (bigIntToBytesLE (montgomery_u y) 32).

(** The contract of the libraries: points are encoded in 32 bytes and
    decode back; scalar multiplication is additive and multiplicative in the
    scalar; the base point has order [CURVE_n] and no smaller multiple of it
    is the identity; X25519 on the u-coordinate of a point is scalar
    multiplication of that point. *)
Record CurveLaws (C : Curve) : Prop := {
  toRawBytes_length : forall P, length (toRawBytes P) = 32%nat;
  fromHex_toRawBytes : forall P, fromHex (toRawBytes P) = Ok P;
  smul_add : forall m n P, 0 <= m -> 0 <= n ->
    smul (m + n) P = add (smul m P) (smul n P);
  smul_smul : forall m n P, 0 <= m -> 0 <= n ->
    smul m (smul n P) = smul (m * n) P;
  smul_order : forall n, 0 <= n -> smul n BASE = smul (n mod CURVE_n) BASE;
  base_multiple_affine : forall n, 0 < n < CURVE_n ->
    Fp.sub Fp.ONE (toAffine_y (smul n BASE)) <> 0;
  x25519_law : forall k P, length k = 32%nat ->
    Fp.sub Fp.ONE (toAffine_y P) <> 0 ->
    x25519_scalarMult (clamp k)
      (bigIntToBytesLE (montgomery_u (toAffine_y P)) 32) =
    x25519_of_point (smul (bytesToBigIntLE (clamp k)) P)
}.

Arguments toRawBytes_length {C} _ P.
Arguments fromHex_toRawBytes {C} _ P.
Arguments smul_add {C} _ m n P _ _.
Arguments smul_smul {C} _ m n P _ _.
Arguments smul_order {C} _ n _.
Arguments base_multiple_affine {C} _ n _.
Arguments x25519_law {C} _ k P _ _.

(* ================================================================= *)
(** * src/sdk.ts: account and scanner *)

Record DiscoveredPayment : Type := {
  dp_stealthAddress : PublicKey;
  dp_ephemeralPubkey : bytes;
  dp_balance : Z;
  dp_keypair : Keypair
}.

Record StealthAccount : Type := { keys : StealthKeys }.

Section Sdk.
Context {C : Curve}.

Definition getMetaAddress (this : StealthAccount) : StealthMetaAddress :=
  metaAddress (keys this).

Definition getMetaAddressString (this : StealthAccount) : result jsstring :=
  encodeMetaAddress (metaAddress (keys this)).

Definition account_deriveKeypair (this : StealthAccount) (ephemeralPubkey : bytes)
  : result Keypair :=
  deriveStealthKeypair (viewingPrivkey (keys this)) (spendingPrivkey (keys this))
    ephemeralPubkey.

Definition account_checkViewTag (this : StealthAccount) (ephemeralPubkey : bytes)
    (viewTag : jsval) : result bool :=
  checkViewTag (viewingPrivkey (keys this)) ephemeralPubkey viewTag.

Definition account_computeExpectedAddress (this : StealthAccount)
    (ephemeralPubkey : bytes) : result PublicKey :=
  computeExpectedStealthAddress (viewingPrivkey (keys this))
    (spendingPubkey (metaAddress (keys this))) ephemeralPubkey.

(** [account.serialize()] *)
Definition serialize (this : StealthAccount) : jsstring :=
  let data :=
    [ (lit "viewingPrivkey",
       Some (JStr (BaseX.encode (viewingPrivkey (keys this)))));
      (lit "spendingPrivkey",
       Some (JStr (BaseX.encode (spendingPrivkey (keys this)))));
      (lit "viewingPubkey",
       Some (JStr (BaseX.encode (viewingPubkey (metaAddress (keys this))))));
      (lit "spendingPubkey",
       Some (JStr (BaseX.encode (spendingPubkey (metaAddress (keys this)))))) ] in
  stringify (JObj (object_of data)).

(** [account.deserialize(serialized)]; the four keys it reads are no
    properties of arrays, strings, numbers or booleans. *)
Definition deserialize (serialized : jsstring) : result StealthKeys :=
  data <- JSON.parse serialized ;;
  viewingPrivkeyText <- get_prop data (lit "viewingPrivkey") ;;
  viewingPriv <- bs58_decode_value viewingPrivkeyText ;;
  spendingPrivkeyText <- get_prop data (lit "spendingPrivkey") ;;
  spendingPriv <- bs58_decode_value spendingPrivkeyText ;;
  viewingPubkeyText <- get_prop data (lit "viewingPubkey") ;;
  viewingPub <- bs58_decode_value viewingPubkeyText ;;
  spendingPubkeyText <- get_prop data (lit "spendingPubkey") ;;
  spendingPub <- bs58_decode_value spendingPubkeyText ;;
  Ok {| viewingPrivkey := viewingPriv;
        spendingPrivkey := spendingPriv;
        metaAddress := {| viewingPubkey := viewingPub;
                          spendingPubkey := spendingPub |} |}.

(** [new StealthAccount(arg)], as a function of the random bytes that
    [generateStealthKeys] draws when it is called.  [None] is the omitted
    argument; the empty string is falsy and takes the first branch too. *)
Definition StealthAccount_new (arg : option (StealthKeys + jsstring))
    (random1 random2 : bytes) : result StealthAccount :=
  match arg with
  | None | Some (inr []) =>
      generated <- generateStealthKeys random1 random2 ;;
      Ok {| keys := generated |}
  | Some (inr serialized) =>
      restored <- deserialize serialized ;;
      Ok {| keys := restored |}
  | Some (inl provided) => Ok {| keys := provided |}
  end.

(** [generateMetaAddress()] *)
Definition generateMetaAddress (random1 random2 : bytes)
  : result (StealthAccount * jsstring) :=
  account <- StealthAccount_new None random1 random2 ;;
  metaAddress <- getMetaAddressString account ;;
  Ok (account, metaAddress).

(** The fields of a [StealthPayment]. *)
Record StealthPayment : Type := {
  sp_stealthAddress : PublicKey;
  sp_ephemeralPubkey : bytes;
  sp_viewTag : jsval
}.

(** [StealthPayment.create(recipient)], for a meta-address or its string,
    as a function of the random bytes drawn by [computeStealthAddress]. *)
Definition StealthPayment_create (recipient : StealthMetaAddress + jsstring)
    (random : bytes) : result StealthPayment :=
  meta <- match recipient with
          | inr encoded => decodeMetaAddress encoded
          | inl meta => Ok meta
          end ;;
  result <- computeStealthAddress meta random ;;
  Ok {| sp_stealthAddress := stealthPubkey result;
        sp_ephemeralPubkey := res_ephemeralPubkey result;
        sp_viewTag := res_viewTag result |}.

(** [payment.getAnnouncement()] *)
Definition getAnnouncement (this : StealthPayment) : StealthAnnouncement :=
  {| ephemeralPubkey := sp_ephemeralPubkey this;
     viewTag := sp_viewTag this;
     stealthAddress := sp_stealthAddress this;
     txSignature := None;
     slot := None |}.

(** [StealthPayment.create(recipient).getAnnouncement()], as a function of
    the random bytes drawn by [computeStealthAddress]. *)
Definition payment_announcement (recipient : StealthMetaAddress) (random : bytes)
  : result StealthAnnouncement :=
  result <- computeStealthAddress recipient random ;;
  Ok {| ephemeralPubkey := res_ephemeralPubkey result;
        viewTag := res_viewTag result;
        stealthAddress := stealthPubkey result;
        txSignature := None;
        slot := None |}.

(** [connection.getBalance(address)]: the balance the chain reports for an
    address, or the error of the query. *)
Variable getBalance : PublicKey -> result Z.

(** The body of the [for] loop of [scanAnnouncements], with the list
    [discovered] built so far. *)
Fixpoint scan_loop (account : StealthAccount)
    (announcements : list StealthAnnouncement)
    (discovered : list DiscoveredPayment) : result (list DiscoveredPayment) :=
  match announcements with
  | [] => Ok discovered
  | announcement :: rest =>
      (* Quick filter by view tag *)
      tagged <- account_checkViewTag account (ephemeralPubkey announcement)
                  (viewTag announcement) ;;
      if negb tagged then scan_loop account rest discovered
      else
        (* Compute expected address *)
        expectedAddress <-
          account_computeExpectedAddress account (ephemeralPubkey announcement) ;;
        (* Verify it matches the announcement *)
        if negb (PublicKey_equals expectedAddress (stealthAddress announcement))
        then scan_loop account rest discovered
        else
          (* Check balance *)
          balance <- getBalance (stealthAddress announcement) ;;
          if 0 <? balance then
            keypair <- account_deriveKeypair account (ephemeralPubkey announcement) ;;
            scan_loop account rest
              (discovered ++
               [ {| dp_stealthAddress := stealthAddress announcement;
                    dp_ephemeralPubkey := ephemeralPubkey announcement;
                    dp_balance := balance;
                    dp_keypair := keypair |} ])
          else scan_loop account rest discovered
  end.

Definition scanAnnouncements (account : StealthAccount)
    (announcements : list StealthAnnouncement) : result (list DiscoveredPayment) :=
  scan_loop account announcements [].

Definition found (o : option DiscoveredPayment) : list DiscoveredPayment :=
  match o with
  | Some d => [d]
  | None => []
  end.

(** One turn of the loop of [scanAnnouncements]. *)
Definition scan_one (account : StealthAccount) (a : StealthAnnouncement) : result (option DiscoveredPayment) :=
  tagged <- account_checkViewTag account (ephemeralPubkey a) (viewTag a) ;;
  if negb tagged then Ok None
  else
    expectedAddress <- account_computeExpectedAddress account (ephemeralPubkey a) ;;
    if negb (PublicKey_equals expectedAddress (stealthAddress a)) then Ok None
    else
      balance <- getBalance (stealthAddress a) ;;
      if 0 <? balance then
        keypair <- account_deriveKeypair account (ephemeralPubkey a) ;;
        Ok (Some {| dp_stealthAddress := stealthAddress a;
                    dp_ephemeralPubkey := ephemeralPubkey a;
                    dp_balance := balance;
                    dp_keypair := keypair |})
      else Ok None.

(** The three conditions of the scanner on an announcement. *)
Definition passes (account : StealthAccount) (a : StealthAnnouncement)
    (balance : Z) : Prop :=
  account_checkViewTag account (ephemeralPubkey a) (viewTag a) = Ok true /\
  account_computeExpectedAddress account (ephemeralPubkey a)
    = Ok (stealthAddress a) /\
  getBalance (stealthAddress a) = Ok balance /\ 0 < balance.

(** A transaction made of one [SystemProgram.transfer] instruction, with
    the keypairs that sign it. *)
Record TransferTransaction : Type := {
  fromPubkey : PublicKey;
  toPubkey : PublicKey;
  lamports : Z;
  signers : list Keypair
}.

(** How [withdraw] ends: with the signature of the confirmed transaction,
    with its own [Insufficient balance] error, or with the error of the
    connection. *)
Inductive withdrawal : Type :=
| Confirmed (signature : jsstring)
| InsufficientBalance (balance : Z)
| ConnectionError (e : error).

(** [connection.getMinimumBalanceForRentExemption(dataLength)] and
    [sendAndConfirmTransaction(connection, tx, signers)]. *)
Variable getMinimumBalanceForRentExemption : Z -> result Z.
Variable sendAndConfirmTransaction : TransferTransaction -> result jsstring.

(** [scanner.withdraw(payment, destination, leaveRent)]; [None] is an
    omitted [leaveRent].  Lamport amounts are integers below [2^53], on
    which the subtraction of JavaScript numbers is exact. *)
Definition withdraw (payment : DiscoveredPayment) (destination : PublicKey)
    (leaveRent : option bool) : withdrawal :=
  let leaveRent := match leaveRent with
                   | Some flag => flag
                   | None => false
                   end in
  match getMinimumBalanceForRentExemption 0 with
  | Throw e => ConnectionError e
  | Ok rentExempt =>
      let amountToSend :=
        if leaveRent then dp_balance payment - rentExempt
        else dp_balance payment - 5000 in
      if amountToSend <=? 0 then InsufficientBalance (dp_balance payment)
      else
        match sendAndConfirmTransaction
                {| fromPubkey := dp_stealthAddress payment;
                   toPubkey := destination;
                   lamports := amountToSend;
                   signers := [dp_keypair payment] |} with
        | Ok signature => Confirmed signature
        | Throw e => ConnectionError e
        end
  end.

End Sdk.

(* ================================================================= *)
(** * The curve library, computed: RFC 8032 and RFC 7748

    Points are kept in extended coordinates [(X : Y : Z : T)] of the twisted
    Edwards curve [-x^2 + y^2 = 1 + d x^2 y^2] over [Fp]. *)

Module Ref.
Import Fp.

Definition big (z : Z) : bigZ := BigZ.of_Z z.

Definition d : bigZ :=
  big 37095705934669439343138083508754565189542113879843219016388785533085940283555.
Definition SQRT_M1 : bigZ :=
  big 19681161376707505956807079304988542015446066515923890162744021073123829784752.
Definition Gx : bigZ :=
  big 15112221349535400772501151409588531511454012693041857206046113283949847762202.
Definition Gy : bigZ :=
  big 46316835694926478169428394003475163141307993866256225615783033603165251855960.

Record ext : Type := { eX : bigZ; eY : bigZ; eZ : bigZ; eT : bigZ }.

Definition ZERO : ext :=
  {| eX := BigZ.zero; eY := BigZ.one; eZ := BigZ.one; eT := BigZ.zero |}.
Definition G : ext := {| eX := Gx; eY := Gy; eZ := BigZ.one; eT := bmul Gx Gy |}.

Definition add (P Q : ext) : ext :=
  let A := bmul (bsub (eY P) (eX P)) (bsub (eY Q) (eX Q)) in
  let B := bmul (badd (eY P) (eX P)) (badd (eY Q) (eX Q)) in
  let C := bmul (bmul (eT P) (bmul (big 2) d)) (eT Q) in
  let D := bmul (bmul (eZ P) (big 2)) (eZ Q) in
  let E := bsub B A in
  let F := bsub D C in
  let G := badd D C in
  let H := badd B A in
  {| eX := bmul E F; eY := bmul G H; eZ := bmul F G; eT := bmul E H |}.

Fixpoint smul_pos (k : positive) (P : ext) : ext :=
  match k with
  | xH => P
  | xO k' => let Q := smul_pos k' P in add Q Q
  | xI k' => let Q := smul_pos k' P in add (add Q Q) P
  end.

Definition smul (n : Z) (P : ext) : ext :=
  match n with
  | Z.pos k => smul_pos k P
  | _ => ZERO
  end.

Definition eqb (P Q : ext) : bool :=
  BigZ.eqb (bmul (eX P) (eZ Q)) (bmul (eX Q) (eZ P)) &&
  BigZ.eqb (bmul (eY P) (eZ Q)) (bmul (eY Q) (eZ P)).

Definition affine_x (P : ext) : Z := BigZ.to_Z (bmul (eX P) (binv (eZ P))).
Definition affine_y (P : ext) : Z := BigZ.to_Z (bmul (eY P) (binv (eZ P))).

Definition toRawBytes (P : ext) : bytes :=
  let bytes := bigIntToBytesLE (affine_y P) 32 in
  if Z.odd (affine_x P)
  then update_at 31 (fun b => z2b (Z.lor (b2z b) 128)) bytes
  else bytes.

(** [Point.fromHex(bytes)], in its strict mode. *)
Definition fromHex (hex : bytes) : result ext :=
  if negb (length hex =? 32)%nat then Throw BadPoint
  else
    let lastByte := nth 31 (map b2z hex) 0 in
    let normed := update_at 31 (fun b => z2b (Z.land (b2z b) 127)) hex in
    let yz := bytesToBigIntLE normed in
    if ORDER <=? yz then Throw BadPoint
    else
      let y := big yz in
      let y2 := bmul y y in
      let u := bsub y2 BigZ.one in
      let v := badd (bmul d y2) BigZ.one in
      let v3 := bmul v (bmul v v) in
      let v7 := bmul (bmul v3 v3) v in
      let x0 := bmul (bmul u v3) (bpow (bmul u v7) ((ORDER - 5) / 8)) in
      let vx2 := bmul v (bmul x0 x0) in
      let root :=
        if BigZ.eqb vx2 u then Some x0
        else if BigZ.eqb vx2 (bneg u) then Some (bmul x0 SQRT_M1)
        else None in
      match root with
      | None => Throw BadPoint
      | Some x =>
          let isLastByteOdd := negb (Z.land lastByte 128 =? 0) in
          if BigZ.eqb x BigZ.zero && isLastByteOdd then Throw BadPoint
          else
            let x' := if Bool.eqb (Z.odd (BigZ.to_Z x)) isLastByteOdd
                      then x else bneg x in
            Ok {| eX := x'; eY := y; eZ := BigZ.one; eT := bmul x' y |}
      end.

(** The Montgomery ladder of RFC 7748 on the u-coordinate. *)
Definition ladder_state : Type := (bigZ * bigZ * bigZ * bigZ)%type.

Definition ladder_step (x1 : bigZ) (s : ladder_state) (bit : bool) : ladder_state :=
  let '(x2, z2, x3, z3) := s in
  let '(x2, z2, x3, z3) := if bit then (x3, z3, x2, z2) else (x2, z2, x3, z3) in
  let A := badd x2 z2 in
  let AA := bmul A A in
  let B := bsub x2 z2 in
  let BB := bmul B B in
  let E := bsub AA BB in
  let C := badd x3 z3 in
  let D := bsub x3 z3 in
  let DA := bmul D A in
  let CB := bmul C B in
  let x3' := bmul (badd DA CB) (badd DA CB) in
  let z3' := bmul x1 (bmul (bsub DA CB) (bsub DA CB)) in
  let x2' := bmul AA BB in
  let z2' := bmul E (badd AA (bmul (big 121665) E)) in
  if bit then (x3', z3', x2', z2') else (x2', z2', x3', z3').

Fixpoint ladder (t : nat) (k : Z) (x1 : bigZ) (s : ladder_state) : ladder_state :=
  match t with
  | O => s
  | S t' => ladder t' k x1 (ladder_step x1 s (Z.testbit k (Z.of_nat t')))
  end.

Definition scalarMult (scalar u : bytes) : result bytes :=
  if negb (length scalar =? 32)%nat || negb (length u =? 32)%nat
  then Throw (LibraryError 32)
  else
    let k := bytesToBigIntLE (clamp scalar) in
    let x1 :=
      BigZ.modulo
        (big (bytesToBigIntLE (update_at 31 (fun b => z2b (Z.land (b2z b) 127)) u)))
        P in
    let '(x2, z2, _, _) := ladder 255 k x1 (BigZ.one, BigZ.zero, x1, BigZ.one) in
    let pu := BigZ.to_Z (bmul x2 (binv z2)) in
    if pu =? 0 then Throw LowOrderResult
    else Ok (bigIntToBytesLE pu 32).

End Ref.

Definition RefCurve : Curve :=
  {| point := Ref.ext;
     BASE := Ref.G;
     add := Ref.add;
     smul := Ref.smul;
     point_eqb := Ref.eqb;
     fromHex := Ref.fromHex;
     toRawBytes := Ref.toRawBytes;
     toAffine_y := Ref.affine_y;
     x25519_scalarMult := Ref.scalarMult |}.
(* ================================================================= *)
(** * Test vectors

    The hash functions and the computed curve reproduce the published test
    vectors: FIPS 180-4 for SHA-256 and SHA-512 on the message [abc], the
    first test of RFC 8032, section 7.1, and the first vector of RFC 7748,
    section 5.2. *)

Example sha256_abc :
  sha256 (hex "616263") =
  hex "ba7816bf8f01cfea414140de5dae2223b00361a396177a9cb410ff61f20015ad".
Proof. vm_compute. reflexivity. Qed.

Example sha512_abc :
  sha512 (hex "616263") =
  hex "ddaf35a193617abacc417349ae20413112e6fa4e89a97ea20a9eeee64b55d39a2192992a274fc1a836ba3c23a3feebbd454d4423643ce80e2a9ac94fa54ca49f".
Proof. vm_compute. reflexivity. Qed.

Definition rfc8032_seed : bytes :=
  hex "9d61b19deffd5a60ba844af492ec2cc44449c5697b326919703bac031cae7f60".
Definition rfc8032_public : bytes :=
  hex "d75a980182b10ab7d54bfed3c964073a0ee172f3daa62325af021a68f707511a".
Definition rfc8032_signature : bytes :=
  hex "e5564300c360ac729086e2cc806e828a84877f1eb8e5d974d873e065224901555fb8821590a33bacc61e39701cf9b46bd25bf5f0595bbe24655141438e7a100b".

Example rfc8032_public_key :
  getPublicKey (C := RefCurve) rfc8032_seed = Ok rfc8032_public.
Proof. vm_compute. reflexivity. Qed.

Example rfc8032_sign :
  ed25519_sign (C := RefCurve) [] rfc8032_seed = Ok rfc8032_signature.
Proof. vm_compute. reflexivity. Qed.

Example rfc8032_verify :
  ed25519_verify (C := RefCurve) rfc8032_signature [] rfc8032_public = true.
Proof. vm_compute. reflexivity. Qed.

Example rfc7748_vector :
  x25519_scalarMult (Curve := RefCurve)
    (hex "a546e36bf0527c9d3b16154b82465edd62144c0ac1fc5a18506a2244ba449ac4")
    (hex "e6db6867583030db3594c1a424b15f7c726624ec26b3353b10a903a6d0ab1c4c") =
  Ok (hex "c3da55379de9c6908e94ea4df28d084f32eccf03491c71f754b4075577a28552").
Proof. vm_compute. reflexivity. Qed.

(** A keypair made by [Keypair.generate] passes the validation of
    [Keypair.fromSecretKey]. *)
Example generated_keypair_is_valid :
  Keypair_fromSecretKey (C := RefCurve) (rfc8032_seed ++ rfc8032_public)
  = Keypair_generate (C := RefCurve) rfc8032_seed.
Proof. vm_compute. reflexivity. Qed.
(* ================================================================= *)
(** * Facts about bytes and lists *)

Lemma b2z_range (b : byte) : 0 <= b2z b < 256.
Proof.
  unfold b2z. pose proof (Byte.to_N_bounded b). lia.
Qed.

Lemma z2b_b2z (b : byte) : z2b (b2z b) = b.
Proof.
  unfold z2b. rewrite Z.mod_small by apply b2z_range.
  unfold b2z. rewrite N2Z.id, Byte.of_to_N. reflexivity.
Qed.

Lemma b2z_z2b (z : Z) : b2z (z2b z) = z mod 256.
Proof.
  unfold z2b.
  assert (Hr : 0 <= z mod 256 < 256) by (apply Z.mod_pos_bound; lia).
  destruct (Byte.of_N (Z.to_N (z mod 256))) as [b|] eqn:E.
  - apply Byte.to_of_N in E. unfold b2z. rewrite E. lia.
  - apply Byte.of_N_None_iff in E. lia.
Qed.

Lemma b2z_inj (a b : byte) : b2z a = b2z b -> a = b.
Proof.
  intros H. rewrite <- (z2b_b2z a), <- (z2b_b2z b), H. reflexivity.
Qed.

Lemma map_z2b_b2z (l : bytes) : map z2b (map b2z l) = l.
Proof.
  induction l as [|b l IH]; simpl; [reflexivity|].
  rewrite z2b_b2z, IH. reflexivity.
Qed.

Lemma takeWhile_dropWhile {A} (f : A -> bool) (l : list A) :
  takeWhile f l ++ dropWhile f l = l.
Proof.
  induction l as [|x l IH]; simpl; [reflexivity|].
  destruct (f x); simpl; [rewrite IH|]; reflexivity.
Qed.

Lemma takeWhile_repeat_app {A} (f : A -> bool) (x : A) (n : nat) (l : list A) :
  f x = true -> hd_error (map f l) <> Some true ->
  takeWhile f (repeat x n ++ l) = repeat x n /\
  dropWhile f (repeat x n ++ l) = l.
Proof.
  intros Hx Hl. induction n as [|n [IH1 IH2]]; simpl.
  - destruct l as [|y l]; simpl in *; [split; reflexivity|].
    destruct (f y); [congruence | split; reflexivity].
  - rewrite Hx, IH1, IH2. split; reflexivity.
Qed.

Lemma takeWhile_all {A} (f : A -> bool) (l : list A) :
  Forall (fun x => f x = true) (takeWhile f l).
Proof.
  induction l as [|x l IH]; simpl; [constructor|].
  destruct (f x) eqn:E; constructor; assumption.
Qed.

Lemma dropWhile_head {A} (f : A -> bool) (l : list A) :
  hd_error (map f (dropWhile f l)) <> Some true.
Proof.
  induction l as [|x l IH]; simpl; [discriminate|].
  destruct (f x) eqn:E; [assumption|]. simpl. rewrite E. discriminate.
Qed.

Lemma dropWhile_id {A} (f : A -> bool) (l : list A) :
  hd_error (map f l) <> Some true -> dropWhile f l = l.
Proof.
  destruct l as [|x l]; simpl; [reflexivity|].
  destruct (f x); [congruence | reflexivity].
Qed.

Lemma In_dropWhile {A} (f : A -> bool) (x : A) (l : list A) :
  In x l -> f x = false -> In x (dropWhile f l).
Proof.
  induction l as [|y l IH]; simpl; [tauto|].
  intros [->|Hin] Hf.
  - rewrite Hf. left. reflexivity.
  - destruct (f y); [apply IH; assumption | right; assumption].
Qed.

Lemma dropWhile_incl {A} (f : A -> bool) (x : A) (l : list A) :
  In x (dropWhile f l) -> In x l.
Proof.
  induction l as [|y l IH]; simpl; [tauto|].
  destruct (f y); [intros H; right; apply IH, H | simpl; tauto].
Qed.

Lemma zero_bytes_repeat (l : bytes) :
  Forall (fun b => BaseX.is_zero_byte b = true) l -> l = repeat x00 (length l).
Proof.
  induction 1 as [|b l Hb _ IH]; simpl; [reflexivity|].
  unfold BaseX.is_zero_byte in Hb. apply Byte.byte_dec_bl in Hb.
  rewrite Hb, <- IH. reflexivity.
Qed.

(* ================================================================= *)
(** * Radix conversion *)

Module BaseXFacts.
Import BaseX.

(** A digit buffer is in normal form when its most significant digit (the
    last of the list) is not zero. *)
Definition normal (buf : list Z) : Prop := last buf 1 <> 0.

Definition digits_below (base : Z) (buf : list Z) : Prop :=
  Forall (fun d => 0 <= d < base) buf.

Section RadixFacts.
Variables (base mul : Z).
Hypothesis base_ge_2 : 2 <= base.
Hypothesis mul_pos : 0 < mul.

Lemma carry_out_val (fuel : nat) (c : Z) :
  0 <= c < 2 ^ Z.of_nat fuel -> val base (carry_out base fuel c) = c.
Proof.
  revert c. induction fuel as [|f IH]; intros c Hc.
  - simpl in *. lia.
  - cbn [carry_out]. destruct (c =? 0) eqn:E; [simpl; lia|].
    cbn [val]. rewrite IH.
    + pose proof (Z.div_mod c base). lia.
    + rewrite Nat2Z.inj_succ, Z.pow_succ_r in Hc by lia.
      split; [apply Z.div_pos; lia|].
      apply Z.div_lt_upper_bound; [lia|].
      assert (0 < 2 ^ Z.of_nat f) by (apply Z.pow_pos_nonneg; lia). nia.
Qed.

Lemma carry_out_digits (fuel : nat) (c : Z) :
  digits_below base (carry_out base fuel c).
Proof.
  revert c. induction fuel as [|f IH]; intros c; simpl; [constructor|].
  destruct (c =? 0); constructor; [apply Z.mod_pos_bound; lia | apply IH].
Qed.

Lemma carry_out_normal (fuel : nat) (c : Z) :
  0 <= c < 2 ^ Z.of_nat fuel -> normal (carry_out base fuel c).
Proof.
  revert c. induction fuel as [|f IH]; intros c Hc.
  - simpl in Hc. unfold normal. simpl. lia.
  - cbn [carry_out]. destruct (c =? 0) eqn:E; [unfold normal; simpl; lia|].
    apply Z.eqb_neq in E.
    assert (Hq : 0 <= c / base < 2 ^ Z.of_nat f).
    { rewrite Nat2Z.inj_succ, Z.pow_succ_r in Hc by lia.
      split; [apply Z.div_pos; lia|].
      apply Z.div_lt_upper_bound; [lia|].
      assert (0 < 2 ^ Z.of_nat f) by (apply Z.pow_pos_nonneg; lia). nia. }
    specialize (IH _ Hq). unfold normal in *.
    destruct f as [|f'].
    + simpl in Hq. assert (c / base = 0) by lia.
      simpl. pose proof (Z.div_mod c base). lia.
    + cbn [carry_out] in *. destruct (c / base =? 0) eqn:E2.
      * apply Z.eqb_eq in E2. simpl. pose proof (Z.div_mod c base). lia.
      * exact IH.
Qed.

Lemma log2_fuel (c : Z) : 0 <= c -> 0 <= c < 2 ^ Z.of_nat (S (Z.to_nat (Z.log2 c))).
Proof.
  intros Hc. split; [assumption|].
  rewrite Nat2Z.inj_succ, Z2Nat.id by apply Z.log2_nonneg.
  destruct (Z.eq_dec c 0) as [->|Hn]; [simpl; lia|].
  apply Z.log2_spec. lia.
Qed.

Lemma muladd_val (buf : list Z) (carry : Z) :
  0 <= carry -> digits_below base buf ->
  val base (muladd base mul buf carry) = carry + mul * val base buf.
Proof.
  revert carry. induction buf as [|d buf IH]; intros carry Hc Hb.
  - cbn [muladd val]. rewrite carry_out_val by (apply log2_fuel; assumption). lia.
  - inversion Hb as [|? ? Hd Hb']; subst. cbn [muladd val].
    rewrite IH; [|apply Z.div_pos; nia | assumption].
    pose proof (Z.div_mod (carry + mul * d) base). lia.
Qed.

Lemma muladd_digits (buf : list Z) (carry : Z) :
  digits_below base (muladd base mul buf carry).
Proof.
  revert carry. induction buf as [|d buf IH]; intros carry; cbn [muladd].
  - apply carry_out_digits.
  - constructor; [apply Z.mod_pos_bound; lia | apply IH].
Qed.

Lemma muladd_nonempty (buf : list Z) (carry : Z) :
  buf <> [] -> muladd base mul buf carry <> [].
Proof. destruct buf; [congruence | discriminate]. Qed.

Lemma last_cons_nonempty (x : Z) (l : list Z) (d : Z) :
  l <> [] -> last (x :: l) d = last l d.
Proof. destruct l; [congruence | reflexivity]. Qed.

Lemma last_default (l : list Z) (d e : Z) : l <> [] -> last l d = last l e.
Proof.
  induction l as [|x l IH]; [congruence|]. intros _.
  destruct l as [|y l]; [reflexivity|]. apply IH. discriminate.
Qed.

Lemma muladd_normal (buf : list Z) (carry : Z) :
  0 <= carry -> digits_below base buf -> normal buf ->
  normal (muladd base mul buf carry).
Proof.
  revert carry. induction buf as [|d buf IH]; intros carry Hc Hb Hn.
  - cbn [muladd]. apply carry_out_normal, log2_fuel. assumption.
  - inversion Hb as [|? ? Hd Hb']; subst. cbn [muladd].
    set (c := carry + mul * d).
    assert (Hc0 : 0 <= c) by (unfold c; nia).
    destruct buf as [|e buf].
    + unfold normal in Hn. simpl in Hn.
      assert (Hc1 : 0 < c) by (unfold c; nia).
      cbn [muladd]. pose proof (log2_fuel (c / base) ltac:(apply Z.div_pos; lia)) as Hf.
      pose proof (carry_out_normal _ _ Hf) as Hno.
      destruct (carry_out base (S (Z.to_nat (Z.log2 (c / base)))) (c / base)) as [|x l] eqn:E.
      * unfold normal. simpl.
        cbn [carry_out] in E. destruct (c / base =? 0) eqn:E2; [|discriminate].
        apply Z.eqb_eq in E2. pose proof (Z.div_mod c base). lia.
      * unfold normal in *. rewrite last_cons_nonempty by discriminate. exact Hno.
    + assert (Hn' : normal (e :: buf)).
      { unfold normal in *. rewrite last_cons_nonempty in Hn by discriminate. exact Hn. }
      specialize (IH (c / base) ltac:(apply Z.div_pos; lia) Hb' Hn').
      unfold normal in *. rewrite last_cons_nonempty; [exact IH|].
      apply muladd_nonempty. discriminate.
Qed.

Lemma val_nonneg (buf : list Z) : digits_below base buf -> 0 <= val base buf.
Proof.
  induction 1 as [|d buf Hd _ IH]; simpl; nia.
Qed.

Lemma normal_val_pos (buf : list Z) :
  digits_below base buf -> normal buf -> buf <> [] -> 0 < val base buf.
Proof.
  induction buf as [|d buf IH]; intros Hb Hn Hne; [congruence|].
  inversion Hb as [|? ? Hd Hb']; subst. cbn [val].
  destruct buf as [|e buf].
  - unfold normal in Hn. simpl in *. lia.
  - assert (0 < val base (e :: buf)); [|nia].
    apply IH; [assumption | | discriminate].
    unfold normal in *. rewrite last_cons_nonempty in Hn by discriminate. exact Hn.
Qed.

(** Two normal digit buffers of the same value are equal. *)
Lemma normal_unique (b1 b2 : list Z) :
  digits_below base b1 -> digits_below base b2 -> normal b1 -> normal b2 ->
  val base b1 = val base b2 -> b1 = b2.
Proof.
  revert b2. induction b1 as [|d1 b1 IH]; intros b2 H1 H2 N1 N2 Hv.
  - destruct b2 as [|d2 b2]; [reflexivity|].
    pose proof (normal_val_pos (d2 :: b2) H2 N2 ltac:(discriminate)).
    simpl in Hv. simpl in H. lia.
  - destruct b2 as [|d2 b2].
    + pose proof (normal_val_pos (d1 :: b1) H1 N1 ltac:(discriminate)).
      simpl in Hv. simpl in H. lia.
    + inversion H1 as [|? ? Hd1 H1']; inversion H2 as [|? ? Hd2 H2']; subst.
      cbn [val] in Hv.
      assert (Hd : d1 = d2).
      { assert (E1 : (d1 + base * val base b1) mod base = d1).
        { rewrite Z.mul_comm, Z.mod_add by lia. apply Z.mod_small. lia. }
        assert (E2 : (d2 + base * val base b2) mod base = d2).
        { rewrite Z.mul_comm, Z.mod_add by lia. apply Z.mod_small. lia. }
        congruence. }
      subst d2. f_equal. apply IH; try assumption.
      * unfold normal in *. destruct b1; [simpl; lia|].
        rewrite last_cons_nonempty in N1 by discriminate. exact N1.
      * unfold normal in *. destruct b2; [simpl; lia|].
        rewrite last_cons_nonempty in N2 by discriminate. exact N2.
      * nia.
Qed.

(** Horner evaluation of a most-significant-first digit string. *)
Definition horner (r : Z) (l : list Z) (acc : Z) : Z :=
  fold_left (fun a d => a * r + d) l acc.

Lemma fold_muladd (l : list Z) (buf : list Z) :
  Forall (fun d => 0 <= d) l -> digits_below base buf -> normal buf ->
  let out := fold_left (fun b d => muladd base mul b d) l buf in
  val base out = horner mul l (val base buf) /\
  digits_below base out /\ normal out.
Proof.
  intros Hl. revert buf. induction Hl as [|d l Hd _ IH]; intros buf Hb Hn; simpl.
  - auto.
  - destruct (IH (muladd base mul buf d)) as (Hv & Hd' & Hn').
    + apply muladd_digits.
    + apply muladd_normal; assumption.
    + split; [|split; assumption].
      simpl in Hv. rewrite Hv, muladd_val by assumption.
      unfold horner. f_equal. lia.
Qed.

Lemma val_rev_horner (l : list Z) : val base (rev l) = horner base l 0.
Proof.
  induction l as [|d l IH] using rev_ind; [reflexivity|].
  rewrite rev_app_distr. simpl. unfold horner in *.
  rewrite fold_left_app. simpl. rewrite IH. lia.
Qed.

End RadixFacts.

End BaseXFacts.

(* ================================================================= *)
(** * bs58: decoding inverts encoding *)

Section Bs58.
Import BaseX BaseXFacts.

Lemma in_range_58 (d : Z) : 0 <= d < 58 -> In d (map Z.of_nat (seq 0 58)).
Proof.
  intros Hd. rewrite <- (Z2Nat.id d) by lia.
  apply in_map, in_seq. lia.
Qed.

Lemma BASE_MAP_charAt (d : Z) : 0 <= d < 58 -> BASE_MAP (charAt d) = d.
Proof.
  intros Hd. apply in_range_58 in Hd.
  assert (H : forallb (fun d => BASE_MAP (charAt d) =? d)
                (map Z.of_nat (seq 0 58)) = true) by (vm_compute; reflexivity).
  rewrite forallb_forall in H. apply Z.eqb_eq, H, Hd.
Qed.

Lemma charAt_not_leader (d : Z) : 0 < d < 58 -> is_leader (charAt d) = false.
Proof.
  intros Hd.
  assert (Hin : In d (map Z.of_nat (seq 1 57))).
  { rewrite <- (Z2Nat.id d) by lia. apply in_map, in_seq. lia. }
  assert (H : forallb (fun d => negb (is_leader (charAt d)))
                (map Z.of_nat (seq 1 57)) = true) by (vm_compute; reflexivity).
  rewrite forallb_forall in H. apply negb_true_iff, H, Hin.
Qed.

Lemma charAt_in_alphabet (d : Z) : 0 <= d < 58 -> In (charAt d) ALPHABET.
Proof.
  intros Hd. unfold charAt. apply nth_In.
  change (length ALPHABET) with 58%nat. lia.
Qed.

Lemma index_of_None (c : Z) (l : list Z) (i : Z) :
  index_of c l i = None <-> ~ In c l.
Proof.
  revert i. induction l as [|x l IH]; intros i; simpl.
  - tauto.
  - destruct (x =? c) eqn:E.
    + apply Z.eqb_eq in E. split; [discriminate | tauto].
    + apply Z.eqb_neq in E. rewrite IH. tauto.
Qed.

Lemma index_of_Some (c : Z) (l : list Z) (i j : Z) :
  index_of c l i = Some j -> i <= j < i + Z.of_nat (length l).
Proof.
  revert i. induction l as [|x l IH]; intros i; simpl; [discriminate|].
  destruct (x =? c).
  - intros [= <-]. lia.
  - intros H. apply IH in H. lia.
Qed.

Lemma BASE_MAP_255 (c : Z) : BASE_MAP c = 255 <-> ~ In c ALPHABET.
Proof.
  unfold BASE_MAP. destruct (index_of c ALPHABET 0) as [j|] eqn:E.
  - pose proof (index_of_Some _ _ _ _ E) as Hj.
    change (length ALPHABET) with 58%nat in Hj.
    split; [lia|]. intros Hn.
    apply (proj2 (index_of_None c ALPHABET 0)) in Hn. congruence.
  - apply index_of_None in E. tauto.
Qed.

(** The characters of a digit string decode back to the digits. *)
Lemma decode_chars_digits (ds : list Z) (buf : list Z) :
  digits_below 58 ds ->
  decode_chars (map charAt ds) buf =
  Some (fold_left (fun b d => muladd 256 BASE b d) ds buf).
Proof.
  intros Hd. revert buf. induction Hd as [|d ds Hd _ IH]; intros buf; simpl.
  - reflexivity.
  - rewrite BASE_MAP_charAt by assumption.
    replace (d =? 255) with false by (symmetry; apply Z.eqb_neq; lia).
    apply IH.
Qed.

(** A character outside the alphabet, anywhere, makes the decoder fail. *)
Lemma decode_chars_invalid (s : jsstring) (buf : list Z) :
  (exists c, In c s /\ ~ In c ALPHABET) -> decode_chars s buf = None.
Proof.
  revert buf. induction s as [|x s IH]; intros buf [c [Hin Hc]]; simpl in *.
  - tauto.
  - destruct (BASE_MAP x =? 255) eqn:E; [reflexivity|].
    apply IH. exists c. split; [|assumption].
    destruct Hin as [->|Hin]; [|assumption].
    apply BASE_MAP_255 in Hc. apply Z.eqb_neq in E. contradiction.
Qed.

Lemma decode_invalid (s : jsstring) :
  (exists c, In c s /\ ~ In c ALPHABET) -> decode s = Throw NonBase58Character.
Proof.
  intros [c [Hin Hc]]. unfold decode, decodeUnsafe.
  rewrite decode_chars_invalid; [reflexivity|].
  exists c. split; [|assumption].
  apply In_dropWhile; [assumption|].
  unfold is_leader. apply Z.eqb_neq. intros ->. apply Hc.
  vm_compute. left. reflexivity.
Qed.

Lemma bytes_digits (l : bytes) : digits_below 256 (map b2z l).
Proof.
  induction l; simpl; constructor; [apply b2z_range | assumption].
Qed.

Lemma digits_nonneg (base : Z) (l : list Z) :
  digits_below base l -> Forall (fun d => 0 <= d) l.
Proof. induction 1; constructor; [lia | assumption]. Qed.

Lemma fold_left_map {A B C} (f : A -> B -> A) (g : C -> B) (l : list C) (a : A) :
  fold_left (fun x c => f x (g c)) l a = fold_left f (map g l) a.
Proof. revert a. induction l; simpl; auto. Qed.

Lemma normal_rev_head (l : list Z) :
  normal l -> hd_error (map is_zero (rev l)) <> Some true.
Proof.
  unfold normal. destruct l as [|x l] using rev_ind; [simpl; discriminate|].
  rewrite last_last, rev_app_distr. simpl. unfold is_zero.
  intros Hx [= E]. apply Z.eqb_eq in E. contradiction.
Qed.

Lemma head_normal_rev (l : list Z) :
  hd_error (map is_zero l) <> Some true -> normal (rev l).
Proof.
  unfold normal. destruct l as [|x l]; simpl; [lia|].
  rewrite last_last. unfold is_zero. intros H E. apply H.
  f_equal. apply Z.eqb_eq. assumption.
Qed.

Lemma is_zero_b2z (l : bytes) : map is_zero (map b2z l) = map is_zero_byte l.
Proof.
  induction l as [|b l IH]; simpl; [reflexivity|]. f_equal; [|assumption].
  unfold is_zero, is_zero_byte.
  destruct (Byte.eqb b x00) eqn:E.
  - apply Byte.byte_dec_bl in E. subst. reflexivity.
  - apply Z.eqb_neq. intros H. apply Byte.eqb_false in E. apply E.
    apply b2z_inj. rewrite H. reflexivity.
Qed.

(** The digits [encode] produces for a byte string without leading zero. *)
Definition b58_digits (rest : bytes) : list Z :=
  fold_left (fun buf b => muladd BASE 256 buf (b2z b)) rest [].

Lemma b58_digits_spec (rest : bytes) :
  val 58 (b58_digits rest) = horner 256 (map b2z rest) 0 /\
  digits_below 58 (b58_digits rest) /\ normal (b58_digits rest).
Proof.
  unfold b58_digits.
  rewrite (fold_left_map (fun buf d => muladd BASE 256 buf d) b2z).
  apply (fold_muladd 58 256 ltac:(lia) ltac:(lia) (map b2z rest) []).
  - apply digits_nonneg with (base := 256), bytes_digits.
  - constructor.
  - unfold normal. simpl. lia.
Qed.

Theorem decode_encode (source : bytes) : decode (encode source) = Ok source.
Proof.
  unfold decode, decodeUnsafe, encode.
  set (zs := takeWhile is_zero_byte source).
  set (rest := dropWhile is_zero_byte source).
  fold (b58_digits rest).
  destruct (b58_digits_spec rest) as (Hv & Hd & Hn).
  rewrite (dropWhile_id is_zero (rev (b58_digits rest)))
    by (apply normal_rev_head; assumption).
  assert (Hrd : digits_below 58 (rev (b58_digits rest)))
    by (apply Forall_rev; assumption).
  (* the leading characters *)
  assert (Hhead : hd_error (map is_leader (map charAt (rev (b58_digits rest))))
                  <> Some true).
  { pose proof (normal_rev_head _ Hn) as Hz.
    destruct (rev (b58_digits rest)) as [|d ds]; simpl in *; [discriminate|].
    inversion Hrd as [|? ? Hd0 _]; subst.
    assert (d <> 0).
    { intros ->. apply Hz. reflexivity. }
    rewrite charAt_not_leader by lia. discriminate. }
  destruct (takeWhile_repeat_app is_leader LEADER (length zs)
              (map charAt (rev (b58_digits rest))) eq_refl Hhead) as [Ht Hdr].
  rewrite Ht, Hdr, repeat_length.
  rewrite decode_chars_digits by assumption.
  (* the radix-256 buffer is the reversed input *)
  destruct (fold_muladd 256 58 ltac:(lia) ltac:(lia)
              (rev (b58_digits rest)) [] (digits_nonneg _ _ Hrd)
              ltac:(constructor) ltac:(unfold normal; simpl; lia))
    as (Hv' & Hd' & Hn').
  simpl in Hv', Hd', Hn'.
  assert (Heq : fold_left (fun b d => muladd 256 BASE b d) (rev (b58_digits rest)) []
                = rev (map b2z rest)).
  { apply (normal_unique 256 ltac:(lia)); try assumption.
    - apply Forall_rev, bytes_digits.
    - apply head_normal_rev. rewrite is_zero_b2z. apply dropWhile_head.
    - change BASE with 58. rewrite Hv'.
      rewrite <- (val_rev_horner 58), rev_involutive, Hv.
      rewrite (val_rev_horner 256). reflexivity. }
  rewrite Heq, rev_involutive.
  rewrite (dropWhile_id is_zero (map b2z rest))
    by (rewrite is_zero_b2z; apply dropWhile_head).
  rewrite map_z2b_b2z.
  unfold zs, rest.
  rewrite <- (zero_bytes_repeat _ (takeWhile_all is_zero_byte source)).
  rewrite takeWhile_dropWhile. reflexivity.
Qed.

(** Every character of an encoding is in the alphabet. *)
Lemma encode_alphabet (source : bytes) (c : Z) :
  In c (encode source) -> In c ALPHABET.
Proof.
  unfold encode. fold (b58_digits (dropWhile is_zero_byte source)).
  intros Hin. apply in_app_or in Hin. destruct Hin as [Hin|Hin].
  - apply repeat_spec in Hin. subst. vm_compute. left. reflexivity.
  - apply in_map_iff in Hin. destruct Hin as (d & <- & Hd).
    apply charAt_in_alphabet.
    destruct (b58_digits_spec (dropWhile is_zero_byte source)) as (_ & Hb & _).
    assert (Hdd : In d (b58_digits (dropWhile is_zero_byte source)))
      by (apply in_rev; eapply dropWhile_incl; eassumption).
    unfold digits_below in Hb. rewrite Forall_forall in Hb. apply Hb, Hdd.
Qed.

End Bs58.
(* ================================================================= *)
(** * The meta-address codec *)

Lemma startsWith_app (p s : jsstring) : startsWith (p ++ s) p = true.
Proof.
  induction p as [|c p IH]; simpl; [reflexivity|].
  rewrite Z.eqb_refl, IH. reflexivity.
Qed.

Lemma firstn_exact {A} (l1 l2 : list A) : firstn (length l1) (l1 ++ l2) = l1.
Proof.
  rewrite firstn_app, Nat.sub_diag, firstn_all. simpl. apply app_nil_r.
Qed.

Lemma skipn_exact {A} (l1 l2 : list A) : skipn (length l1) (l1 ++ l2) = l2.
Proof.
  rewrite skipn_app, Nat.sub_diag, skipn_all. reflexivity.
Qed.

Lemma decode_prefixed (c : bytes) :
  length c = 64%nat ->
  decodeMetaAddress (PREFIX ++ BaseX.encode c) =
  Ok {| viewingPubkey := firstn 32 c; spendingPubkey := skipn 32 c |}.
Proof.
  intros Hc. unfold decodeMetaAddress.
  rewrite startsWith_app. cbn [negb].
  unfold slice_from at 1. rewrite skipn_exact.
  rewrite decode_encode. cbn [try_catch bind]. rewrite Hc.
  reflexivity.
Qed.

(** C7.  For every meta-address whose two public keys are 32 bytes long,
    [decodeMetaAddress (encodeMetaAddress M)] returns [M], field for field;
    and [encodeMetaAddress] depends on nothing but the bytes of the two
    fields, so equal inputs give equal strings. *)
Theorem meta_address_roundtrip (M : StealthMetaAddress) :
  length (viewingPubkey M) = 32%nat ->
  length (spendingPubkey M) = 32%nat ->
  (exists s, encodeMetaAddress M = Ok s /\
             exists M', decodeMetaAddress s = Ok M' /\
                        viewingPubkey M' = viewingPubkey M /\
                        spendingPubkey M' = spendingPubkey M) /\
  (forall N, viewingPubkey N = viewingPubkey M ->
             spendingPubkey N = spendingPubkey M ->
             encodeMetaAddress N = encodeMetaAddress M).
Proof.
  intros Hv Hs. split.
  - exists (PREFIX ++ BaseX.encode (viewingPubkey M ++ spendingPubkey M)). split.
    + unfold encodeMetaAddress. rewrite Hv, Hs. reflexivity.
    + eexists. split.
      * apply decode_prefixed. rewrite length_app, Hv, Hs. reflexivity.
      * cbn [viewingPubkey spendingPubkey]. rewrite <- Hv.
        split; [apply firstn_exact | apply skipn_exact].
  - intros N Ev Es. unfold encodeMetaAddress. rewrite Ev, Es. reflexivity.
Qed.

Lemma meta_address_roundtrip_witness :
  exists s, encodeMetaAddress
              {| viewingPubkey := repeat x07 32;
                 spendingPubkey := repeat xfe 32 |} = Ok s /\
            exists M', decodeMetaAddress s = Ok M' /\
                       viewingPubkey M' = repeat x07 32 /\
                       spendingPubkey M' = repeat xfe 32.
Proof.
  exact (proj1 (meta_address_roundtrip
                  {| viewingPubkey := repeat x07 32;
                     spendingPubkey := repeat xfe 32 |}
                  eq_refl eq_refl)).
Defined.

(** C8.  [decodeMetaAddress] raises an [InvalidEncoding] error, and returns
    no meta-address, on every string that lacks the prefix [st:sol:], or
    whose body holds a character outside the Base58 alphabet, or whose body
    decodes to a byte string of a length other than 64. *)
Theorem decodeMetaAddress_rejects (encoded : jsstring) :
  startsWith encoded PREFIX = false \/
  (exists c, In c (slice_from 7 encoded) /\ ~ In c BaseX.ALPHABET) \/
  (exists combined, BaseX.decode (slice_from 7 encoded) = Ok combined /\
                    length combined <> 64%nat) ->
  exists e, decodeMetaAddress encoded = Throw e /\ InvalidEncoding e.
Proof.
  intros H. unfold decodeMetaAddress.
  change (length PREFIX) with 7%nat.
  destruct (startsWith encoded PREFIX) eqn:Hp; cbn [negb].
  - destruct H as [H | [H | H]]; [discriminate | |].
    + rewrite (decode_invalid _ H). cbn [try_catch bind].
      exists InvalidBase58Encoding. unfold InvalidEncoding. tauto.
    + destruct H as (combined & Hd & Hl).
      rewrite Hd. cbn [try_catch bind].
      change (PUBKEY_LENGTH * 2)%nat with 64%nat.
      apply Nat.eqb_neq in Hl. rewrite Hl. cbn [negb].
      eexists. split; [reflexivity|]. unfold InvalidEncoding. eauto.
  - exists InvalidStealthAddressFormat. unfold InvalidEncoding. tauto.
Qed.

(** The malformed strings of the test-suite: [invalid], [st:sol:],
    [st:eth:ABC] and [st:sol:invalid!!!]. *)
Lemma decodeMetaAddress_rejects_witness :
  (exists e, decodeMetaAddress (lit "invalid") = Throw e /\ InvalidEncoding e) /\
  (exists e, decodeMetaAddress (lit "st:sol:") = Throw e /\ InvalidEncoding e) /\
  (exists e, decodeMetaAddress (lit "st:eth:ABC") = Throw e /\ InvalidEncoding e) /\
  (exists e, decodeMetaAddress (lit "st:sol:invalid!!!") = Throw e /\ InvalidEncoding e).
Proof.
  repeat split.
  - apply decodeMetaAddress_rejects. left. reflexivity.
  - apply decodeMetaAddress_rejects. right. right.
    exists []. split; [reflexivity | discriminate].
  - apply decodeMetaAddress_rejects. left. reflexivity.
  - apply decodeMetaAddress_rejects. right. left.
    exists 33. split; [vm_compute; tauto|].
    vm_compute. intros H.
    repeat (destruct H as [H|H]; [discriminate H|]). exact H.
Defined.
(* ================================================================= *)
(** * Facts about the JSON reader and writer *)

Section JsonFacts.
Import BaseX BaseXFacts.

(** A character that a string literal holds as it is. *)
Definition plain (c : Z) : Prop :=
  (c =? 34) = false /\ (c =? 92) = false /\ (c <? 32) = false.

Definition plainb (c : Z) : bool :=
  negb (c =? 34) && negb (c =? 92) && negb (c <? 32).

Lemma plainb_plain (c : Z) : plainb c = true -> plain c.
Proof.
  unfold plainb, plain. intros H.
  apply andb_prop in H. destruct H as [H H3].
  apply andb_prop in H. destruct H as [H1 H2].
  repeat split; apply negb_true_iff; assumption.
Qed.

Lemma alphabet_plain (c : Z) : In c ALPHABET -> plain c.
Proof.
  intros Hin. apply plainb_plain.
  assert (H : forallb plainb ALPHABET = true) by (vm_compute; reflexivity).
  rewrite forallb_forall in H. apply H, Hin.
Qed.

Lemma encode_plain (source : bytes) : Forall plain (encode source).
Proof.
  apply Forall_forall. intros c Hc.
  apply alphabet_plain, (encode_alphabet source), Hc.
Qed.

Lemma escape_char_plain (c : Z) : plain c -> escape_char c = [c].
Proof.
  intros (H1 & H2 & H3). unfold escape_char. rewrite H1, H2, H3.
  apply Z.ltb_ge in H3.
  repeat match goal with
         | |- context [c =? ?k] =>
             replace (c =? k) with false by (symmetry; apply Z.eqb_neq; lia)
         end.
  reflexivity.
Qed.

Lemma escape_plain (s : jsstring) : Forall plain s -> flat_map escape_char s = s.
Proof.
  induction 1 as [|c s Hc _ IH]; simpl; [reflexivity|].
  rewrite escape_char_plain, IH by assumption. reflexivity.
Qed.

Lemma parse_string_body_plain (s rest : jsstring) :
  Forall plain s -> parse_string_body (s ++ 34 :: rest) = Ok (s, rest).
Proof.
  induction 1 as [|c s (H1 & H2 & H3) _ IH]; simpl.
  - reflexivity.
  - rewrite H1, H2, H3, IH. reflexivity.
Qed.

(** ** Decimal numerals *)

Definition digit_char (c : Z) : Prop := 48 <= c <= 57.

Lemma scan_digits_app (ds rest : jsstring) (acc : Z) (k : nat) :
  Forall digit_char ds ->
  existsb is_digit (firstn 1 rest) = false ->
  scan_digits (ds ++ rest) acc k =
  (horner 10 (map (fun c => c - 48) ds) acc, (k + length ds)%nat, rest).
Proof.
  intros Hd Hr. revert acc k.
  induction Hd as [|c ds Hc _ IH]; intros acc k.
  - cbn [app map length]. unfold horner. cbn [fold_left].
    rewrite Nat.add_0_r. destruct rest as [|x rest]; [reflexivity|].
    cbn [firstn existsb] in Hr. rewrite orb_false_r in Hr.
    cbn [scan_digits]. rewrite Hr. reflexivity.
  - cbn [app scan_digits map length]. unfold is_digit at 1.
    replace ((48 <=? c) && (c <=? 57)) with true
      by (symmetry; apply andb_true_intro; split; apply Z.leb_le; apply Hc).
    rewrite IH. unfold horner. cbn [fold_left].
    rewrite Nat.add_succ_r. cbn [Nat.add].
    replace (10 * acc + (c - 48)) with (acc * 10 + (c - 48)) by lia.
    reflexivity.
Qed.

(** The numeral of a non-negative integer: one or more digits, no leading
    zero unless the number is zero, and their value is the number. *)
Lemma print_nat_spec (n : Z) :
  0 <= n ->
  exists d ds, print_nat n = d :: ds /\ digit_char d /\ Forall digit_char ds /\
               (d = 48 -> n = 0 /\ ds = []) /\
               horner 10 (map (fun c => c - 48) (d :: ds)) 0 = n.
Proof.
  intros Hn. unfold print_nat. destruct (n =? 0) eqn:E.
  - apply Z.eqb_eq in E. subst. exists 48, []. unfold digit_char.
    repeat split; try lia; constructor.
  - apply Z.eqb_neq in E.
    pose proof (carry_out_val 10 ltac:(lia) _ _ (log2_fuel n ltac:(lia))) as Hv.
    pose proof (carry_out_digits 10 ltac:(lia) (S (Z.to_nat (Z.log2 n))) n) as Hd.
    pose proof (carry_out_normal 10 ltac:(lia) _ _ (log2_fuel n ltac:(lia))) as Hno.
    remember (carry_out 10 (S (Z.to_nat (Z.log2 n))) n) as L eqn:EL. clear EL.
    assert (Hne : L <> []).
    { intros HL. rewrite HL in Hv. simpl in Hv. congruence. }
    assert (Hrd : digits_below 10 (rev L)) by (apply Forall_rev; assumption).
    pose proof (normal_rev_head _ Hno) as Hh.
    assert (Hval : horner 10 (rev L) 0 = n).
    { rewrite <- (val_rev_horner 10), rev_involutive. exact Hv. }
    destruct (rev L) as [|d ds] eqn:ER.
    { exfalso. apply Hne. rewrite <- (rev_involutive L), ER. reflexivity. }
    inversion Hrd as [|? ? Hd0 Hds]; subst.
    exists (48 + d), (map (fun d => 48 + d) ds). cbn [map].
    split; [reflexivity|]. split; [unfold digit_char; lia|]. split.
    + clear -Hds. induction Hds; cbn [map]; constructor;
        [unfold digit_char; lia | assumption].
    + split.
      * intros H48. exfalso. apply Hh. cbn [map hd_error]. unfold is_zero.
        replace d with 0 by lia. reflexivity.
      * rewrite map_map.
        replace (48 + d - 48) with d by lia.
        rewrite (map_ext (fun x => 48 + x - 48) (fun x => x)) by (intros; lia).
        rewrite map_id. exact Hval.
Qed.

(** What may follow a number for it to end there. *)
Definition ends_number (rest : jsstring) : Prop :=
  existsb is_digit (firstn 1 rest) = false /\
  starts 46 rest = false /\ starts 101 rest = false /\ starts 69 rest = false.

Lemma parse_number_print (n : Z) (rest : jsstring) :
  0 <= n <= MAX_SAFE -> ends_number rest ->
  parse_number (print_nat n ++ rest) = Ok (JNum n, rest).
Proof.
  intros Hn (Hr1 & Hr2 & Hr3 & Hr4).
  destruct (print_nat_spec n ltac:(lia)) as (d & ds & Hp & Hd & Hds & H48 & Hv).
  rewrite Hp. unfold parse_number.
  assert (Hm : starts 45 ((d :: ds) ++ rest) = false).
  { simpl. apply Z.eqb_neq. unfold digit_char in Hd. lia. }
  rewrite Hm.
  assert (Hint : (if starts 48 ((d :: ds) ++ rest) then Ok (0, tl ((d :: ds) ++ rest))
                  else if existsb is_digit (firstn 1 ((d :: ds) ++ rest))
                       then let '(m, _, s2) := scan_digits ((d :: ds) ++ rest) 0 0 in Ok (m, s2)
                       else Throw JsonSyntaxError) = Ok (n, rest)).
  { simpl starts. destruct (d =? 48) eqn:E.
    - apply Z.eqb_eq in E. destruct (H48 E) as [-> ->]. reflexivity.
    - simpl firstn. simpl existsb. unfold is_digit at 1.
      replace ((48 <=? d) && (d <=? 57)) with true
        by (symmetry; apply andb_true_intro; split; apply Z.leb_le; apply Hd).
      simpl orb. cbv iota.
      rewrite scan_digits_app; [|constructor; assumption | assumption].
      rewrite Hv. reflexivity. }
  rewrite Hint. cbn [bind fst snd].
  unfold parse_fraction. rewrite Hr2. cbn [bind].
  unfold parse_exponent. rewrite Hr3, Hr4. cbn [orb bind].
  replace (exact_integer n (0 - Z.of_nat 0)) with (Some n); [reflexivity|].
  unfold exact_integer. destruct (n =? 0) eqn:E.
  - apply Z.eqb_eq in E. congruence.
  - simpl. rewrite Z.mul_1_r.
    replace (Z.abs n <=? MAX_SAFE) with true; [reflexivity|].
    symmetry. apply Z.leb_le. lia.
Qed.

End JsonFacts.

(* ================================================================= *)
(** * The announcement codec *)

Section AnnouncementFacts.
Import BaseX BaseXFacts.
Variable PublicKey_of_other : json -> result PublicKey.

(** The wire form of an announcement with an integer view tag. *)
Definition announcement_text (e58 : jsstring) (n : Z) (s58 : jsstring) : jsstring :=
  json_text "{'v':1,'t':'STEALTH','e':'" ++ e58 ++
  json_text "','vt':" ++ print_int n ++
  json_text ",'s':'" ++ s58 ++ json_text "'}".

Definition announcement_object (e58 : jsstring) (vt : json) (s58 : jsstring) : json :=
  JObj [ (lit "v", JNum 1); (lit "t", JStr (lit "STEALTH"));
         (lit "e", JStr e58); (lit "vt", vt); (lit "s", JStr s58) ].

Lemma serialize_text (A : StealthAnnouncement) (n : Z) :
  viewTag A = Some (JNum n) ->
  serializeAnnouncement A =
  announcement_text (encode (ephemeralPubkey A)) n (toBase58 (stealthAddress A)).
Proof.
  intros Hvt. unfold serializeAnnouncement, announcement_text. rewrite Hvt.
  cbn [object_of stringify map join fst snd].
  unfold quote, toBase58.
  rewrite !(escape_plain _ (encode_plain _)).
  change (flat_map escape_char (lit "v")) with (lit "v").
  change (flat_map escape_char (lit "t")) with (lit "t").
  change (flat_map escape_char (lit "e")) with (lit "e").
  change (flat_map escape_char (lit "vt")) with (lit "vt").
  change (flat_map escape_char (lit "s")) with (lit "s").
  change (flat_map escape_char ANNOUNCEMENT_TAG) with (lit "STEALTH").
  change (print_int ANNOUNCEMENT_VERSION) with [49].
  repeat (rewrite <- ?app_assoc, <- ?app_comm_cons).
  reflexivity.
Qed.

Lemma parse_value_string (f : nat) (s rest : jsstring) :
  Forall plain s -> parse_value (S f) (34 :: s ++ 34 :: rest) = Ok (JStr s, rest).
Proof.
  intros Hs. cbn.
  rewrite parse_string_body_plain by assumption. reflexivity.
Qed.

Lemma parse_value_number (f : nat) (n : Z) (rest : jsstring) :
  0 <= n <= MAX_SAFE -> ends_number rest ->
  parse_value (S f) (print_nat n ++ rest) = Ok (JNum n, rest).
Proof.
  intros Hn Hr.
  destruct (print_nat_spec n ltac:(lia)) as (d & ds & Hp & Hd & _).
  rewrite <- (parse_number_print n rest Hn Hr). rewrite Hp.
  unfold digit_char in Hd.
  cbn [parse_value app skip_ws]. unfold is_ws.
  repeat match goal with
         | |- context [d =? ?k] =>
             replace (d =? k) with false by (symmetry; apply Z.eqb_neq; lia)
         end.
  cbn [orb starts firstn existsb]. unfold is_digit at 1.
  repeat match goal with
         | |- context [d =? ?k] =>
             replace (d =? k) with false by (symmetry; apply Z.eqb_neq; lia)
         end.
  replace ((48 <=? d) && (d <=? 57)) with true
    by (symmetry; apply andb_true_intro; split; apply Z.leb_le; lia).
  reflexivity.
Qed.

Lemma parse_value_object (f : nat) (t : jsstring) :
  parse_value (S f) (123 :: 34 :: t) = parse_members f (34 :: t) [].
Proof. reflexivity. Qed.

Lemma parse_members_comma (f : nat) (key t : jsstring) (v : json)
      (rest : jsstring) (acc : list (jsstring * json)) :
  Forall plain key ->
  parse_value f t = Ok (v, 44 :: 34 :: rest) ->
  parse_members (S f) (34 :: key ++ 34 :: 58 :: t) acc =
  parse_members f (34 :: rest) (acc ++ [(key, v)]).
Proof.
  intros Hk Hv. cbn [parse_members starts tl].
  change (34 =? 34) with true. cbv iota.
  rewrite parse_string_body_plain by assumption.
  cbn [bind fst snd skip_ws]. change (is_ws 58) with false. cbv iota.
  cbn [starts tl]. change (58 =? 58) with true. cbv iota.
  rewrite Hv. cbn [bind fst snd skip_ws].
  change (is_ws 44) with false. cbv iota. cbn [starts tl].
  change (44 =? 44) with true. cbv iota.
  cbn [skip_ws]. change (is_ws 34) with false. reflexivity.
Qed.

Lemma parse_members_close (f : nat) (key t : jsstring) (v : json)
      (rest : jsstring) (acc : list (jsstring * json)) :
  Forall plain key ->
  parse_value f t = Ok (v, 125 :: rest) ->
  parse_members (S f) (34 :: key ++ 34 :: 58 :: t) acc =
  Ok (JObj (acc ++ [(key, v)]), rest).
Proof.
  intros Hk Hv. cbn [parse_members starts tl].
  change (34 =? 34) with true. cbv iota.
  rewrite parse_string_body_plain by assumption.
  cbn [bind fst snd skip_ws]. change (is_ws 58) with false. cbv iota.
  cbn [starts tl]. change (58 =? 58) with true. cbv iota.
  rewrite Hv. cbn [bind fst snd skip_ws].
  change (is_ws 125) with false. cbv iota. cbn [starts tl].
  change (125 =? 44) with false. change (125 =? 125) with true. reflexivity.
Qed.

Lemma lit_plain (s : string) : forallb plainb (lit s) = true -> Forall plain (lit s).
Proof.
  intros H. apply Forall_forall. intros c Hc. apply plainb_plain.
  rewrite forallb_forall in H. apply H, Hc.
Qed.

Lemma parse_announcement_value (f : nat) (e58 s58 : jsstring) (n : Z) :
  Forall plain e58 -> Forall plain s58 -> 0 <= n <= MAX_SAFE ->
  parse_value (8 + f) (announcement_text e58 n s58) =
  Ok (announcement_object e58 (JNum n) s58, []).
Proof.
  intros He Hs Hn. unfold announcement_text.
  replace (print_int n) with (print_nat n)
    by (unfold print_int; replace (n <? 0) with false
          by (symmetry; apply Z.ltb_ge; lia); reflexivity).
  eapply eq_trans; [apply parse_value_object|].
  eapply eq_trans.
  { apply (parse_members_comma _ (lit "v") _ (JNum 1)); [apply lit_plain; reflexivity|].
    apply (parse_value_number _ 1); [unfold MAX_SAFE; simpl; lia|].
    repeat split. }
  eapply eq_trans.
  { apply (parse_members_comma _ (lit "t") _ (JStr (lit "STEALTH")));
      [apply lit_plain; reflexivity|].
    apply (parse_value_string _ (lit "STEALTH")). apply lit_plain. reflexivity. }
  eapply eq_trans.
  { apply (parse_members_comma _ (lit "e") _ (JStr e58));
      [apply lit_plain; reflexivity|].
    apply parse_value_string. assumption. }
  eapply eq_trans.
  { apply (parse_members_comma _ (lit "vt") _ (JNum n));
      [apply lit_plain; reflexivity|].
    apply parse_value_number; [assumption | repeat split]. }
  eapply eq_trans.
  { apply (parse_members_close _ (lit "s") _ (JStr s58));
      [apply lit_plain; reflexivity|].
    apply parse_value_string. assumption. }
  reflexivity.
Qed.

Lemma parse_announcement_text (e58 s58 : jsstring) (n : Z) :
  Forall plain e58 -> Forall plain s58 -> 0 <= n <= MAX_SAFE ->
  JSON.parse (announcement_text e58 n s58) =
  Ok (announcement_object e58 (JNum n) s58).
Proof.
  intros He Hs Hn. unfold JSON.parse.
  assert (Hfuel : exists f, S (length (announcement_text e58 n s58)) = (8 + f)%nat).
  { exists (length (announcement_text e58 n s58) - 7)%nat.
    unfold announcement_text. rewrite length_app.
    change (length (json_text "{'v':1,'t':'STEALTH','e':'")) with 26%nat. lia. }
  destruct Hfuel as [f ->].
  rewrite parse_announcement_value by assumption. reflexivity.
Qed.

Lemma PublicKey_string_roundtrip (k : PublicKey) :
  length (pk_bytes k) = 32%nat -> PublicKey_of_string (toBase58 k) = Ok k.
Proof.
  intros Hk. unfold PublicKey_of_string, toBase58, toBytes.
  rewrite decode_encode. cbn [bind]. rewrite Hk.
  destruct k. reflexivity.
Qed.

Lemma deserialize_announcement_text (eph : bytes) (k : PublicKey) (n : Z) :
  0 <= n <= MAX_SAFE -> length (pk_bytes k) = 32%nat ->
  deserializeAnnouncement PublicKey_of_other
    (announcement_text (encode eph) n (toBase58 k)) =
  Ok (Some {| ephemeralPubkey := eph; viewTag := Some (JNum n);
              stealthAddress := k; txSignature := None; slot := None |}).
Proof.
  intros Hn Hk. unfold deserializeAnnouncement.
  rewrite parse_announcement_text;
    [| apply encode_plain | apply encode_plain | assumption].
  unfold announcement_object.
  cbn [bind get_prop].
  change (lookup (lit "t") _) with (Some (JStr (lit "STEALTH"))).
  change (lookup (lit "e") _) with (Some (JStr (encode eph))).
  change (lookup (lit "vt") _) with (Some (JNum n)).
  change (lookup (lit "s") _) with (Some (JStr (toBase58 k))).
  change (differs_from_string (Some (JStr (lit "STEALTH"))) ANNOUNCEMENT_TAG)
    with false.
  cbv iota. cbn [bs58_decode_value PublicKey_of_value].
  rewrite decode_encode, (PublicKey_string_roundtrip k Hk). reflexivity.
Qed.

(** C9.  For every announcement [A] with a view tag in 0..255 and a
    32-byte stealth address, [deserializeAnnouncement (serializeAnnouncement
    A)] returns a non-null announcement with the same [ephemeralPubkey],
    [viewTag] and [stealthAddress], and serializing that result again gives
    the same string. *)
Theorem announcement_roundtrip (A : StealthAnnouncement) (n : Z) :
  viewTag A = Some (JNum n) -> 0 <= n <= 255 ->
  length (pk_bytes (stealthAddress A)) = 32%nat ->
  exists A',
    deserializeAnnouncement PublicKey_of_other (serializeAnnouncement A)
      = Ok (Some A') /\
    ephemeralPubkey A' = ephemeralPubkey A /\
    viewTag A' = viewTag A /\
    stealthAddress A' = stealthAddress A /\
    serializeAnnouncement A' = serializeAnnouncement A.
Proof.
  intros Hvt Hn Hk.
  rewrite (serialize_text A n Hvt).
  rewrite deserialize_announcement_text;
    [| unfold MAX_SAFE; simpl; lia | assumption].
  eexists. split; [reflexivity|]. cbn [ephemeralPubkey viewTag stealthAddress].
  repeat split; [symmetry; assumption|].
  rewrite (serialize_text _ n) by reflexivity.
  reflexivity.
Qed.

(** The order of evaluation inside [deserializeAnnouncement] once the text
    has been parsed to an object tagged [STEALTH]. *)
Lemma deserialize_object (data : jsstring) (fields : list (jsstring * json)) :
  JSON.parse data = Ok (JObj fields) ->
  lookup (lit "t") fields = Some (JStr (lit "STEALTH")) ->
  deserializeAnnouncement PublicKey_of_other data =
  try_catch
    (eph <- bs58_decode_value (lookup (lit "e") fields) ;;
     addr <- PublicKey_of_value PublicKey_of_other (lookup (lit "s") fields) ;;
     Ok (Some {| ephemeralPubkey := eph;
                 viewTag := lookup (lit "vt") fields;
                 stealthAddress := addr;
                 txSignature := None; slot := None |}))
    (fun _ => Ok None).
Proof.
  intros Hp Ht. unfold deserializeAnnouncement. rewrite Hp.
  cbn [bind get_prop]. rewrite Ht. reflexivity.
Qed.

(** C4, as amended.  [deserializeAnnouncement] does not look at [vt]: when
    the text parses to an object whose [t] is [STEALTH], whose [e] is a
    Base58 string and whose [s] is a Base58 string of 32 bytes, the result
    is an announcement whose [viewTag] is the [vt] property as it stands,
    whether or not it is an integer in 0..255. *)
Theorem deserialize_keeps_view_tag (data : jsstring)
    (fields : list (jsstring * json)) (e58 s58 : jsstring) (eb sb : bytes) :
  JSON.parse data = Ok (JObj fields) ->
  lookup (lit "t") fields = Some (JStr (lit "STEALTH")) ->
  lookup (lit "e") fields = Some (JStr e58) -> BaseX.decode e58 = Ok eb ->
  lookup (lit "s") fields = Some (JStr s58) -> BaseX.decode s58 = Ok sb ->
  length sb = 32%nat ->
  deserializeAnnouncement PublicKey_of_other data =
  Ok (Some {| ephemeralPubkey := eb;
              viewTag := lookup (lit "vt") fields;
              stealthAddress := {| pk_bytes := sb |};
              txSignature := None; slot := None |}).
Proof.
  intros Hp Ht He Heb Hs Hsb Hlen.
  rewrite (deserialize_object _ _ Hp Ht), He, Hs.
  cbn [bs58_decode_value PublicKey_of_value]. rewrite Heb. cbn [bind].
  unfold PublicKey_of_string. rewrite Hsb. cbn [bind]. rewrite Hlen.
  reflexivity.
Qed.

(** C10.  [deserializeAnnouncement] never raises: on every input text it
    returns an announcement or [null]. *)
Theorem deserialize_never_throws (data : jsstring) :
  exists r, deserializeAnnouncement PublicKey_of_other data = Ok r.
Proof.
  unfold deserializeAnnouncement.
  match goal with
  | |- exists r, try_catch ?body _ = _ => destruct body as [a|e]
  end; cbn [try_catch]; eexists; reflexivity.
Qed.

End AnnouncementFacts.

(** One admissible behaviour of the big-number library on values that are
    no strings, for use where a closed instance is wanted. *)
Definition rejects_other : json -> result PublicKey :=
  fun _ => Throw InvalidPublicKeyInput.

Definition system_program : jsstring := lit "11111111111111111111111111111111".

Definition announcement_300 : jsstring :=
  json_text "{'v':1,'t':'STEALTH','e':'1','vt':300,'s':'11111111111111111111111111111111'}".

Lemma announcement_roundtrip_witness :
  exists A',
    deserializeAnnouncement rejects_other
      (serializeAnnouncement
         {| ephemeralPubkey := repeat x07 32; viewTag := Some (JNum 255);
            stealthAddress := {| pk_bytes := repeat x09 32 |};
            txSignature := Some (lit "sig"); slot := Some 5 |}) = Ok (Some A') /\
    ephemeralPubkey A' = repeat x07 32 /\
    viewTag A' = Some (JNum 255) /\
    stealthAddress A' = {| pk_bytes := repeat x09 32 |}.
Proof.
  destruct (announcement_roundtrip rejects_other
              {| ephemeralPubkey := repeat x07 32; viewTag := Some (JNum 255);
                 stealthAddress := {| pk_bytes := repeat x09 32 |};
                 txSignature := Some (lit "sig"); slot := Some 5 |}
              255 eq_refl ltac:(lia) eq_refl)
    as (A' & H1 & H2 & H3 & H4 & _).
  exists A'. repeat split; assumption.
Defined.

(** C4, counterexample.  A text whose [vt] is 300 is decoded to an
    announcement that carries the view tag 300. *)
Lemma deserialize_out_of_range_view_tag :
  deserializeAnnouncement rejects_other announcement_300 =
  Ok (Some {| ephemeralPubkey := [x00];
              viewTag := Some (JNum 300);
              stealthAddress := {| pk_bytes := repeat x00 32 |};
              txSignature := None; slot := None |}).
Proof. vm_compute. reflexivity. Qed.

Lemma deserialize_keeps_view_tag_witness :
  deserializeAnnouncement rejects_other announcement_300 =
  Ok (Some {| ephemeralPubkey := [x00];
              viewTag := Some (JNum 300);
              stealthAddress := {| pk_bytes := repeat x00 32 |};
              txSignature := None; slot := None |}).
Proof.
  apply (deserialize_keeps_view_tag rejects_other announcement_300
           [ (lit "v", JNum 1); (lit "t", JStr (lit "STEALTH"));
             (lit "e", JStr (lit "1")); (lit "vt", JNum 300);
             (lit "s", JStr system_program) ]
           (lit "1") system_program [x00] (repeat x00 32));
    vm_compute; reflexivity.
Defined.
(* ================================================================= *)
(** * Facts about byte strings and the exception monad *)

Ltac inv_bind H :=
  match type of H with
  | bind ?r _ = Ok _ =>
      let E := fresh "E" in
      destruct r eqn:E; [cbn [bind] in H | discriminate H]
  end.

Lemma bigIntToBytesLE_length (n : nat) (v : Z) : length (bigIntToBytesLE v n) = n.
Proof.
  revert v. induction n as [|n IH]; intros v; simpl; [reflexivity|].
  rewrite IH. reflexivity.
Qed.

Lemma bytesToBigIntLE_nonneg (bs : bytes) : 0 <= bytesToBigIntLE bs.
Proof.
  unfold bytesToBigIntLE. induction bs as [|b bs IH]; cbn [fold_right]; [lia|].
  apply Z.lor_nonneg. split; [apply Z.shiftl_nonneg; exact IH | apply b2z_range].
Qed.

Lemma be_bytes_length (n : nat) (x : Z) : length (SHA2.be_bytes n x) = n.
Proof.
  revert x. induction n as [|n IH]; intros x; cbn [SHA2.be_bytes]; [reflexivity|].
  rewrite length_app, IH. simpl. lia.
Qed.

Lemma digest_length w rounds K H0 A1 A2 A3 E1 E2 E3 a1 a2 a3 e1 e2 e3 msg :
  length (SHA2.digest w rounds K H0 A1 A2 A3 E1 E2 E3 a1 a2 a3 e1 e2 e3 msg) =
  (8 * SHA2.word_bytes w)%nat.
Proof.
  unfold SHA2.digest.
  destruct (fold_left _ _ _) as [[[[[[[a b] c] d] e] f] g] h].
  rewrite !length_app, !be_bytes_length. lia.
Qed.

Lemma sha512_length (msg : bytes) : length (sha512 msg) = 64%nat.
Proof. unfold sha512. rewrite digest_length. reflexivity. Qed.

Lemma sha256_length (msg : bytes) : length (sha256 msg) = 32%nat.
Proof. unfold sha256. rewrite digest_length. reflexivity. Qed.

Lemma update_at_length {A} (i : nat) (f : A -> A) (l : list A) :
  length (update_at i f l) = length l.
Proof.
  revert i. induction l as [|x l IH]; intros [|i]; simpl; try reflexivity.
  rewrite IH. reflexivity.
Qed.

Lemma clamp_length (h : bytes) : length (clamp h) = length h.
Proof. unfold clamp. rewrite !update_at_length. reflexivity. Qed.

Lemma slice_0_length {A} (n : nat) (l : list A) :
  (n <= length l)%nat -> length (slice 0 n l) = n.
Proof.
  intros H. unfold slice. rewrite Nat.sub_0_r. simpl skipn.
  rewrite length_firstn. lia.
Qed.

Lemma slice_0_app {A} (a b : list A) : slice 0 (length a) (a ++ b) = a.
Proof.
  unfold slice. rewrite Nat.sub_0_r. simpl skipn. apply firstn_exact.
Qed.

Lemma slice_32_64_app {A} (a b : list A) :
  length a = 32%nat -> length b = 32%nat -> slice 32 64 (a ++ b) = b.
Proof.
  intros Ha Hb. unfold slice. change (64 - 32)%nat with 32%nat.
  replace (skipn 32 (a ++ b)) with b
    by (rewrite <- Ha; symmetry; apply skipn_exact).
  rewrite <- Hb. apply firstn_all.
Qed.

Lemma seed_key_length (seed : bytes) : length (slice 0 32 (sha512 seed)) = 32%nat.
Proof. apply slice_0_length. rewrite sha512_length. lia. Qed.

Lemma bytes_eqb_eq (a b : bytes) : bytes_eqb a b = true <-> a = b.
Proof.
  revert b. induction a as [|x a IH]; intros [|y b]; simpl; split; intros H;
    try reflexivity; try discriminate.
  - apply andb_prop in H. destruct H as [Hx Hab].
    apply Byte.byte_dec_bl in Hx. apply IH in Hab. congruence.
  - injection H as -> ->. rewrite (Byte.byte_dec_lb eq_refl). simpl.
    apply IH. reflexivity.
Qed.

Lemma PublicKey_equals_eq (a b : PublicKey) : PublicKey_equals a b = true <-> a = b.
Proof.
  unfold PublicKey_equals. rewrite bytes_eqb_eq.
  destruct a, b; simpl. split; congruence.
Qed.

(** A 32-byte array makes the public key with those bytes. *)
Lemma PublicKey_of_bytes_32 (b : bytes) :
  length b = 32%nat -> PublicKey_of_bytes b = Ok {| pk_bytes := b |}.
Proof.
  intros Hb. unfold PublicKey_of_bytes, PUBLIC_KEY_LENGTH.
  pose proof (takeWhile_dropWhile BaseX.is_zero_byte b) as Hsplit.
  pose proof (zero_bytes_repeat _ (takeWhile_all BaseX.is_zero_byte b)) as Hz.
  assert (Hlen : (length (takeWhile BaseX.is_zero_byte b) +
                  length (dropWhile BaseX.is_zero_byte b) = 32)%nat).
  { rewrite <- length_app, Hsplit. exact Hb. }
  replace (32 <? length (dropWhile BaseX.is_zero_byte b))%nat with false
    by (symmetry; apply Nat.ltb_ge; lia).
  replace (32 - length (dropWhile BaseX.is_zero_byte b))%nat
    with (length (takeWhile BaseX.is_zero_byte b)) by lia.
  rewrite <- Hz, Hsplit. reflexivity.
Qed.

Lemma L_pos : 0 < L.
Proof. reflexivity. Qed.

Lemma order_pos : 0 < Fp.ORDER.
Proof. reflexivity. Qed.

(* ================================================================= *)
(** * Consequences of the curve laws *)

Section CryptoFacts.
Context {C : Curve} (laws : CurveLaws C).

(** The public point of a seed. *)
Definition public_point (seed : bytes) : point :=
  smul (seedToScalar seed mod CURVE_n) BASE.

Lemma seedToScalar_nonneg (seed : bytes) : 0 <= seedToScalar seed.
Proof. apply bytesToBigIntLE_nonneg. Qed.

Lemma multiply_Ok (P Q : point) (n : Z) :
  multiply P n = Ok Q -> 1 <= n < CURVE_n /\ Q = smul n P.
Proof.
  unfold multiply. destruct ((1 <=? n) && (n <? CURVE_n)) eqn:E; [|discriminate].
  intros [= <-]. apply andb_prop in E. destruct E as [E1 E2].
  apply Z.leb_le in E1. apply Z.ltb_lt in E2. auto.
Qed.

Lemma multiply_in_range (P : point) (n : Z) :
  1 <= n < CURVE_n -> multiply P n = Ok (smul n P).
Proof.
  intros [H1 H2]. unfold multiply.
  apply Z.leb_le in H1. apply Z.ltb_lt in H2. rewrite H1, H2. reflexivity.
Qed.

Lemma multiply_zero (P : point) : multiply P 0 = Throw ScalarOutOfRange.
Proof. reflexivity. Qed.

Lemma getPublicKey_Ok (seed pub : bytes) :
  getPublicKey seed = Ok pub ->
  length seed = 32%nat /\
  0 < seedToScalar seed mod CURVE_n < CURVE_n /\
  pub = toRawBytes (public_point seed).
Proof.
  unfold getPublicKey. destruct (length seed =? 32)%nat eqn:El; [|discriminate].
  cbn [negb]. intros H. inv_bind H. injection H as <-.
  apply multiply_Ok in E. destruct E as [Hr ->].
  apply Nat.eqb_eq in El. unfold public_point, seedToScalar.
  repeat split; try assumption; lia.
Qed.

Lemma Keypair_generate_Ok (random : bytes) (kp : Keypair) :
  Keypair_generate random = Ok kp ->
  exists pub, getPublicKey random = Ok pub /\
              kp = {| kp_publicKey := pub; kp_secretKey := random ++ pub |}.
Proof.
  unfold Keypair_generate. intros H. inv_bind H. injection H as <-.
  eexists. split; reflexivity.
Qed.

(** The Edwards-to-Montgomery conversion of an encoded point. *)
Lemma ed25519PubToX25519_point (P : point) :
  ed25519PubToX25519 (toRawBytes P) =
  if Fp.sub Fp.ONE (toAffine_y P) =? 0 then Throw InvertZero
  else Ok (bigIntToBytesLE (montgomery_u (toAffine_y P)) 32).
Proof.
  unfold ed25519PubToX25519. rewrite (fromHex_toRawBytes laws). cbn [bind].
  unfold Fp.inv.
  replace (Fp.sub Fp.ONE (toAffine_y P) mod Fp.ORDER)
    with (Fp.sub Fp.ONE (toAffine_y P))
    by (unfold Fp.sub; rewrite Z.mod_mod; [reflexivity | discriminate]).
  destruct (Fp.sub Fp.ONE (toAffine_y P) =? 0); reflexivity.
Qed.

Lemma ed25519PubToX25519_public (seed : bytes) :
  0 < seedToScalar seed mod CURVE_n < CURVE_n ->
  ed25519PubToX25519 (toRawBytes (public_point seed)) =
  Ok (bigIntToBytesLE (montgomery_u (toAffine_y (public_point seed))) 32).
Proof.
  intros Hr. rewrite ed25519PubToX25519_point.
  pose proof (base_multiple_affine laws _ Hr) as Hy.
  apply Z.eqb_neq in Hy. unfold public_point. rewrite Hy. reflexivity.
Qed.

(** Diffie-Hellman: both sides reach the same point. *)
Lemma shared_point (seed1 seed2 : bytes) :
  smul (seedToScalar seed1) (public_point seed2) =
  smul (seedToScalar seed2) (public_point seed1).
Proof.
  unfold public_point.
  pose proof (seedToScalar_nonneg seed1) as H1.
  pose proof (seedToScalar_nonneg seed2) as H2.
  assert (HL : 0 < CURVE_n) by reflexivity.
  rewrite !(smul_smul laws) by (try assumption; apply Z.mod_pos_bound; lia).
  rewrite (smul_order laws (seedToScalar seed1 * (seedToScalar seed2 mod CURVE_n)))
    by (apply Z.mul_nonneg_nonneg; [lia | apply Z.mod_pos_bound; lia]).
  rewrite (smul_order laws (seedToScalar seed2 * (seedToScalar seed1 mod CURVE_n)))
    by (apply Z.mul_nonneg_nonneg; [lia | apply Z.mod_pos_bound; lia]).
  rewrite !Z.mul_mod_idemp_r by lia.
  rewrite (Z.mul_comm (seedToScalar seed1)). reflexivity.
Qed.

(** The shared secret one party computes from its seed and the other
    party's public key. *)
Lemma shared_secret (seed1 seed2 : bytes) :
  0 < seedToScalar seed2 mod CURVE_n < CURVE_n ->
  x25519_scalarMult (ed25519SeedToX25519Priv seed1)
    (bigIntToBytesLE (montgomery_u (toAffine_y (public_point seed2))) 32) =
  x25519_of_point (smul (seedToScalar seed1) (public_point seed2)).
Proof.
  intros Hr. unfold ed25519SeedToX25519Priv, seedToScalar at 1.
  apply (x25519_law laws).
  - apply seed_key_length.
  - apply (base_multiple_affine laws _ Hr).
Qed.

(** The sender's stealth point is the receiver's. *)
Lemma stealth_point (seed : bytes) (t : Z) :
  0 <= t ->
  add (public_point seed) (smul t BASE) =
  smul ((seedToScalar seed + t) mod L) BASE.
Proof.
  intros Ht. unfold public_point, L.
  assert (HL : 0 < CURVE_n) by reflexivity.
  rewrite <- (smul_add laws) by (try assumption; apply Z.mod_pos_bound; lia).
  rewrite (smul_order laws (seedToScalar seed mod CURVE_n + t))
    by (apply Z.add_nonneg_nonneg; [apply Z.mod_pos_bound; lia | lia]).
  rewrite Z.add_mod_idemp_l by lia. reflexivity.
Qed.

End CryptoFacts.

(* ================================================================= *)
(** * Sender and receiver agree *)

Section Agreement.
Context {C : Curve} (laws : CurveLaws C).

(** What a successful [computeStealthAddressInternal] has computed, in the
    receiver's terms. *)
Lemma compute_internal_Ok (vseed sseed random V S : bytes)
    (r : StealthAddressResultInternal) :
  getPublicKey vseed = Ok V -> getPublicKey sseed = Ok S ->
  computeStealthAddressInternal
    {| viewingPubkey := V; spendingPubkey := S |} random = Ok r ->
  let t := bytesToBigInt (sha256 (int_sharedSecret r)) mod L in
  getPublicKey random = Ok (int_ephemeralPubkey r) /\
  int_ephemeralPrivkey r = random /\
  x25519_of_point (smul (seedToScalar random) (public_point vseed))
    = Ok (int_sharedSecret r) /\
  1 <= t < L /\
  int_viewTag r = byte_at (sha256 (int_sharedSecret r)) 0 /\
  int_stealthPubkey r =
    {| pk_bytes := toRawBytes (smul ((seedToScalar sseed + t) mod L) BASE) |}.
Proof.
  intros HV HS H.
  apply getPublicKey_Ok in HV. destruct HV as (_ & HVr & ->).
  apply getPublicKey_Ok in HS. destruct HS as (_ & HSr & ->).
  unfold computeStealthAddressInternal in H. cbn [viewingPubkey spendingPubkey] in H.
  inv_bind H. apply Keypair_generate_Ok in E. destruct E as (pub & Hpub & ->).
  cbn [kp_secretKey] in H.
  pose proof (getPublicKey_Ok _ _ Hpub) as (Hlen & Hrr & Epub).
  assert (Hpl : length pub = 32%nat) by (rewrite Epub; apply (toRawBytes_length laws)).
  assert (Hex : extractScalar (random ++ pub) = Ok random).
  { unfold extractScalar. rewrite length_app, Hlen, Hpl. cbn [Nat.add Nat.eqb].
    rewrite <- Hlen at 1. rewrite slice_0_app. reflexivity. }
  rewrite Hex in H. cbn [bind] in H.
  unfold Keypair_publicKey in H. cbn [kp_publicKey] in H.
  rewrite (PublicKey_of_bytes_32 _ Hpl) in H. cbn [bind toBytes pk_bytes] in H.
  rewrite (ed25519PubToX25519_public laws _ HVr) in H. cbn [bind] in H.
  rewrite (shared_secret laws random vseed HVr) in H.
  inv_bind H. rename a into ss. rename E into Hss.
  inv_bind H. apply multiply_Ok in E. destruct E as [Ht ->].
  rewrite (fromHex_toRawBytes laws) in H. cbn [bind] in H.
  rewrite (PublicKey_of_bytes_32 _ (toRawBytes_length laws _)) in H.
  cbn [bind] in H. injection H as <-.
  cbn [int_stealthPubkey int_ephemeralPubkey int_ephemeralPrivkey
       int_sharedSecret int_viewTag].
  repeat split; try assumption; try reflexivity; try (unfold L in *; lia).
  rewrite (stealth_point laws) by lia. reflexivity.
Qed.

(** The receiver recomputes the sender's shared secret from the ephemeral
    public key. *)
Lemma receiver_shared_secret (vseed random E ss : bytes) :
  getPublicKey random = Ok E ->
  x25519_of_point (smul (seedToScalar random) (public_point vseed)) = Ok ss ->
  exists ux, ed25519PubToX25519 E = Ok ux /\
             x25519_scalarMult (ed25519SeedToX25519Priv vseed) ux = Ok ss.
Proof.
  intros HE Hss. apply getPublicKey_Ok in HE. destruct HE as (_ & Hr & ->).
  eexists. split.
  - apply (ed25519PubToX25519_public laws _ Hr).
  - rewrite (shared_secret laws vseed random Hr), (shared_point laws). exact Hss.
Qed.

(** [deriveStealthKeypair] once the shared secret is known. *)
Lemma derive_with_secret (vseed sseed E ux ss : bytes) :
  ed25519PubToX25519 E = Ok ux ->
  x25519_scalarMult (ed25519SeedToX25519Priv vseed) ux = Ok ss ->
  let scalar := (seedToScalar sseed + bytesToBigInt (sha256 ss) mod L) mod L in
  deriveStealthKeypair vseed sseed E =
  if scalar =? 0 then Throw ScalarOutOfRange
  else Keypair_fromSecretKey
         (bigIntToBytesLE scalar 32 ++ toRawBytes (smul scalar BASE)).
Proof.
  intros Hux Hss scalar. unfold deriveStealthKeypair.
  rewrite Hux. cbn [bind]. rewrite Hss. cbn [bind]. fold scalar.
  assert (Hs : 0 <= scalar < CURVE_n) by (apply Z.mod_pos_bound; reflexivity).
  destruct (scalar =? 0) eqn:E0.
  - apply Z.eqb_eq in E0. rewrite E0. reflexivity.
  - apply Z.eqb_neq in E0. rewrite multiply_in_range by lia. reflexivity.
Qed.

Lemma computeStealthAddress_Ok (M : StealthMetaAddress) (random : bytes)
    (r : StealthAddressResult) :
  computeStealthAddress M random = Ok r ->
  exists ri, computeStealthAddressInternal M random = Ok ri /\
             stealthPubkey r = int_stealthPubkey ri /\
             res_ephemeralPubkey r = int_ephemeralPubkey ri /\
             res_viewTag r = int_viewTag ri.
Proof.
  unfold computeStealthAddress. intros H. inv_bind H. injection H as <-.
  eexists. split; [reflexivity|]. auto.
Qed.

(** What [Keypair.fromSecretKey] accepts: the keys whose second half is
    the public key of the seed in their first half. *)
Lemma Keypair_fromSecretKey_Ok (secretKey : bytes) (kp : Keypair) :
  Keypair_fromSecretKey secretKey = Ok kp ->
  length secretKey = 64%nat /\
  getPublicKey (slice 0 32 secretKey) = Ok (slice 32 64 secretKey) /\
  kp = {| kp_publicKey := slice 32 64 secretKey; kp_secretKey := secretKey |}.
Proof.
  unfold Keypair_fromSecretKey.
  destruct (length secretKey =? 64)%nat eqn:El; cbn [negb]; [|discriminate].
  apply Nat.eqb_eq in El.
  destruct (getPublicKey (slice 0 32 secretKey)) as [computed|e]; cbn [bind];
    [|discriminate].
  destruct (bytes_eqb (slice 32 64 secretKey) computed) eqn:Eb; [|discriminate].
  apply bytes_eqb_eq in Eb. subst computed. intros H.
  split; [exact El|]. split; [reflexivity | congruence].
Qed.

Lemma Keypair_fromSecretKey_seed (seed pub : bytes) :
  getPublicKey seed = Ok pub ->
  Keypair_fromSecretKey (seed ++ pub) =
  Ok {| kp_publicKey := pub; kp_secretKey := seed ++ pub |}.
Proof.
  intros Hpub. pose proof (getPublicKey_Ok _ _ Hpub) as (Hlen & _ & Epub).
  assert (Hpl : length pub = 32%nat) by (rewrite Epub; apply (toRawBytes_length laws)).
  unfold Keypair_fromSecretKey.
  rewrite length_app, Hlen, Hpl. cbn [Nat.add Nat.eqb negb].
  rewrite (slice_32_64_app seed pub Hlen Hpl).
  rewrite <- Hlen at 1. rewrite slice_0_app, Hpub. cbn [bind].
  replace (bytes_eqb pub pub) with true
    by (symmetry; apply bytes_eqb_eq; reflexivity).
  reflexivity.
Qed.

Lemma strict_equal_refl_byte (a : bytes) (i : nat) :
  strict_equal (byte_at a i) (byte_at a i) = true.
Proof.
  unfold byte_at. destruct (nth_error a i); simpl; [apply Z.eqb_refl | reflexivity].
Qed.

Lemma strict_equal_byte (a : bytes) (v : Z) :
  strict_equal (byte_at a 0) (Some (JNum v)) = true <->
  byte_at a 0 = Some (JNum v).
Proof.
  unfold byte_at. destruct (nth_error a 0) as [b|]; simpl.
  - rewrite Z.eqb_eq. split; [intros ->; reflexivity | intros [= ->]; reflexivity].
  - split; discriminate.
Qed.

(** C5.  Where the ephemeral key converts and the X25519 product [ss] with
    the viewing seed exists, [checkViewTag] returns, and it returns true
    exactly when the first byte of [sha256 ss] is the given tag.  For an
    announcement that [computeStealthAddress] produced against the
    recipient's meta-address, [checkViewTag] on its ephemeral key and view
    tag returns true. *)
Theorem checkViewTag_sound (vseed : bytes) :
  (forall ephemeralPub ux ss v,
     ed25519PubToX25519 ephemeralPub = Ok ux ->
     x25519_scalarMult (ed25519SeedToX25519Priv vseed) ux = Ok ss ->
     exists b, checkViewTag vseed ephemeralPub (Some (JNum v)) = Ok b /\
               (b = true <-> byte_at (sha256 ss) 0 = Some (JNum v))) /\
  (forall sseed random V S r,
     getPublicKey vseed = Ok V -> getPublicKey sseed = Ok S ->
     computeStealthAddress {| viewingPubkey := V; spendingPubkey := S |} random
       = Ok r ->
     checkViewTag vseed (res_ephemeralPubkey r) (res_viewTag r) = Ok true).
Proof.
  split.
  - intros ephemeralPub ux ss v Hux Hss. unfold checkViewTag.
    rewrite Hux. cbn [bind]. rewrite Hss. cbn [bind].
    eexists. split; [reflexivity|]. apply strict_equal_byte.
  - intros sseed random V S r HV HS H.
    apply computeStealthAddress_Ok in H. destruct H as (ri & Hri & _ & -> & ->).
    destruct (compute_internal_Ok _ _ _ _ _ _ HV HS Hri)
      as (HE & _ & Hss & _ & Hvt & _).
    destruct (receiver_shared_secret _ _ _ _ HE Hss) as (ux & Hux & Hsec).
    unfold checkViewTag. rewrite Hux. cbn [bind]. rewrite Hsec. cbn [bind].
    rewrite Hvt, strict_equal_refl_byte. reflexivity.
Qed.

End Agreement.
(* ================================================================= *)
(** * Little-endian bytes of a number *)

Lemma lor_shiftl_byte (h l : Z) :
  0 <= h -> 0 <= l < 256 -> Z.lor (Z.shiftl h 8) l = h * 256 + l.
Proof.
  intros Hh Hl.
  assert (Hland : Z.land (Z.shiftl h 8) l = 0).
  { apply Z.bits_inj'. intros n Hn. rewrite Z.land_spec, Z.bits_0.
    destruct (Z.lt_ge_cases n 8) as [Hs|Hs].
    - rewrite Z.shiftl_spec_low by lia. reflexivity.
    - destruct (Z.eq_dec l 0) as [->|Hl0].
      + rewrite Z.bits_0. apply andb_false_r.
      + rewrite (Z.bits_above_log2 l n); [apply andb_false_r | lia |].
        assert (Z.log2 l < 8) by (apply Z.log2_lt_pow2; simpl; lia). lia. }
  rewrite <- Z.lxor_lor by exact Hland.
  rewrite <- Z.add_nocarry_lxor by exact Hland.
  rewrite Z.shiftl_mul_pow2 by lia. reflexivity.
Qed.

Lemma bytesToBigIntLE_bigIntToBytesLE (n : nat) (v : Z) :
  0 <= v -> bytesToBigIntLE (bigIntToBytesLE v n) = v mod 2 ^ (8 * Z.of_nat n).
Proof.
  revert v. induction n as [|n IH]; intros v Hv.
  - simpl. rewrite Z.mod_1_r. reflexivity.
  - cbn [bigIntToBytesLE]. unfold bytesToBigIntLE in *. cbn [fold_right].
    rewrite IH by (apply Z.shiftr_nonneg; exact Hv).
    change 255 with (Z.ones 8). rewrite Z.land_ones by lia.
    rewrite b2z_z2b, Z.mod_mod by (simpl; lia).
    rewrite lor_shiftl_byte.
    + rewrite Z.shiftr_div_pow2 by lia.
      replace (8 * Z.of_nat (S n)) with (8 + 8 * Z.of_nat n) by lia.
      rewrite Z.pow_add_r by lia.
      rewrite Z.rem_mul_r by (try (apply Z.pow_nonzero; lia); apply Z.pow_pos_nonneg; lia).
      change (2 ^ 8) with 256. lia.
    + apply Z.mod_pos_bound. apply Z.pow_pos_nonneg; lia.
    + apply Z.mod_pos_bound. lia.
Qed.

(* ================================================================= *)
(** * A model of the curve laws

    The group of integers modulo [CURVE_n] under addition, with base point
    1, is a cyclic group of the order of the base point of Ed25519.  Every
    point is given the affine coordinate [y = 0], so that all points share
    one Montgomery u-coordinate and X25519 returns it.  The model shows
    that the laws of [CurveLaws] can be met together. *)

Module ZL.

Definition in_range (z : Z) : bool := (0 <=? z) && (z <? CURVE_n).

Definition pt : Type := { z : Z | in_range z = true }.

Lemma mod_in_range (z : Z) : in_range (z mod CURVE_n) = true.
Proof.
  unfold in_range.
  pose proof (Z.mod_pos_bound z CURVE_n eq_refl) as [H1 H2].
  apply Z.leb_le in H1. apply Z.ltb_lt in H2. rewrite H1, H2. reflexivity.
Qed.

Definition mk (z : Z) : pt := exist _ (z mod CURVE_n) (mod_in_range z).
Definition val (P : pt) : Z := proj1_sig P.

Definition add (P Q : pt) : pt := mk (val P + val Q).
Definition smul (n : Z) (P : pt) : pt := mk (n * val P).
Definition eqb (P Q : pt) : bool := val P =? val Q.
Definition toRawBytes (P : pt) : bytes := bigIntToBytesLE (val P) 32.

Definition fromHex (hex : bytes) : result pt :=
  if negb (length hex =? 32)%nat then Throw BadPoint
  else if in_range (bytesToBigIntLE hex) then Ok (mk (bytesToBigIntLE hex))
  else Throw BadPoint.

Definition scalarMult (scalar u : bytes) : result bytes := Ok u.

End ZL.

Definition ZLCurve : Curve :=
  {| point := ZL.pt;
     BASE := ZL.mk 1;
     add := ZL.add;
     smul := ZL.smul;
     point_eqb := ZL.eqb;
     fromHex := ZL.fromHex;
     toRawBytes := ZL.toRawBytes;
     toAffine_y := fun _ => 0;
     x25519_scalarMult := ZL.scalarMult |}.

Lemma ZL_val_range (P : ZL.pt) : 0 <= ZL.val P < CURVE_n.
Proof.
  destruct P as [z Hz]. simpl. unfold ZL.in_range in Hz.
  apply andb_prop in Hz. destruct Hz as [H1 H2].
  apply Z.leb_le in H1. apply Z.ltb_lt in H2. lia.
Qed.

Lemma ZL_pt_eq (P Q : ZL.pt) : ZL.val P = ZL.val Q -> P = Q.
Proof.
  destruct P as [x Hx], Q as [y Hy]. simpl. intros ->.
  f_equal. apply UIP_dec. apply Bool.bool_dec.
Qed.

Lemma ZL_val_mk (z : Z) : ZL.val (ZL.mk z) = z mod CURVE_n.
Proof. reflexivity. Qed.

Lemma ZL_mk_val (P : ZL.pt) : ZL.mk (ZL.val P) = P.
Proof.
  apply ZL_pt_eq. rewrite ZL_val_mk. apply Z.mod_small, ZL_val_range.
Qed.

Lemma ZLCurve_laws : CurveLaws ZLCurve.
Proof.
  assert (HL : CURVE_n <> 0) by discriminate.
  constructor; cbn [point BASE add smul fromHex toRawBytes toAffine_y
                    x25519_scalarMult ZLCurve].
  - intros P. apply bigIntToBytesLE_length.
  - intros P. unfold ZL.fromHex, ZL.toRawBytes.
    rewrite bigIntToBytesLE_length. cbn [Nat.eqb negb].
    pose proof (ZL_val_range P) as Hr.
    rewrite bytesToBigIntLE_bigIntToBytesLE by lia.
    assert (Hsmall : ZL.val P mod 2 ^ (8 * Z.of_nat 32) = ZL.val P).
    { apply Z.mod_small. split; [lia|].
      apply Z.lt_trans with CURVE_n; [lia | reflexivity]. }
    rewrite Hsmall.
    replace (ZL.in_range (ZL.val P)) with true
      by (symmetry; destruct P as [z Hz]; exact Hz).
    rewrite ZL_mk_val. reflexivity.
  - intros m n P _ _. apply ZL_pt_eq. unfold ZL.add, ZL.smul.
    rewrite !ZL_val_mk. rewrite <- Z.add_mod by exact HL.
    f_equal. lia.
  - intros m n P _ _. apply ZL_pt_eq. unfold ZL.smul.
    rewrite !ZL_val_mk. rewrite Z.mul_mod_idemp_r by exact HL.
    f_equal. lia.
  - intros n _. apply ZL_pt_eq. unfold ZL.smul.
    rewrite !ZL_val_mk. rewrite Z.mul_mod_idemp_l by exact HL. reflexivity.
  - intros n _. discriminate.
  - intros k P _ _. unfold ZL.scalarMult. vm_compute. reflexivity.
Qed.
(* ================================================================= *)
(** * The agreement theorems at concrete seeds *)

Definition seed_v : bytes := repeat x01 32.
Definition seed_s : bytes := repeat x02 32.
Definition seed_e : bytes := repeat x03 32.

Definition unwrap {A} (default : A) (r : result A) : A :=
  match r with
  | Ok a => a
  | Throw _ => default
  end.

Definition zl_V : bytes :=
  Eval vm_compute in unwrap [] (getPublicKey (C := ZLCurve) seed_v).
Definition zl_S : bytes :=
  Eval vm_compute in unwrap [] (getPublicKey (C := ZLCurve) seed_s).
Definition zl_meta : StealthMetaAddress :=
  {| viewingPubkey := zl_V; spendingPubkey := zl_S |}.
Definition zl_result : StealthAddressResult :=
  Eval vm_compute in
    unwrap {| stealthPubkey := {| pk_bytes := [] |};
              res_ephemeralPubkey := []; res_viewTag := None |}
      (computeStealthAddress (C := ZLCurve) zl_meta seed_e).

Lemma checkViewTag_sound_witness :
  checkViewTag (C := ZLCurve) seed_v (res_ephemeralPubkey zl_result)
    (res_viewTag zl_result) = Ok true.
Proof.
  apply (proj2 (checkViewTag_sound ZLCurve_laws seed_v)
           seed_s seed_e zl_V zl_S zl_result);
    vm_compute; reflexivity.
Defined.

(* ================================================================= *)
(** * Which points the conversion refuses *)

Section Conversion.
Context {C : Curve}.

Lemma bind_throws {A B} (r : result A) (k : A -> result B) :
  throws r -> throws (bind r k).
Proof. intros [e ->]. exists e. reflexivity. Qed.

Lemma Fp_inv_throws (a : Z) : throws (Fp.inv a) <-> a mod Fp.ORDER = 0.
Proof.
  unfold Fp.inv, throws. destruct (a mod Fp.ORDER =? 0) eqn:E.
  - apply Z.eqb_eq in E. split; [intros _; exact E | intros _; eauto].
  - apply Z.eqb_neq in E. split; [intros [e He]; discriminate | contradiction].
Qed.


End Conversion.

(** The point [(0, -1)] of order two, and the identity [(0, 1)]. *)
Definition order2_bytes : bytes := bigIntToBytesLE (Fp.ORDER - 1) 32.
Definition identity_bytes : bytes := bigIntToBytesLE 1 32.

Definition order2_point : Ref.ext :=
  Eval vm_compute in unwrap Ref.ZERO (Ref.fromHex order2_bytes).



(* ================================================================= *)
(** * Signing with a scalar *)

Section Signing.
Context {C : Curve}.

(** [signWithScalar] signs with the scalar's bytes as a seed: the prefix it
    computes is cut off again, and [pubkey] is not used. *)
Lemma signWithScalar_signs_as_seed (message : bytes) (scalar : Z) (pubkey : bytes) :
  signWithScalar message scalar pubkey =
  ed25519_sign message (bigIntToBytesLE scalar 32).
Proof.
  unfold signWithScalar.
  pose proof (slice_0_app (bigIntToBytesLE scalar 32)
                (slice 32 64 (sha512 (bigIntToBytesLE scalar 32)))) as H.
  rewrite bigIntToBytesLE_length in H. rewrite H. reflexivity.
Qed.

End Signing.

(* ================================================================= *)
(** * The scanner *)

Section Scanner.
Context {C : Curve}.
Variable getBalance : PublicKey -> result Z.
Variable account : StealthAccount.

Lemma scan_loop_cons (a : StealthAnnouncement) (rest : list StealthAnnouncement)
    (acc : list DiscoveredPayment) :
  scan_loop getBalance account (a :: rest) acc =
  (o <- scan_one getBalance account a ;; scan_loop getBalance account rest (acc ++ found o)).
Proof.
  cbn [scan_loop]. unfold scan_one.
  destruct (account_checkViewTag account (ephemeralPubkey a) (viewTag a))
    as [[|]|e]; cbn [bind negb found]; rewrite ?app_nil_r; try reflexivity.
  destruct (account_computeExpectedAddress account (ephemeralPubkey a))
    as [pk|e]; cbn [bind]; [|reflexivity].
  destruct (PublicKey_equals pk (stealthAddress a));
    cbn [bind negb found]; rewrite ?app_nil_r; [|reflexivity].
  destruct (getBalance (stealthAddress a)) as [bal|e]; cbn [bind]; [|reflexivity].
  destruct (0 <? bal); cbn [bind found]; rewrite ?app_nil_r; [|reflexivity].
  destruct (account_deriveKeypair account (ephemeralPubkey a)) as [kp|e];
    cbn [bind found]; reflexivity.
Qed.

End Scanner.

(** ** A scan on the computed curve *)

Definition ref_V : bytes :=
  Eval vm_compute in unwrap [] (getPublicKey (C := RefCurve) seed_v).
Definition ref_S : bytes :=
  Eval vm_compute in unwrap [] (getPublicKey (C := RefCurve) seed_s).
Definition ref_meta : StealthMetaAddress :=
  {| viewingPubkey := ref_V; spendingPubkey := ref_S |}.
Definition ref_account : StealthAccount :=
  {| keys := {| viewingPrivkey := seed_v; spendingPrivkey := seed_s;
                metaAddress := ref_meta |} |}.

Definition no_announcement : StealthAnnouncement :=
  {| ephemeralPubkey := []; viewTag := None;
     stealthAddress := {| pk_bytes := [] |};
     txSignature := None; slot := None |}.

(** The announcement of a payment to [ref_account]. *)
Definition genuine : StealthAnnouncement :=
  Eval vm_compute in
    unwrap no_announcement
      (payment_announcement (C := RefCurve) ref_meta seed_e).

(** Every address holds a million lamports. *)
Definition funded : PublicKey -> result Z := fun _ => Ok 1000000.

(** The result of [computeStealthAddressInternal] behind [genuine], its
    public part, and the stealth scalar of the receiver: the scalar of the
    spending seed plus the tweak, modulo [L]. *)
Definition ref_internal : StealthAddressResultInternal :=
  Eval vm_compute in
    unwrap {| int_stealthPubkey := {| pk_bytes := [] |};
              int_ephemeralPubkey := []; int_ephemeralPrivkey := [];
              int_sharedSecret := []; int_viewTag := None |}
      (computeStealthAddressInternal (C := RefCurve) ref_meta seed_e).

Definition ref_result : StealthAddressResult :=
  {| stealthPubkey := stealthAddress genuine;
     res_ephemeralPubkey := ephemeralPubkey genuine;
     res_viewTag := viewTag genuine |}.

Definition genuine_scalar : Z :=
  Eval vm_compute in
    (seedToScalar seed_s
     + bytesToBigInt (sha256 (int_sharedSecret ref_internal)) mod L) mod L.
Definition genuine_pub : bytes := toBytes (stealthAddress genuine).

(** C1, at a failing input.  For the account of the seeds [seed_v] and
    [seed_s], whose meta-address holds their public keys, and the ephemeral
    seed [seed_e], [computeStealthAddress] returns a stealth address; the
    receiver's stealth scalar [s] lies between 0 and [L], and [s B] is that
    address.  But [createKeypairFromScalar] hands [Keypair.fromSecretKey]
    the bytes of [s] followed by the address, and [Keypair.fromSecretKey]
    takes the first half for a seed, finds another public key for it and
    refuses the key: [deriveStealthKeypair] raises and returns no keypair. *)
Theorem deriveStealthKeypair_raises_on_genuine_announcement :
  getPublicKey (C := RefCurve) seed_v = Ok ref_V /\
  getPublicKey (C := RefCurve) seed_s = Ok ref_S /\
  computeStealthAddress (C := RefCurve) ref_meta seed_e = Ok ref_result /\
  0 < genuine_scalar < L /\
  toRawBytes (Curve := RefCurve) (smul genuine_scalar BASE)
    = toBytes (stealthPubkey ref_result) /\
  createKeypairFromScalar (C := RefCurve) genuine_scalar
    (toBytes (stealthPubkey ref_result)) = Throw BadSecretKey /\
  deriveStealthKeypair (C := RefCurve) seed_v seed_s
    (res_ephemeralPubkey ref_result) = Throw BadSecretKey.
Proof.
  split; [vm_compute; reflexivity|].
  split; [vm_compute; reflexivity|].
  split; [vm_compute; reflexivity|].
  split; [split; reflexivity|].
  split; [vm_compute; reflexivity|].
  split; vm_compute; reflexivity.
Qed.

(** C6, at a failing input.  [genuine] is the announcement of a payment to
    the account; it passes the view-tag check, carries the address the
    account recomputes, and the address holds a positive balance.  The scan
    of the list that holds it alone raises in [deriveKeypair] and reports
    no payment. *)
Theorem scanAnnouncements_raises_on_genuine_payment :
  payment_announcement (C := RefCurve) ref_meta seed_e = Ok genuine /\
  passes (C := RefCurve) funded ref_account genuine 1000000 /\
  account_deriveKeypair (C := RefCurve) ref_account (ephemeralPubkey genuine)
    = Throw BadSecretKey /\
  scanAnnouncements (C := RefCurve) funded ref_account [genuine]
    = Throw BadSecretKey.
Proof.
  split; [vm_compute; reflexivity|].
  split.
  { unfold passes. split; [vm_compute; reflexivity|].
    split; [vm_compute; reflexivity|]. split; reflexivity. }
  split; vm_compute; reflexivity.
Qed.

(* ================================================================= *)
(** * Signatures of [signWithScalar] under the verification rule *)

(** The encoding of the base point, the public key of the scalar 1. *)
Definition base_bytes : bytes :=
  Eval vm_compute in toRawBytes (Curve := RefCurve) (smul 1 BASE).

Definition scalar_one_signature : bytes :=
  Eval vm_compute in
    unwrap [] (signWithScalar (C := RefCurve) [] 1 base_bytes).
Definition scalar_one_seed_pub : bytes :=
  Eval vm_compute in
    unwrap [] (getPublicKey (C := RefCurve) (bigIntToBytesLE 1 32)).

(** A message of 32 bytes and its signature under the stealth scalar and
    stealth public key of the payment [genuine]. *)
Definition message32 : bytes := repeat x2a 32.
Definition genuine_signature : bytes :=
  Eval vm_compute in
    unwrap [] (signWithScalar (C := RefCurve) message32 genuine_scalar
                 genuine_pub).

(** C2, at two failing inputs.  For the empty message, the scalar 1 and its
    public key, the encoding of the base point, [signWithScalar] returns a
    signature that the verification rule rejects under that public key; it
    verifies under the public key of the seed whose bytes are those of the
    scalar.  The same happens for a derived stealth scalar [s], its public
    key [s B] and a message of 32 bytes. *)
Theorem signWithScalar_signature_rejected :
  (toRawBytes (Curve := RefCurve) (smul 1 BASE) = base_bytes /\
   signWithScalar (C := RefCurve) [] 1 base_bytes
     = Ok scalar_one_signature /\
   ed25519_verify (C := RefCurve) scalar_one_signature [] base_bytes
     = false /\
   getPublicKey (C := RefCurve) (bigIntToBytesLE 1 32)
     = Ok scalar_one_seed_pub /\
   ed25519_verify (C := RefCurve) scalar_one_signature []
     scalar_one_seed_pub = true) /\
  (0 <= genuine_scalar < L /\
   toRawBytes (Curve := RefCurve) (smul genuine_scalar BASE) = genuine_pub /\
   signWithScalar (C := RefCurve) message32 genuine_scalar genuine_pub
     = Ok genuine_signature /\
   ed25519_verify (C := RefCurve) genuine_signature message32 genuine_pub
     = false).
Proof.
  split.
  - split; [vm_compute; reflexivity|].
    split; [vm_compute; reflexivity|].
    split; [vm_compute; reflexivity|].
    split; vm_compute; reflexivity.
  - split; [split; [discriminate | reflexivity]|].
    split; [vm_compute; reflexivity|].
    split; vm_compute; reflexivity.
Qed.
(* ================================================================= *)
(** * bs58: encoding inverts decoding *)

Section Bs58Inverse.
Import BaseX BaseXFacts.

Lemma leaders_repeat (l : jsstring) :
  Forall (fun c => is_leader c = true) l -> l = repeat LEADER (length l).
Proof.
  induction 1 as [|c l Hc _ IH]; simpl; [reflexivity|].
  unfold is_leader in Hc. apply Z.eqb_eq in Hc.
  rewrite Hc, <- IH. reflexivity.
Qed.

Lemma charAt_BASE_MAP (c : Z) :
  In c ALPHABET -> charAt (BASE_MAP c) = c /\ 0 <= BASE_MAP c < 58.
Proof.
  intros Hc.
  assert (H : forallb (fun c => (charAt (BASE_MAP c) =? c) &&
                                ((0 <=? BASE_MAP c) && (BASE_MAP c <? 58)))
                ALPHABET = true) by (vm_compute; reflexivity).
  rewrite forallb_forall in H. specialize (H c Hc).
  apply andb_prop in H. destruct H as [H1 H2].
  apply andb_prop in H2. destruct H2 as [H2 H3].
  apply Z.eqb_eq in H1. apply Z.leb_le in H2. apply Z.ltb_lt in H3. auto.
Qed.

Lemma BASE_MAP_leader (c : Z) : In c ALPHABET -> BASE_MAP c = 0 -> c = LEADER.
Proof.
  intros Hc H0. destruct (charAt_BASE_MAP c Hc) as [E _].
  rewrite H0 in E. rewrite <- E. reflexivity.
Qed.

(** A string the character loop accepts is made of alphabet characters,
    and the loop has folded their digits into the buffer. *)
Lemma decode_chars_Some (s : jsstring) (buf out : list Z) :
  decode_chars s buf = Some out ->
  Forall (fun c => In c ALPHABET) s /\
  out = fold_left (fun b d => muladd 256 BASE b d) (map BASE_MAP s) buf.
Proof.
  revert buf. induction s as [|c s IH]; intros buf; simpl.
  - intros [= <-]. split; [constructor | reflexivity].
  - destruct (BASE_MAP c =? 255) eqn:E; [discriminate|].
    intros H. apply IH in H. destruct H as [Hs ->].
    split; [|reflexivity]. constructor; [|assumption].
    apply Z.eqb_neq in E.
    destruct (in_dec Z.eq_dec c ALPHABET) as [Hin|Hn]; [assumption|].
    apply BASE_MAP_255 in Hn. contradiction.
Qed.

Lemma map_b2z_z2b (l : list Z) : digits_below 256 l -> map b2z (map z2b l) = l.
Proof.
  induction 1 as [|d l Hd _ IH]; simpl; [reflexivity|].
  rewrite b2z_z2b, Z.mod_small, IH by assumption. reflexivity.
Qed.

Lemma map_charAt_BASE_MAP (s : jsstring) :
  Forall (fun c => In c ALPHABET) s -> map charAt (map BASE_MAP s) = s.
Proof.
  induction 1 as [|c s Hc _ IH]; simpl; [reflexivity|].
  rewrite (proj1 (charAt_BASE_MAP c Hc)), IH. reflexivity.
Qed.

Lemma BASE_MAP_digits (s : jsstring) :
  Forall (fun c => In c ALPHABET) s -> digits_below 58 (map BASE_MAP s).
Proof.
  induction 1 as [|c s Hc _ IH]; simpl; constructor; [|assumption].
  apply (charAt_BASE_MAP c Hc).
Qed.

(** Every string that [bs58.decode] accepts is the encoding of the bytes it
    decodes to. *)
Theorem encode_decode (s : jsstring) (b : bytes) :
  decode s = Ok b -> encode b = s.
Proof.
  unfold decode, decodeUnsafe.
  set (zs := takeWhile is_leader s). set (rest := dropWhile is_leader s).
  destruct (decode_chars rest []) as [b256|] eqn:E; [|discriminate].
  intros [= <-].
  apply decode_chars_Some in E. destruct E as [Halpha Eb].
  set (ds := map BASE_MAP rest) in *.
  pose proof (BASE_MAP_digits rest Halpha) as Hds. fold ds in Hds.
  destruct (fold_muladd 256 58 ltac:(lia) ltac:(lia) ds []
              (digits_nonneg _ _ Hds) ltac:(constructor)
              ltac:(unfold normal; simpl; lia)) as (Hv & Hd & Hn).
  cbn zeta in Hv, Hd, Hn. change 58 with BASE in Hv, Hd, Hn at 1.
  rewrite <- Eb in Hv, Hd, Hn. cbn [val] in Hv.
  rewrite (dropWhile_id is_zero (rev b256)) by (apply normal_rev_head; assumption).
  set (B := map z2b (rev b256)).
  assert (HB : map b2z B = rev b256)
    by (apply map_b2z_z2b, Forall_rev; assumption).
  assert (HBhead : hd_error (map is_zero_byte B) <> Some true).
  { rewrite <- is_zero_b2z, HB. apply normal_rev_head. assumption. }
  unfold encode.
  destruct (takeWhile_repeat_app is_zero_byte x00 (length zs) B eq_refl HBhead)
    as [Ht Hdr].
  rewrite Ht, Hdr, repeat_length. fold (b58_digits B).
  destruct (b58_digits_spec B) as (Hv58 & Hd58 & Hn58).
  (* the first remaining character is not the leader: its digit is not 0 *)
  assert (Hdshead : hd_error (map is_zero ds) <> Some true).
  { pose proof (dropWhile_head is_leader s) as Hh. fold rest in Hh.
    unfold ds. destruct rest as [|c rest']; simpl in *; [discriminate|].
    inversion Halpha as [|? ? Hc _]; subst.
    intros [= Hz]. unfold is_zero in Hz. apply Z.eqb_eq in Hz.
    apply (BASE_MAP_leader c Hc) in Hz. subst c.
    apply Hh. reflexivity. }
  assert (Heq : b58_digits B = rev ds).
  { apply (normal_unique 58 ltac:(lia)); try assumption.
    - apply Forall_rev. assumption.
    - apply head_normal_rev. assumption.
    - rewrite Hv58, HB, <- (val_rev_horner 256), rev_involutive, Hv.
      rewrite (val_rev_horner 58). reflexivity. }
  rewrite Heq, rev_involutive, (dropWhile_id is_zero ds) by assumption.
  unfold ds. rewrite (map_charAt_BASE_MAP rest Halpha).
  rewrite <- (leaders_repeat zs (takeWhile_all is_leader s)).
  apply takeWhile_dropWhile.
Qed.

End Bs58Inverse.

(* ================================================================= *)
(** * Meta-address strings are canonical *)

Lemma startsWith_split (s p : jsstring) :
  startsWith s p = true -> s = p ++ skipn (length p) s.
Proof.
  revert s. induction p as [|c p IH]; intros s; simpl; [reflexivity|].
  destruct s as [|x s]; [discriminate|].
  destruct (x =? c) eqn:E; [|discriminate].
  apply Z.eqb_eq in E. subst x. intros H. rewrite <- (IH s H). reflexivity.
Qed.

(** What a successful [decodeMetaAddress] has read. *)
Lemma decodeMetaAddress_Ok (encoded : jsstring) (M : StealthMetaAddress) :
  decodeMetaAddress encoded = Ok M ->
  length (viewingPubkey M) = 32%nat /\ length (spendingPubkey M) = 32%nat /\
  encoded = PREFIX ++ BaseX.encode (viewingPubkey M ++ spendingPubkey M).
Proof.
  unfold decodeMetaAddress.
  destruct (startsWith encoded PREFIX) eqn:Hp; cbn [negb]; [|discriminate].
  destruct (BaseX.decode (slice_from (length PREFIX) encoded)) as [combined|e] eqn:Hd;
    cbn [try_catch bind]; [|discriminate].
  change (PUBKEY_LENGTH * 2)%nat with 64%nat. change PUBKEY_LENGTH with 32%nat.
  destruct (length combined =? 64)%nat eqn:Hl; cbn [negb]; [|discriminate].
  apply Nat.eqb_eq in Hl.
  change (slice 0 32 combined) with (firstn 32 combined).
  change (slice_from 32 combined) with (skipn 32 combined).
  intros HM. assert (EM : M = {| viewingPubkey := firstn 32 combined;
                                 spendingPubkey := skipn 32 combined |})
    by congruence.
  clear HM. subst M. cbn [viewingPubkey spendingPubkey].
  split; [rewrite length_firstn, Hl; reflexivity|].
  split; [rewrite length_skipn, Hl; reflexivity|].
  rewrite firstn_skipn. apply encode_decode in Hd. rewrite Hd.
  apply startsWith_split, Hp.
Qed.

Lemma encodeMetaAddress_32 (M : StealthMetaAddress) :
  length (viewingPubkey M) = 32%nat -> length (spendingPubkey M) = 32%nat ->
  encodeMetaAddress M =
  Ok (PREFIX ++ BaseX.encode (viewingPubkey M ++ spendingPubkey M)).
Proof.
  intros Hv Hs. unfold encodeMetaAddress. rewrite Hv, Hs. reflexivity.
Qed.

Lemma encodeMetaAddress_Ok (M : StealthMetaAddress) (s : jsstring) :
  encodeMetaAddress M = Ok s ->
  length (viewingPubkey M) = 32%nat /\ length (spendingPubkey M) = 32%nat.
Proof.
  unfold encodeMetaAddress. change PUBKEY_LENGTH with 32%nat.
  destruct (length (viewingPubkey M) =? 32)%nat eqn:Hv; cbn [negb]; [|discriminate].
  destruct (length (spendingPubkey M) =? 32)%nat eqn:Hs; cbn [negb]; [|discriminate].
  apply Nat.eqb_eq in Hv. apply Nat.eqb_eq in Hs. auto.
Qed.

Lemma decode_encodeMetaAddress (M : StealthMetaAddress) (s : jsstring) :
  encodeMetaAddress M = Ok s -> decodeMetaAddress s = Ok M.
Proof.
  intros H. destruct (encodeMetaAddress_Ok M s H) as [Hv Hs].
  rewrite (encodeMetaAddress_32 M Hv Hs) in H.
  assert (Es : s = PREFIX ++ BaseX.encode (viewingPubkey M ++ spendingPubkey M))
    by congruence.
  rewrite Es.
  rewrite decode_prefixed by (rewrite length_app; lia).
  rewrite <- Hv at 1. rewrite firstn_exact.
  rewrite <- Hv. rewrite skipn_exact. destruct M. reflexivity.
Qed.

(** X1.  A string that [decodeMetaAddress] accepts is the string that
    [encodeMetaAddress] writes for the decoded meta-address, and no other
    string decodes to the same meta-address. *)
Theorem decodeMetaAddress_canonical (encoded : jsstring) (M : StealthMetaAddress) :
  decodeMetaAddress encoded = Ok M ->
  encodeMetaAddress M = Ok encoded /\
  (forall other, decodeMetaAddress other = Ok M -> other = encoded).
Proof.
  intros H. apply decodeMetaAddress_Ok in H. destruct H as (Hv & Hs & ->).
  split; [apply encodeMetaAddress_32; assumption|].
  intros other Ho. apply decodeMetaAddress_Ok in Ho.
  destruct Ho as (_ & _ & ->). reflexivity.
Qed.

Definition zero_meta : StealthMetaAddress :=
  {| viewingPubkey := repeat x00 32; spendingPubkey := repeat x00 32 |}.

Definition zero_meta_string : jsstring := PREFIX ++ repeat 49 64.

Lemma decodeMetaAddress_canonical_witness :
  encodeMetaAddress zero_meta = Ok zero_meta_string /\
  (forall other, decodeMetaAddress other = Ok zero_meta -> other = zero_meta_string).
Proof.
  apply (decodeMetaAddress_canonical zero_meta_string zero_meta).
  vm_compute. reflexivity.
Defined.

(** X2.  [isValidMetaAddress] accepts exactly the strings that
    [encodeMetaAddress] writes for meta-addresses with two keys of 32
    bytes. *)
Theorem isValidMetaAddress_iff (encoded : jsstring) :
  isValidMetaAddress encoded = true <->
  exists M, length (viewingPubkey M) = 32%nat /\
            length (spendingPubkey M) = 32%nat /\
            encodeMetaAddress M = Ok encoded.
Proof.
  unfold isValidMetaAddress. split.
  - destruct (decodeMetaAddress encoded) as [M|e] eqn:H; [|discriminate].
    intros _. exists M. apply decodeMetaAddress_Ok in H.
    destruct H as (Hv & Hs & ->).
    repeat split; try assumption. apply encodeMetaAddress_32; assumption.
  - intros (M & _ & _ & H). apply decode_encodeMetaAddress in H.
    rewrite H. reflexivity.
Qed.

(** X3.  [createPaymentLink] fails exactly when one of the two keys is not
    32 bytes long; otherwise the link is the base URL, the default one when
    none is given, a slash and a string that [decodeMetaAddress] reads back
    as the meta-address. *)
Theorem createPaymentLink_decodes (meta : StealthMetaAddress) :
  (forall baseUrl,
     throws (createPaymentLink meta baseUrl) <->
     length (viewingPubkey meta) <> 32%nat \/
     length (spendingPubkey meta) <> 32%nat) /\
  (forall baseUrl link,
     createPaymentLink meta baseUrl = Ok link ->
     let base := match baseUrl with
                 | Some url => url
                 | None => lit "https://pay.stealth.sol"
                 end in
     firstn (length base + 1) link = base ++ lit "/" /\
     decodeMetaAddress (slice_from (length base + 1) link) = Ok meta).
Proof.
  split.
  - intros baseUrl. unfold createPaymentLink, encodeMetaAddress, throws.
    change PUBKEY_LENGTH with 32%nat.
    destruct (length (viewingPubkey meta) =? 32)%nat eqn:Hv; cbn [negb bind].
    + destruct (length (spendingPubkey meta) =? 32)%nat eqn:Hs; cbn [negb bind].
      * apply Nat.eqb_eq in Hv. apply Nat.eqb_eq in Hs.
        split; [intros [e He]; discriminate | lia].
      * apply Nat.eqb_neq in Hs. split; [auto | eauto].
    + apply Nat.eqb_neq in Hv. split; [auto | eauto].
  - intros baseUrl link H. cbv zeta. unfold createPaymentLink in H.
    change DEFAULT_BASE_URL with (lit "https://pay.stealth.sol") in H.
    cbv zeta in H.
    generalize dependent (match baseUrl with
                          | Some url => url
                          | None => lit "https://pay.stealth.sol"
                          end).
    intros base H.
    destruct (encodeMetaAddress meta) as [encoded|e] eqn:He; [|discriminate].
    cbn [bind] in H.
    assert (El : link = (base ++ [47]) ++ encoded).
    { rewrite <- app_assoc. change [47] with (lit "/"). congruence. }
    clear H. subst link.
    apply decode_encodeMetaAddress in He.
    change (lit "/") with [47].
    replace (length base + 1)%nat with (length (base ++ [47]))
      by (rewrite length_app; reflexivity).
    unfold slice_from. rewrite firstn_exact, skipn_exact. auto.
Qed.

Lemma createPaymentLink_decodes_witness :
  firstn 24 (lit "https://pay.stealth.sol/" ++ zero_meta_string)
    = lit "https://pay.stealth.sol/" /\
  decodeMetaAddress
    (slice_from 24 (lit "https://pay.stealth.sol/" ++ zero_meta_string))
    = Ok zero_meta.
Proof.
  apply (proj2 (createPaymentLink_decodes zero_meta) None
           (lit "https://pay.stealth.sol/" ++ zero_meta_string)).
  vm_compute. reflexivity.
Defined.
(* ================================================================= *)
(** * Bytes and big integers *)

Lemma bytesToBigIntLE_cons (b : byte) (bs : bytes) :
  bytesToBigIntLE (b :: bs) = b2z b + 256 * bytesToBigIntLE bs.
Proof.
  unfold bytesToBigIntLE. cbn [fold_right].
  rewrite lor_shiftl_byte; [lia | apply bytesToBigIntLE_nonneg | apply b2z_range].
Qed.

Lemma bytesToBigIntLE_range (bs : bytes) :
  0 <= bytesToBigIntLE bs < 2 ^ (8 * Z.of_nat (length bs)).
Proof.
  induction bs as [|b bs IH]; [simpl; lia|].
  rewrite bytesToBigIntLE_cons. pose proof (b2z_range b).
  replace (8 * Z.of_nat (length (b :: bs))) with (8 + 8 * Z.of_nat (length bs))
    by (simpl length; lia).
  rewrite Z.pow_add_r by lia. change (2 ^ 8) with 256. lia.
Qed.

Lemma bytesToBigIntLE_app (a b : bytes) :
  bytesToBigIntLE (a ++ b) =
  bytesToBigIntLE a + 2 ^ (8 * Z.of_nat (length a)) * bytesToBigIntLE b.
Proof.
  induction a as [|x a IH].
  { cbn [app]. change (bytesToBigIntLE []) with 0.
    change (2 ^ (8 * Z.of_nat (length (@nil byte)))) with 1. lia. }
  rewrite <- app_comm_cons, !bytesToBigIntLE_cons, IH.
  replace (8 * Z.of_nat (length (x :: a))) with (8 + 8 * Z.of_nat (length a))
    by (simpl length; lia).
  rewrite Z.pow_add_r by lia. change (2 ^ 8) with 256. lia.
Qed.

Lemma bigIntToBytesLE_step (v : Z) (n : nat) :
  bigIntToBytesLE v (S n) = z2b (v mod 256) :: bigIntToBytesLE (v / 256) n.
Proof.
  cbn [bigIntToBytesLE]. change 255 with (Z.ones 8).
  rewrite Z.land_ones, Z.shiftr_div_pow2 by lia. reflexivity.
Qed.

Lemma bigIntToBytesLE_of_bytes (bs : bytes) :
  bigIntToBytesLE (bytesToBigIntLE bs) (length bs) = bs.
Proof.
  induction bs as [|b bs IH]; [reflexivity|].
  cbn [length]. rewrite bigIntToBytesLE_step, bytesToBigIntLE_cons.
  pose proof (b2z_range b).
  replace ((b2z b + 256 * bytesToBigIntLE bs) mod 256) with (b2z b)
    by (rewrite Z.mul_comm, Z.mod_add, Z.mod_small; lia).
  replace ((b2z b + 256 * bytesToBigIntLE bs) / 256) with (bytesToBigIntLE bs)
    by (rewrite Z.mul_comm, Z.div_add, Z.div_small; lia).
  rewrite z2b_b2z, IH. reflexivity.
Qed.

Lemma bytesToBigIntLE_of_any (n : nat) (v : Z) :
  bytesToBigIntLE (bigIntToBytesLE v n) = v mod 2 ^ (8 * Z.of_nat n).
Proof.
  revert v. induction n as [|n IH]; intros v.
  - simpl. rewrite Z.mod_1_r. reflexivity.
  - rewrite bigIntToBytesLE_step, bytesToBigIntLE_cons, IH.
    rewrite b2z_z2b, Z.mod_mod by lia.
    replace (8 * Z.of_nat (S n)) with (8 + 8 * Z.of_nat n) by lia.
    rewrite Z.pow_add_r by lia. change (2 ^ 8) with 256.
    rewrite Z.rem_mul_r by (try (apply Z.pow_pos_nonneg; lia); lia).
    reflexivity.
Qed.

(** X4.  The little-endian conversions invert each other: the bytes of a
    number read back as that number modulo [256 ^ length], for negative
    numbers too, and the number of a byte string written at the string's
    length gives the string back. *)
Theorem little_endian_roundtrip :
  (forall (v : Z) (n : nat),
     length (bigIntToBytesLE v n) = n /\
     bytesToBigIntLE (bigIntToBytesLE v n) = v mod 2 ^ (8 * Z.of_nat n)) /\
  (forall bs : bytes,
     0 <= bytesToBigIntLE bs < 2 ^ (8 * Z.of_nat (length bs)) /\
     bigIntToBytesLE (bytesToBigIntLE bs) (length bs) = bs).
Proof.
  split.
  - intros v n. split; [apply bigIntToBytesLE_length | apply bytesToBigIntLE_of_any].
  - intros bs. split; [apply bytesToBigIntLE_range | apply bigIntToBytesLE_of_bytes].
Qed.

Lemma bytesToBigInt_rev (bs : bytes) : bytesToBigInt bs = bytesToBigIntLE (rev bs).
Proof.
  unfold bytesToBigInt, bytesToBigIntLE.
  rewrite (fold_left_rev_right
             (fun (b : byte) (result : Z) => Z.lor (Z.shiftl result 8) (b2z b))).
  reflexivity.
Qed.

Lemma bigIntToBytes_loop_rev (n : nat) (v : Z) (filled : bytes) :
  bigIntToBytes_loop n v filled = rev (bigIntToBytesLE v n) ++ filled.
Proof.
  revert v filled. induction n as [|n IH]; intros v filled; [reflexivity|].
  cbn [bigIntToBytes_loop bigIntToBytesLE rev]. rewrite IH, <- app_assoc.
  reflexivity.
Qed.

Lemma bigIntToBytes_rev (v : Z) (n : nat) :
  bigIntToBytes v n = rev (bigIntToBytesLE v n).
Proof. unfold bigIntToBytes. rewrite bigIntToBytes_loop_rev. apply app_nil_r. Qed.

(** X5.  The big-endian conversions invert each other in the same way, and
    the big-endian number of a byte string is the little-endian number of
    the reversed string. *)
Theorem big_endian_roundtrip :
  (forall (v : Z) (n : nat),
     length (bigIntToBytes v n) = n /\
     bytesToBigInt (bigIntToBytes v n) = v mod 2 ^ (8 * Z.of_nat n)) /\
  (forall bs : bytes,
     0 <= bytesToBigInt bs < 2 ^ (8 * Z.of_nat (length bs)) /\
     bigIntToBytes (bytesToBigInt bs) (length bs) = bs /\
     bytesToBigInt bs = bytesToBigIntLE (rev bs)).
Proof.
  split.
  - intros v n. rewrite bigIntToBytes_rev.
    rewrite length_rev, bytesToBigInt_rev, rev_involutive.
    split; [apply bigIntToBytesLE_length | apply bytesToBigIntLE_of_any].
  - intros bs. rewrite bytesToBigInt_rev, bigIntToBytes_rev.
    rewrite <- (length_rev bs).
    split; [apply bytesToBigIntLE_range|].
    split; [|reflexivity].
    rewrite bigIntToBytesLE_of_bytes. apply rev_involutive.
Qed.

(* ================================================================= *)
(** * Clamping *)

Lemma clamp_low_byte (b : byte) : b2z (z2b (Z.land (b2z b) 248)) mod 8 = 0.
Proof. destruct b; reflexivity. Qed.

Lemma clamp_high_byte (b : byte) :
  64 <= b2z (z2b (Z.lor (Z.land (b2z b) 127) 64)) < 128.
Proof. destruct b; vm_compute; split; congruence. Qed.

Lemma update_at_app {A} (f : A -> A) (a : list A) (x : A) (r : list A) :
  update_at (length a) f (a ++ x :: r) = a ++ f x :: r.
Proof.
  induction a as [|y a IH]; [reflexivity|].
  cbn [length app update_at]. rewrite IH. reflexivity.
Qed.

Lemma split_32 (h : bytes) :
  length h = 32%nat ->
  exists b0 mid b31, h = b0 :: mid ++ [b31] /\ length mid = 30%nat.
Proof.
  intros Hl. destruct h as [|b0 t]; [discriminate|].
  destruct (exists_last (l := t)) as (mid & b31 & ->).
  { intros ->. discriminate. }
  exists b0, mid, b31. split; [reflexivity|].
  cbn [length] in Hl. rewrite length_app in Hl. cbn [length] in Hl. lia.
Qed.

Lemma clamp_eq (h : bytes) :
  clamp h = update_at 31 (fun b => z2b (Z.lor (Z.land (b2z b) 127) 64))
              (update_at 0 (fun b => z2b (Z.land (b2z b) 248)) h).
Proof. reflexivity. Qed.

Lemma update_at_O {A} (f : A -> A) (x : A) (t : list A) :
  update_at 0 f (x :: t) = f x :: t.
Proof. reflexivity. Qed.

Lemma update_at_S {A} (f : A -> A) (i : nat) (x : A) (t : list A) :
  update_at (S i) f (x :: t) = x :: update_at i f t.
Proof. reflexivity. Qed.

Lemma clamp_split (b0 : byte) (mid : bytes) (b31 : byte) :
  length mid = 30%nat ->
  clamp (b0 :: mid ++ [b31]) =
  z2b (Z.land (b2z b0) 248) :: mid ++ [z2b (Z.lor (Z.land (b2z b31) 127) 64)].
Proof.
  intros Hm. rewrite clamp_eq, update_at_O, update_at_S, <- Hm, update_at_app.
  reflexivity.
Qed.

Lemma clamp_range (h : bytes) :
  length h = 32%nat ->
  2 ^ 254 <= bytesToBigIntLE (clamp h) < 2 ^ 255 /\
  bytesToBigIntLE (clamp h) mod 8 = 0.
Proof.
  intros Hl. destruct (split_32 h Hl) as (b0 & mid & b31 & -> & Hm).
  rewrite (clamp_split b0 mid b31 Hm).
  rewrite bytesToBigIntLE_cons, bytesToBigIntLE_app, bytesToBigIntLE_cons.
  rewrite Hm. change (bytesToBigIntLE []) with 0.
  change (2 ^ (8 * Z.of_nat 30)) with (2 ^ 240).
  pose proof (bytesToBigIntLE_range mid) as Hmid. rewrite Hm in Hmid.
  change (2 ^ (8 * Z.of_nat 30)) with (2 ^ 240) in Hmid.
  pose proof (clamp_low_byte b0) as H0.
  pose proof (b2z_range (z2b (Z.land (b2z b0) 248))) as H0r.
  pose proof (clamp_high_byte b31) as H31.
  set (x0 := b2z (z2b (Z.land (b2z b0) 248))) in *.
  set (x31 := b2z (z2b (Z.lor (Z.land (b2z b31) 127) 64))) in *.
  set (m := bytesToBigIntLE mid) in *.
  change (2 ^ 240) with 1766847064778384329583297500742918515827483896875618958121606201292619776 in *.
  change (2 ^ 254) with 28948022309329048855892746252171976963317496166410141009864396001978282409984.
  change (2 ^ 255) with 57896044618658097711785492504343953926634992332820282019728792003956564819968.
  split; [lia|].
  replace (x0 + 256 * (m + 1766847064778384329583297500742918515827483896875618958121606201292619776 * (x31 + 256 * 0)))
    with (x0 + (32 * (m + 1766847064778384329583297500742918515827483896875618958121606201292619776 * x31)) * 8) by lia.
  rewrite Z.mod_add by lia. exact H0.
Qed.

(** X6.  The scalar of a seed is clamped: it lies between [2^254] and
    [2^255] and is a multiple of 8, whatever the seed; and the X25519
    private key of the seed is that scalar in 32 little-endian bytes. *)
Theorem seedToScalar_clamped (seed : bytes) :
  2 ^ 254 <= seedToScalar seed < 2 ^ 255 /\
  seedToScalar seed mod 8 = 0 /\
  ed25519SeedToX25519Priv seed = bigIntToBytesLE (seedToScalar seed) 32.
Proof.
  pose proof (clamp_range _ (seed_key_length seed)) as [Hr Hm].
  unfold seedToScalar, ed25519SeedToX25519Priv.
  split; [exact Hr|]. split; [exact Hm|].
  pose proof (bigIntToBytesLE_of_bytes (clamp (slice 0 32 (sha512 seed)))) as H.
  rewrite clamp_length, seed_key_length in H. symmetry. exact H.
Qed.

(* ================================================================= *)
(** * extractScalar *)

(** X7.  [extractScalar] returns for keys of 32 or 64 bytes and for no
    others; what it returns is the first 32 bytes of the key, so that it
    gives the seed back from a secret key made of a seed and a public key,
    and applying it again changes nothing. *)
Theorem extractScalar_first_half :
  (forall secretKey,
     throws (extractScalar secretKey) <->
     length secretKey <> 32%nat /\ length secretKey <> 64%nat) /\
  (forall secretKey seed,
     extractScalar secretKey = Ok seed ->
     length seed = 32%nat /\ seed = firstn 32 secretKey /\
     extractScalar seed = Ok seed) /\
  (forall seed pub,
     length seed = 32%nat -> length pub = 32%nat ->
     extractScalar (seed ++ pub) = Ok seed).
Proof.
  split; [|split].
  - intros k. unfold extractScalar, throws.
    destruct (length k =? 64)%nat eqn:E64.
    + apply Nat.eqb_eq in E64. split; [intros [e He]; discriminate | lia].
    + destruct (length k =? 32)%nat eqn:E32.
      * apply Nat.eqb_eq in E32. split; [intros [e He]; discriminate | lia].
      * apply Nat.eqb_neq in E64. apply Nat.eqb_neq in E32.
        split; [auto | eauto].
  - intros k seed. unfold extractScalar.
    destruct (length k =? 64)%nat eqn:E64.
    + apply Nat.eqb_eq in E64. intros H.
      assert (Es : seed = firstn 32 k) by (change (firstn 32 k) with (slice 0 32 k); congruence).
      assert (Hl : length seed = 32%nat) by (rewrite Es, length_firstn; lia).
      rewrite Hl. cbn [Nat.eqb]. auto.
    + destruct (length k =? 32)%nat eqn:E32; [|discriminate].
      apply Nat.eqb_eq in E32. intros [= <-].
      rewrite E32. cbn [Nat.eqb].
      split; [reflexivity|]. split; [|reflexivity].
      rewrite <- E32. symmetry. apply firstn_all.
  - intros seed pub Hs Hp. unfold extractScalar.
    rewrite length_app, Hs, Hp. cbn [Nat.add Nat.eqb].
    rewrite <- Hs at 1. rewrite slice_0_app. reflexivity.
Qed.

Lemma extractScalar_first_half_witness :
  extractScalar (repeat x05 32 ++ repeat x09 32) = Ok (repeat x05 32).
Proof.
  apply (proj2 (proj2 extractScalar_first_half)); reflexivity.
Defined.
(* ================================================================= *)
(** * The receiver's functions on any announcement *)

Lemma PublicKey_of_bytes_length (b : bytes) (k : PublicKey) :
  PublicKey_of_bytes b = Ok k -> length (pk_bytes k) = 32%nat.
Proof.
  unfold PublicKey_of_bytes, PUBLIC_KEY_LENGTH.
  destruct (32 <? length (dropWhile BaseX.is_zero_byte b))%nat eqn:E; [discriminate|].
  apply Nat.ltb_ge in E. intros H.
  assert (Ek : k = {| pk_bytes :=
                       repeat x00 (32 - length (dropWhile BaseX.is_zero_byte b))
                       ++ dropWhile BaseX.is_zero_byte b |}) by congruence.
  rewrite Ek. cbn [pk_bytes]. rewrite length_app, repeat_length. lia.
Qed.

Lemma byte_at_0_range (a : bytes) :
  a <> [] -> exists n, byte_at a 0 = Some (JNum n) /\ 0 <= n <= 255.
Proof.
  destruct a as [|b a]; [congruence|]. intros _.
  exists (b2z b). split; [reflexivity|]. pose proof (b2z_range b). lia.
Qed.

Lemma sha256_nonempty (msg : bytes) : sha256 msg <> [].
Proof.
  intros H. pose proof (sha256_length msg) as Hl. rewrite H in Hl. discriminate.
Qed.

Section Receiver.
Context {C : Curve}.

(** X8.  When [checkViewTag] answers true, the tag it was given is a number
    from 0 to 255: a tag of any other kind, or out of that range, never
    passes the filter. *)
Theorem checkViewTag_true_is_byte (viewingPrivkey ephemeralPubkey : bytes)
    (viewTag : jsval) :
  checkViewTag viewingPrivkey ephemeralPubkey viewTag = Ok true ->
  exists n, viewTag = Some (JNum n) /\ 0 <= n <= 255.
Proof.
  unfold checkViewTag. intros H. inv_bind H. inv_bind H.
  injection H as H.
  destruct (byte_at_0_range (sha256 a0) (sha256_nonempty a0)) as (n & Hn & Hr).
  rewrite Hn in H. unfold strict_equal in H.
  destruct viewTag as [[| | m | | | |]|]; try discriminate.
  apply Z.eqb_eq in H. subst m. exists n. auto.
Qed.

(** X9.  [computeStealthAddress] fails on a meta-address one of whose keys
    does not decode to a curve point, whatever random bytes it draws. *)
Theorem computeStealthAddress_rejects_bad_keys (metaAddress : StealthMetaAddress)
    (random : bytes) :
  throws (fromHex (viewingPubkey metaAddress)) \/
  throws (fromHex (spendingPubkey metaAddress)) ->
  throws (computeStealthAddress metaAddress random).
Proof.
  intros H. unfold computeStealthAddress, computeStealthAddressInternal, throws.
  destruct (Keypair_generate random) as [kp|e]; cbn [bind]; [|eauto].
  destruct (extractScalar (kp_secretKey kp)) as [seed|e]; cbn [bind]; [|eauto].
  destruct (Keypair_publicKey kp) as [pk|e]; cbn [bind]; [|eauto].
  unfold ed25519PubToX25519.
  destruct (fromHex (viewingPubkey metaAddress)) as [V|e] eqn:EV; cbn [bind]; [|eauto].
  destruct (Fp.inv (Fp.sub Fp.ONE (toAffine_y V))) as [i|e]; cbn [bind]; [|eauto].
  destruct (x25519_scalarMult _ _) as [ss|e]; cbn [bind]; [|eauto].
  destruct (multiply BASE _) as [T|e]; cbn [bind]; [|eauto].
  destruct (fromHex (spendingPubkey metaAddress)) as [S|e] eqn:ES; cbn [bind]; [|eauto].
  destruct H as [[e He]|[e He]]; discriminate.
Qed.


End Receiver.

Lemma checkViewTag_true_is_byte_witness :
  exists n, viewTag genuine = Some (JNum n) /\ 0 <= n <= 255.
Proof.
  apply (checkViewTag_true_is_byte (C := RefCurve) seed_v
           (ephemeralPubkey genuine) (viewTag genuine)).
  vm_compute. reflexivity.
Defined.

Lemma computeStealthAddress_rejects_bad_keys_witness :
  throws (computeStealthAddress (C := RefCurve)
            {| viewingPubkey := ref_V; spendingPubkey := [] |} seed_e).
Proof.
  apply computeStealthAddress_rejects_bad_keys.
  right. exists BadPoint. vm_compute. reflexivity.
Defined.

(* ================================================================= *)
(** * Sender, receiver and scanner together *)

Section Protocol.
Context {C : Curve} (laws : CurveLaws C).

Lemma Keypair_generate_extract (random : bytes) (kp : Keypair) :
  Keypair_generate random = Ok kp ->
  exists pub, getPublicKey random = Ok pub /\ length pub = 32%nat /\
              length random = 32%nat /\
              kp = {| kp_publicKey := pub; kp_secretKey := random ++ pub |} /\
              extractScalar (kp_secretKey kp) = Ok random /\
              Keypair_publicKey kp = Ok {| pk_bytes := pub |}.
Proof.
  intros H. apply Keypair_generate_Ok in H. destruct H as (pub & Hpub & ->).
  pose proof (getPublicKey_Ok _ _ Hpub) as (Hlen & _ & Epub).
  assert (Hpl : length pub = 32%nat) by (rewrite Epub; apply (toRawBytes_length laws)).
  exists pub. repeat split; try assumption.
  - cbn [kp_secretKey]. unfold extractScalar.
    rewrite length_app, Hlen, Hpl. cbn [Nat.add Nat.eqb].
    rewrite <- Hlen at 1. rewrite slice_0_app. reflexivity.
  - unfold Keypair_publicKey. cbn [kp_publicKey].
    apply PublicKey_of_bytes_32. exact Hpl.
Qed.

(** X10.  What [computeStealthAddress] returns, for any meta-address, has
    an ephemeral key of 32 bytes, a stealth address of 32 bytes and a view
    tag that is a number from 0 to 255. *)
Theorem computeStealthAddress_shape (metaAddress : StealthMetaAddress)
    (random : bytes) (r : StealthAddressResult) :
  computeStealthAddress metaAddress random = Ok r ->
  length (res_ephemeralPubkey r) = 32%nat /\
  length (pk_bytes (stealthPubkey r)) = 32%nat /\
  getPublicKey random = Ok (res_ephemeralPubkey r) /\
  exists n, res_viewTag r = Some (JNum n) /\ 0 <= n <= 255.
Proof.
  intros H. apply computeStealthAddress_Ok in H.
  destruct H as (ri & Hri & -> & -> & ->).
  unfold computeStealthAddressInternal in Hri.
  inv_bind Hri. apply Keypair_generate_extract in E.
  destruct E as (pub & Hpub & Hpl & _ & -> & Hex & Hpk).
  rewrite Hex in Hri. cbn [bind] in Hri.
  rewrite Hpk in Hri. cbn [bind toBytes pk_bytes] in Hri.
  inv_bind Hri. inv_bind Hri. inv_bind Hri. inv_bind Hri. inv_bind Hri.
  injection Hri as <-.
  cbn [int_stealthPubkey int_ephemeralPubkey int_viewTag].
  split; [exact Hpl|].
  split; [eapply PublicKey_of_bytes_length; eassumption|].
  split; [exact Hpub|].
  apply byte_at_0_range, sha256_nonempty.
Qed.

(** The receiver's address for an ephemeral key, in terms of the shared
    secret. *)
Lemma expected_with_secret (vseed sseed S E : bytes) (addr : PublicKey) :
  getPublicKey sseed = Ok S ->
  computeExpectedStealthAddress vseed S E = Ok addr ->
  exists ux ss,
    ed25519PubToX25519 E = Ok ux /\
    x25519_scalarMult (ed25519SeedToX25519Priv vseed) ux = Ok ss /\
    1 <= bytesToBigInt (sha256 ss) mod L < L /\
    addr = {| pk_bytes :=
               toRawBytes (smul ((seedToScalar sseed +
                                  bytesToBigInt (sha256 ss) mod L) mod L) BASE) |}.
Proof.
  intros HS H. apply getPublicKey_Ok in HS. destruct HS as (_ & HSr & ->).
  unfold computeExpectedStealthAddress in H.
  inv_bind H. rename a into ux. inv_bind H. rename a into ss.
  inv_bind H. apply multiply_Ok in E2. destruct E2 as [Ht ->].
  rewrite (fromHex_toRawBytes laws) in H. cbn [bind] in H.
  rewrite (PublicKey_of_bytes_32 _ (toRawBytes_length laws _)) in H.
  injection H as <-.
  exists ux, ss. split; [reflexivity|]. split; [exact E1|].
  split; [unfold L in *; lia|].
  rewrite (stealth_point laws) by lia. reflexivity.
Qed.

End Protocol.

Lemma computeStealthAddress_shape_witness :
  length (res_ephemeralPubkey zl_result) = 32%nat /\
  length (pk_bytes (stealthPubkey zl_result)) = 32%nat /\
  getPublicKey (C := ZLCurve) seed_e = Ok (res_ephemeralPubkey zl_result) /\
  exists n, res_viewTag zl_result = Some (JNum n) /\ 0 <= n <= 255.
Proof.
  apply (computeStealthAddress_shape ZLCurve_laws zl_meta seed_e zl_result).
  vm_compute. reflexivity.
Defined.

(* ================================================================= *)
(** * The scanner as a function of the list *)

Section ScanStructure.
Context {C : Curve}.
Variable account : StealthAccount.

Lemma scan_loop_shift (getBalance : PublicKey -> result Z)
    (anns : list StealthAnnouncement) (acc : list DiscoveredPayment) :
  scan_loop getBalance account anns acc =
  (new <- scan_loop getBalance account anns [] ;; Ok (acc ++ new)).
Proof.
  revert acc. induction anns as [|a rest IH]; intros acc.
  - cbn [scan_loop bind]. rewrite app_nil_r. reflexivity.
  - rewrite !scan_loop_cons.
    destruct (scan_one getBalance account a) as [o|e]; cbn [bind]; [|reflexivity].
    rewrite (IH (acc ++ found o)), (IH ([] ++ found o)).
    destruct (scan_loop getBalance account rest []) as [new|e]; cbn [bind];
      [|reflexivity].
    rewrite app_assoc. reflexivity.
Qed.

Lemma scan_loop_app (getBalance : PublicKey -> result Z)
    (l1 l2 : list StealthAnnouncement) (acc : list DiscoveredPayment) :
  scan_loop getBalance account (l1 ++ l2) acc =
  (mid <- scan_loop getBalance account l1 acc ;;
   scan_loop getBalance account l2 mid).
Proof.
  revert acc. induction l1 as [|a l1 IH]; intros acc.
  - reflexivity.
  - rewrite <- app_comm_cons, !scan_loop_cons.
    destruct (scan_one getBalance account a) as [o|e]; cbn [bind]; [|reflexivity].
    apply IH.
Qed.

(** X12.  Scanning a list in two parts gives the payments of the first part
    followed by those of the second, and fails when either part fails: the
    payments come in the order of their announcements, and an announcement
    listed twice is reported twice. *)
Theorem scanAnnouncements_app (getBalance : PublicKey -> result Z)
    (l1 l2 : list StealthAnnouncement) :
  scanAnnouncements getBalance account (l1 ++ l2) =
  (out1 <- scanAnnouncements getBalance account l1 ;;
   out2 <- scanAnnouncements getBalance account l2 ;;
   Ok (out1 ++ out2)).
Proof.
  unfold scanAnnouncements. rewrite scan_loop_app.
  destruct (scan_loop getBalance account l1 []) as [out1|e]; cbn [bind];
    [|reflexivity].
  apply scan_loop_shift.
Qed.

Lemma scan_one_balance (getBalance getBalance' : PublicKey -> result Z)
    (a : StealthAnnouncement) :
  (account_checkViewTag account (ephemeralPubkey a) (viewTag a) = Ok true ->
   account_computeExpectedAddress account (ephemeralPubkey a)
     = Ok (stealthAddress a) ->
   getBalance (stealthAddress a) = getBalance' (stealthAddress a)) ->
  scan_one getBalance account a = scan_one getBalance' account a.
Proof.
  intros H. unfold scan_one.
  destruct (account_checkViewTag account (ephemeralPubkey a) (viewTag a))
    as [[|]|e]; cbn [bind negb]; try reflexivity.
  destruct (account_computeExpectedAddress account (ephemeralPubkey a))
    as [pk|e]; cbn [bind]; [|reflexivity].
  destruct (PublicKey_equals pk (stealthAddress a)) eqn:Eq; cbn [negb];
    [|reflexivity].
  apply PublicKey_equals_eq in Eq. subst pk.
  rewrite (H eq_refl eq_refl). reflexivity.
Qed.

(** X13.  The scanner asks for the balance of an address only after the
    view tag has matched and the address has been recomputed: two balance
    oracles that agree on those addresses give the same scan, whatever they
    answer, or fail to answer, elsewhere. *)
Theorem scanAnnouncements_balance_queries
    (getBalance getBalance' : PublicKey -> result Z)
    (anns : list StealthAnnouncement) :
  (forall a, In a anns ->
     account_checkViewTag account (ephemeralPubkey a) (viewTag a) = Ok true ->
     account_computeExpectedAddress account (ephemeralPubkey a)
       = Ok (stealthAddress a) ->
     getBalance (stealthAddress a) = getBalance' (stealthAddress a)) ->
  scanAnnouncements getBalance account anns =
  scanAnnouncements getBalance' account anns.
Proof.
  unfold scanAnnouncements. generalize (@nil DiscoveredPayment) as acc.
  induction anns as [|a rest IH]; intros acc H; [reflexivity|].
  rewrite !scan_loop_cons.
  rewrite (scan_one_balance getBalance getBalance' a)
    by (apply H; left; reflexivity).
  destruct (scan_one getBalance' account a) as [o|e]; cbn [bind]; [|reflexivity].
  apply IH. intros b Hb. apply H. right. exact Hb.
Qed.

End ScanStructure.

(** The announcement [genuine] with a wrong view tag, and a balance oracle
    that always fails. *)
Definition mistagged : StealthAnnouncement :=
  {| ephemeralPubkey := ephemeralPubkey genuine;
     viewTag := Some (JNum 0);
     stealthAddress := stealthAddress genuine;
     txSignature := None; slot := None |}.

Definition offline : PublicKey -> result Z := fun _ => Throw (LibraryError 0).

Lemma scanAnnouncements_balance_queries_witness :
  scanAnnouncements (C := RefCurve) funded ref_account [mistagged] =
  scanAnnouncements (C := RefCurve) offline ref_account [mistagged].
Proof.
  apply scanAnnouncements_balance_queries.
  intros a [<-|[]] Htag _. exfalso. vm_compute in Htag. discriminate Htag.
Defined.

(* ================================================================= *)
(** * From key generation to discovery *)

Section Flow.
Context {C : Curve} (laws : CurveLaws C).

Lemma generateStealthKeys_public (random1 random2 V S : bytes) :
  getPublicKey random1 = Ok V -> getPublicKey random2 = Ok S ->
  generateStealthKeys random1 random2 =
  Ok {| viewingPrivkey := random1; spendingPrivkey := random2;
        metaAddress := {| viewingPubkey := V; spendingPubkey := S |} |}.
Proof.
  intros HV HS. unfold generateStealthKeys.
  assert (G1 : Keypair_generate random1 =
               Ok {| kp_publicKey := V; kp_secretKey := random1 ++ V |})
    by (unfold Keypair_generate; rewrite HV; reflexivity).
  assert (G2 : Keypair_generate random2 =
               Ok {| kp_publicKey := S; kp_secretKey := random2 ++ S |})
    by (unfold Keypair_generate; rewrite HS; reflexivity).
  destruct (Keypair_generate_extract laws _ _ G1) as (V' & HV' & _ & _ & _ & X1 & P1).
  destruct (Keypair_generate_extract laws _ _ G2) as (S' & HS' & _ & _ & _ & X2 & P2).
  assert (V' = V) by congruence. assert (S' = S) by congruence. subst V' S'.
  rewrite G1. cbn [bind]. rewrite G2. cbn [bind].
  rewrite X1. cbn [bind]. rewrite X2. cbn [bind].
  rewrite P1. cbn [bind]. rewrite P2. cbn [bind]. reflexivity.
Qed.

Lemma generateStealthKeys_Ok (random1 random2 : bytes) (generated : StealthKeys) :
  generateStealthKeys random1 random2 = Ok generated ->
  exists V S,
    getPublicKey random1 = Ok V /\ getPublicKey random2 = Ok S /\
    length V = 32%nat /\ length S = 32%nat /\
    generated =
    {| viewingPrivkey := random1; spendingPrivkey := random2;
       metaAddress := {| viewingPubkey := V; spendingPubkey := S |} |}.
Proof.
  intros H. pose proof H as H'. unfold generateStealthKeys in H'.
  inv_bind H'. inv_bind H'.
  destruct (Keypair_generate_extract laws _ _ E) as (V & HV & HVl & _ & _).
  destruct (Keypair_generate_extract laws _ _ E0) as (S & HS & HSl & _ & _).
  exists V, S. repeat split; try assumption.
  rewrite (generateStealthKeys_public _ _ _ _ HV HS) in H. congruence.
Qed.

(** X14.  [generateStealthKeys] returns exactly when both seeds have public
    keys; it keeps the two seeds as private keys and their public keys, of
    32 bytes each, as meta-address, and [generateMetaAddress] then returns a
    string that [decodeMetaAddress] reads back as that meta-address. *)
Theorem generateStealthKeys_consistent (random1 random2 : bytes) :
  (forall V S,
     getPublicKey random1 = Ok V -> getPublicKey random2 = Ok S ->
     generateStealthKeys random1 random2 =
     Ok {| viewingPrivkey := random1; spendingPrivkey := random2;
           metaAddress := {| viewingPubkey := V; spendingPubkey := S |} |}) /\
  (forall generated,
     generateStealthKeys random1 random2 = Ok generated ->
     viewingPrivkey generated = random1 /\
     spendingPrivkey generated = random2 /\
     getPublicKey random1 = Ok (viewingPubkey (metaAddress generated)) /\
     getPublicKey random2 = Ok (spendingPubkey (metaAddress generated)) /\
     length (viewingPubkey (metaAddress generated)) = 32%nat /\
     length (spendingPubkey (metaAddress generated)) = 32%nat /\
     exists encoded,
       generateMetaAddress random1 random2
         = Ok ({| keys := generated |}, encoded) /\
       decodeMetaAddress encoded = Ok (metaAddress generated)).
Proof.
  split; [apply generateStealthKeys_public|].
  intros generated H.
  destruct (generateStealthKeys_Ok _ _ _ H) as (V & S & HV & HS & HVl & HSl & E).
  rewrite E. cbn [viewingPrivkey spendingPrivkey metaAddress viewingPubkey spendingPubkey].
  repeat (split; [first [reflexivity | assumption]|]).
  unfold generateMetaAddress, StealthAccount_new. rewrite H, E. cbn [bind].
  unfold getMetaAddressString. cbn [keys metaAddress].
  assert (Henc : encodeMetaAddress {| viewingPubkey := V; spendingPubkey := S |}
                 = Ok (PREFIX ++ BaseX.encode (V ++ S)))
    by (apply encodeMetaAddress_32; assumption).
  rewrite Henc. cbn [bind].
  eexists. split; [reflexivity|].
  apply decode_encodeMetaAddress, Henc.
Qed.

(** The receiver's functions on a genuine announcement. *)
Lemma receiver_on_genuine (vseed sseed random V S : bytes)
    (r : StealthAddressResult) :
  getPublicKey vseed = Ok V -> getPublicKey sseed = Ok S ->
  computeStealthAddress {| viewingPubkey := V; spendingPubkey := S |} random
    = Ok r ->
  checkViewTag vseed (res_ephemeralPubkey r) (res_viewTag r) = Ok true /\
  computeExpectedStealthAddress vseed S (res_ephemeralPubkey r)
    = Ok (stealthPubkey r) /\
  length (pk_bytes (stealthPubkey r)) = 32%nat /\
  exists n, res_viewTag r = Some (JNum n) /\ 0 <= n <= 255.
Proof.
  intros HV HS H.
  apply computeStealthAddress_Ok in H. destruct H as (ri & Hri & -> & -> & ->).
  destruct (compute_internal_Ok laws _ _ _ _ _ _ HV HS Hri)
    as (HE & _ & Hss & Ht & Hvt & Hpk).
  destruct (receiver_shared_secret laws _ _ _ _ HE Hss) as (ux & Hux & Hsec).
  split; [|split; [|split]].
  - unfold checkViewTag. rewrite Hux. cbn [bind]. rewrite Hsec. cbn [bind].
    rewrite Hvt, strict_equal_refl_byte. reflexivity.
  - pose proof (getPublicKey_Ok _ _ HS) as (_ & HSr & ES).
    unfold computeExpectedStealthAddress.
    rewrite Hux. cbn [bind]. rewrite Hsec. cbn [bind].
    rewrite multiply_in_range by (unfold L in *; lia). cbn [bind].
    rewrite ES, (fromHex_toRawBytes laws). cbn [bind].
    rewrite (PublicKey_of_bytes_32 _ (toRawBytes_length laws _)).
    rewrite Hpk, (stealth_point laws) by lia. reflexivity.
  - rewrite Hpk. apply (toRawBytes_length laws).
  - rewrite Hvt. apply byte_at_0_range, sha256_nonempty.
Qed.

(** X15.  The receiver, from the viewing seed, the spending public key and
    the announced ephemeral key, recomputes the stealth address the sender
    computed, and [equals] accepts the pair. *)
Theorem computeExpectedStealthAddress_agrees (vseed sseed random V S : bytes)
    (r : StealthAddressResult) :
  getPublicKey vseed = Ok V -> getPublicKey sseed = Ok S ->
  computeStealthAddress {| viewingPubkey := V; spendingPubkey := S |} random
    = Ok r ->
  exists expected,
    computeExpectedStealthAddress vseed S (res_ephemeralPubkey r) = Ok expected /\
    expected = stealthPubkey r /\
    PublicKey_equals expected (stealthPubkey r) = true.
Proof.
  intros HV HS H.
  destruct (receiver_on_genuine _ _ _ _ _ _ HV HS H) as (_ & He & _).
  exists (stealthPubkey r). split; [exact He|]. split; [reflexivity|].
  apply PublicKey_equals_eq. reflexivity.
Qed.

(** X16.  Diffie-Hellman agreement: the shared secret that
    [computeStealthAddressInternal] reports is the one the receiver gets
    from the viewing seed and the announced ephemeral key, which is the
    public key of the reported ephemeral seed; the view tag is the first
    byte of its SHA-256 hash. *)
Theorem shared_secret_agreement (vseed sseed random V S : bytes)
    (ri : StealthAddressResultInternal) :
  getPublicKey vseed = Ok V -> getPublicKey sseed = Ok S ->
  computeStealthAddressInternal
    {| viewingPubkey := V; spendingPubkey := S |} random = Ok ri ->
  int_ephemeralPrivkey ri = random /\
  getPublicKey (int_ephemeralPrivkey ri) = Ok (int_ephemeralPubkey ri) /\
  (exists ux,
     ed25519PubToX25519 (int_ephemeralPubkey ri) = Ok ux /\
     x25519_scalarMult (ed25519SeedToX25519Priv vseed) ux
       = Ok (int_sharedSecret ri)) /\
  int_viewTag ri = byte_at (sha256 (int_sharedSecret ri)) 0.
Proof.
  intros HV HS H.
  destruct (compute_internal_Ok laws _ _ _ _ _ _ HV HS H)
    as (HE & Hpriv & Hss & _ & Hvt & _).
  split; [exact Hpriv|]. split; [rewrite Hpriv; exact HE|].
  split; [|exact Hvt].
  exact (receiver_shared_secret laws _ _ _ _ HE Hss).
Qed.

(** X17.  [StealthPayment.create] on the string of a meta-address does what
    it does on the meta-address itself, and on a string that
    [decodeMetaAddress] refuses it raises the error of [decodeMetaAddress],
    whatever the random bytes. *)
Theorem StealthPayment_create_from_string (random : bytes) :
  (forall meta encoded,
     encodeMetaAddress meta = Ok encoded ->
     StealthPayment_create (inr encoded) random =
     StealthPayment_create (inl meta) random) /\
  (forall encoded e,
     decodeMetaAddress encoded = Throw e ->
     StealthPayment_create (inr encoded) random = Throw e).
Proof.
  split.
  - intros meta encoded H. unfold StealthPayment_create.
    rewrite (decode_encodeMetaAddress _ _ H). reflexivity.
  - intros encoded e H. unfold StealthPayment_create.
    rewrite H. reflexivity.
Qed.

(** X18.  For a spending public key that is the public key of the spending
    seed, and for any ephemeral key, genuine or not, on which
    [computeExpectedStealthAddress] returns an address: the stealth scalar
    [s] that [deriveStealthKeypair] computes lies between 0 and [L], the
    encoding of [s B] is that address, and [deriveStealthKeypair] ends as
    [createKeypairFromScalar] does on [s] and the address, or, when [s] is
    0, with the error of [multiply]. *)
Theorem derived_scalar_matches_expected_address
    (vseed sseed S E : bytes) (addr : PublicKey) :
  getPublicKey sseed = Ok S ->
  computeExpectedStealthAddress vseed S E = Ok addr ->
  exists scalar,
    0 <= scalar < L /\
    toRawBytes (smul scalar BASE) = toBytes addr /\
    deriveStealthKeypair vseed sseed E =
    if scalar =? 0 then Throw ScalarOutOfRange
    else createKeypairFromScalar scalar (toBytes addr).
Proof.
  intros HS Ha.
  destruct (expected_with_secret laws _ _ _ _ _ HS Ha)
    as (ux & ss & Hux & Hss & Ht & ->).
  exists ((seedToScalar sseed + bytesToBigInt (sha256 ss) mod L) mod L).
  split; [apply Z.mod_pos_bound; reflexivity|].
  split; [reflexivity|].
  rewrite (derive_with_secret vseed sseed E ux ss Hux Hss). reflexivity.
Qed.

Variable PublicKey_of_other : json -> result PublicKey.

(** X19.  End to end: for an account made by [generateStealthKeys] and a
    payment created from the account's meta-address string, the
    announcement survives serialization, passes the account's view-tag
    check and carries the address the account recomputes; so the scan of
    the announcement reports nothing when the address holds no positive
    balance, and otherwise goes on to [deriveKeypair] and ends as it does,
    with the one payment when it returns a keypair. *)
Theorem announced_payment_reaches_derivation (random1 random2 random : bytes)
    (generated : StealthKeys) (encoded : jsstring) (payment : StealthPayment) :
  generateStealthKeys random1 random2 = Ok generated ->
  getMetaAddressString {| keys := generated |} = Ok encoded ->
  StealthPayment_create (inr encoded) random = Ok payment ->
  let account := {| keys := generated |} in
  let a := getAnnouncement payment in
  deserializeAnnouncement PublicKey_of_other (serializeAnnouncement a)
    = Ok (Some a) /\
  account_checkViewTag account (ephemeralPubkey a) (viewTag a) = Ok true /\
  account_computeExpectedAddress account (ephemeralPubkey a)
    = Ok (stealthAddress a) /\
  (forall getBalance balance,
     getBalance (stealthAddress a) = Ok balance ->
     scanAnnouncements getBalance account [a] =
     if 0 <? balance then
       keypair <- account_deriveKeypair account (ephemeralPubkey a) ;;
       Ok [ {| dp_stealthAddress := stealthAddress a;
               dp_ephemeralPubkey := ephemeralPubkey a;
               dp_balance := balance;
               dp_keypair := keypair |} ]
     else Ok []).
Proof.
  intros Hg Hs Hp account a.
  destruct (generateStealthKeys_Ok _ _ _ Hg) as (V & S & HV & HS & HVl & HSl & E).
  subst generated.
  unfold getMetaAddressString in Hs. cbn [keys metaAddress] in Hs.
  apply decode_encodeMetaAddress in Hs.
  unfold StealthPayment_create in Hp. rewrite Hs in Hp. cbn [bind] in Hp.
  inv_bind Hp. rename a0 into r. rename E into Hr.
  assert (Ep : payment = {| sp_stealthAddress := stealthPubkey r;
                            sp_ephemeralPubkey := res_ephemeralPubkey r;
                            sp_viewTag := res_viewTag r |}) by congruence.
  clear Hp.
  destruct (receiver_on_genuine _ _ _ _ _ _ HV HS Hr)
    as (Htag & Hexp & Hlen & n & Hn & Hnr).
  assert (Ea : a = {| ephemeralPubkey := res_ephemeralPubkey r;
                      viewTag := Some (JNum n);
                      stealthAddress := stealthPubkey r;
                      txSignature := None; slot := None |}).
  { unfold a, getAnnouncement. rewrite Ep. cbn [sp_stealthAddress
      sp_ephemeralPubkey sp_viewTag]. rewrite Hn. reflexivity. }
  assert (Hcheck : account_checkViewTag account (ephemeralPubkey a) (viewTag a)
                   = Ok true).
  { rewrite Ea. unfold account_checkViewTag, account.
    cbn [keys viewingPrivkey ephemeralPubkey viewTag]. rewrite <- Hn. exact Htag. }
  assert (Hexpected : account_computeExpectedAddress account (ephemeralPubkey a)
                      = Ok (stealthAddress a)).
  { rewrite Ea. unfold account_computeExpectedAddress, account.
    cbn [keys viewingPrivkey metaAddress spendingPubkey ephemeralPubkey
         stealthAddress]. exact Hexp. }
  split; [|split; [exact Hcheck | split; [exact Hexpected|]]].
  - rewrite Ea. rewrite (serialize_text _ n) by reflexivity.
    cbn [ephemeralPubkey stealthAddress].
    apply deserialize_announcement_text; [unfold MAX_SAFE; simpl; lia | exact Hlen].
  - intros getBalance balance Hb.
    unfold scanAnnouncements. rewrite scan_loop_cons.
    unfold scan_one. rewrite Hcheck. cbn [bind negb].
    rewrite Hexpected. cbn [bind].
    replace (PublicKey_equals (stealthAddress a) (stealthAddress a)) with true
      by (symmetry; apply PublicKey_equals_eq; reflexivity).
    cbn [negb]. rewrite Hb. cbn [bind].
    destruct (0 <? balance); [|reflexivity].
    destruct (account_deriveKeypair account (ephemeralPubkey a)) as [kp|e];
      reflexivity.
Qed.

End Flow.

(** ** The flow at concrete seeds *)

Definition zl_keys : StealthKeys :=
  {| viewingPrivkey := seed_v; spendingPrivkey := seed_s; metaAddress := zl_meta |}.
Definition zl_account : StealthAccount := {| keys := zl_keys |}.

Definition zl_meta_string : jsstring :=
  Eval vm_compute in unwrap [] (encodeMetaAddress zl_meta).

Definition zl_payment : StealthPayment :=
  {| sp_stealthAddress := stealthPubkey zl_result;
     sp_ephemeralPubkey := res_ephemeralPubkey zl_result;
     sp_viewTag := res_viewTag zl_result |}.

Lemma generateStealthKeys_consistent_witness :
  generateStealthKeys (C := ZLCurve) seed_v seed_s = Ok zl_keys.
Proof.
  apply (proj1 (generateStealthKeys_consistent ZLCurve_laws seed_v seed_s));
    vm_compute; reflexivity.
Defined.

Lemma computeExpectedStealthAddress_agrees_witness :
  exists expected,
    computeExpectedStealthAddress (C := ZLCurve) seed_v zl_S
      (res_ephemeralPubkey zl_result) = Ok expected /\
    expected = stealthPubkey zl_result /\
    PublicKey_equals expected (stealthPubkey zl_result) = true.
Proof.
  apply (computeExpectedStealthAddress_agrees ZLCurve_laws
           seed_v seed_s seed_e zl_V zl_S zl_result);
    vm_compute; reflexivity.
Defined.

Lemma StealthPayment_create_from_string_witness :
  StealthPayment_create (C := ZLCurve) (inr zl_meta_string) seed_e =
  StealthPayment_create (C := ZLCurve) (inl zl_meta) seed_e.
Proof.
  apply (proj1 (StealthPayment_create_from_string (C := ZLCurve) seed_e)).
  vm_compute. reflexivity.
Defined.

Lemma derived_scalar_matches_expected_address_witness :
  exists scalar,
    0 <= scalar < L /\
    toRawBytes (Curve := ZLCurve) (smul scalar BASE)
      = toBytes (stealthPubkey zl_result) /\
    deriveStealthKeypair (C := ZLCurve) seed_v seed_s
      (res_ephemeralPubkey zl_result) =
    if scalar =? 0 then Throw ScalarOutOfRange
    else createKeypairFromScalar (C := ZLCurve) scalar
           (toBytes (stealthPubkey zl_result)).
Proof.
  apply (derived_scalar_matches_expected_address ZLCurve_laws
           seed_v seed_s zl_S (res_ephemeralPubkey zl_result)
           (stealthPubkey zl_result));
    vm_compute; reflexivity.
Defined.

Lemma announced_payment_reaches_derivation_witness :
  deserializeAnnouncement rejects_other
    (serializeAnnouncement (getAnnouncement zl_payment))
    = Ok (Some (getAnnouncement zl_payment)) /\
  account_checkViewTag (C := ZLCurve) zl_account
    (ephemeralPubkey (getAnnouncement zl_payment))
    (viewTag (getAnnouncement zl_payment)) = Ok true /\
  account_computeExpectedAddress (C := ZLCurve) zl_account
    (ephemeralPubkey (getAnnouncement zl_payment))
    = Ok (stealthAddress (getAnnouncement zl_payment)) /\
  scanAnnouncements (C := ZLCurve) (fun _ => Ok 0) zl_account
    [getAnnouncement zl_payment] = Ok [].
Proof.
  destruct (announced_payment_reaches_derivation ZLCurve_laws rejects_other
              seed_v seed_s seed_e zl_keys zl_meta_string zl_payment)
    as (Hcodec & Htag & Haddr & Hscan); try (vm_compute; reflexivity).
  split; [exact Hcodec|]. split; [exact Htag|]. split; [exact Haddr|].
  exact (Hscan (fun _ => Ok 0) 0 eq_refl).
Defined.

Definition zl_internal : StealthAddressResultInternal :=
  Eval vm_compute in
    unwrap {| int_stealthPubkey := {| pk_bytes := [] |};
              int_ephemeralPubkey := []; int_ephemeralPrivkey := [];
              int_sharedSecret := []; int_viewTag := None |}
      (computeStealthAddressInternal (C := ZLCurve) zl_meta seed_e).

Lemma shared_secret_agreement_witness :
  exists ux,
    ed25519PubToX25519 (C := ZLCurve) (int_ephemeralPubkey zl_internal) = Ok ux /\
    x25519_scalarMult (Curve := ZLCurve) (ed25519SeedToX25519Priv seed_v) ux
      = Ok (int_sharedSecret zl_internal).
Proof.
  apply (shared_secret_agreement ZLCurve_laws seed_v seed_s seed_e zl_V zl_S
           zl_internal); vm_compute; reflexivity.
Defined.
(* ================================================================= *)
(** * Storing and restoring an account *)

Section AccountStorage.
Import BaseX.
Context {C : Curve}.

(** The stored form of an account. *)
Definition account_text (vp sp vk sk : jsstring) : jsstring :=
  json_text "{'viewingPrivkey':'" ++ vp ++
  json_text "','spendingPrivkey':'" ++ sp ++
  json_text "','viewingPubkey':'" ++ vk ++
  json_text "','spendingPubkey':'" ++ sk ++ json_text "'}".

Definition account_object (vp sp vk sk : jsstring) : json :=
  JObj [ (lit "viewingPrivkey", JStr vp); (lit "spendingPrivkey", JStr sp);
         (lit "viewingPubkey", JStr vk); (lit "spendingPubkey", JStr sk) ].

Lemma serialize_account_text (this : StealthAccount) :
  serialize this =
  account_text (encode (viewingPrivkey (keys this)))
               (encode (spendingPrivkey (keys this)))
               (encode (viewingPubkey (metaAddress (keys this))))
               (encode (spendingPubkey (metaAddress (keys this)))).
Proof.
  unfold serialize, account_text.
  cbn [object_of stringify map join fst snd].
  unfold quote.
  rewrite !(escape_plain _ (encode_plain _)).
  change (flat_map escape_char (lit "viewingPrivkey")) with (lit "viewingPrivkey").
  change (flat_map escape_char (lit "spendingPrivkey")) with (lit "spendingPrivkey").
  change (flat_map escape_char (lit "viewingPubkey")) with (lit "viewingPubkey").
  change (flat_map escape_char (lit "spendingPubkey")) with (lit "spendingPubkey").
  repeat (rewrite <- ?app_assoc, <- ?app_comm_cons).
  reflexivity.
Qed.

Lemma parse_account_value (f : nat) (vp sp vk sk : jsstring) :
  Forall plain vp -> Forall plain sp -> Forall plain vk -> Forall plain sk ->
  parse_value (7 + f) (account_text vp sp vk sk) =
  Ok (account_object vp sp vk sk, []).
Proof.
  intros H1 H2 H3 H4. unfold account_text.
  eapply eq_trans; [apply parse_value_object|].
  eapply eq_trans.
  { apply (parse_members_comma _ (lit "viewingPrivkey") _ (JStr vp));
      [apply lit_plain; reflexivity|].
    apply parse_value_string. assumption. }
  eapply eq_trans.
  { apply (parse_members_comma _ (lit "spendingPrivkey") _ (JStr sp));
      [apply lit_plain; reflexivity|].
    apply parse_value_string. assumption. }
  eapply eq_trans.
  { apply (parse_members_comma _ (lit "viewingPubkey") _ (JStr vk));
      [apply lit_plain; reflexivity|].
    apply parse_value_string. assumption. }
  eapply eq_trans.
  { apply (parse_members_close _ (lit "spendingPubkey") _ (JStr sk));
      [apply lit_plain; reflexivity|].
    apply parse_value_string. assumption. }
  reflexivity.
Qed.

Lemma parse_account_text (vp sp vk sk : jsstring) :
  Forall plain vp -> Forall plain sp -> Forall plain vk -> Forall plain sk ->
  JSON.parse (account_text vp sp vk sk) = Ok (account_object vp sp vk sk).
Proof.
  intros H1 H2 H3 H4. unfold JSON.parse.
  assert (Hfuel : exists f, S (length (account_text vp sp vk sk)) = (7 + f)%nat).
  { exists (length (account_text vp sp vk sk) - 6)%nat.
    unfold account_text. rewrite length_app.
    change (length (json_text "{'viewingPrivkey':'")) with 19%nat. lia. }
  destruct Hfuel as [f ->].
  rewrite parse_account_value by assumption. reflexivity.
Qed.

Lemma deserialize_serialize (this : StealthAccount) :
  deserialize (serialize this) = Ok (keys this).
Proof.
  rewrite serialize_account_text. unfold deserialize.
  rewrite parse_account_text by apply encode_plain.
  unfold account_object. cbn [bind get_prop].
  change (lookup (lit "viewingPrivkey") _)
    with (Some (JStr (encode (viewingPrivkey (keys this))))).
  change (lookup (lit "spendingPrivkey") _)
    with (Some (JStr (encode (spendingPrivkey (keys this))))).
  change (lookup (lit "viewingPubkey") _)
    with (Some (JStr (encode (viewingPubkey (metaAddress (keys this)))))).
  change (lookup (lit "spendingPubkey") _)
    with (Some (JStr (encode (spendingPubkey (metaAddress (keys this)))))).
  cbn [bs58_decode_value]. rewrite !decode_encode. cbn [bind].
  destruct this as [[vp sp [vk sk]]]. reflexivity.
Qed.

Lemma StealthAccount_new_string (serialized : jsstring) (random1 random2 : bytes) :
  serialized <> [] ->
  StealthAccount_new (Some (inr serialized)) random1 random2 =
  (restored <- deserialize serialized ;; Ok {| keys := restored |}).
Proof.
  destruct serialized as [|c s]; [congruence | reflexivity].
Qed.

Lemma serialize_nonempty (this : StealthAccount) : serialize this <> [].
Proof. unfold serialize. cbn [stringify]. discriminate. Qed.

(** The property [k] of a parsed object is a string. *)
Definition string_property (k : jsstring) (fields : list (jsstring * json)) : Prop :=
  exists s, lookup k fields = Some (JStr s).

(** X20.  An account built from the string that [serialize] wrote for an
    account is that account, whatever the lengths of its four keys.  And
    building an account from a text that parses to an object fails when
    one of the four properties is missing or is not a string. *)
Theorem account_serialize_roundtrip (random1 random2 : bytes) :
  (forall this,
     StealthAccount_new (Some (inr (serialize this))) random1 random2 = Ok this) /\
  (forall serialized fields,
     JSON.parse serialized = Ok (JObj fields) ->
     ~ (string_property (lit "viewingPrivkey") fields /\
        string_property (lit "spendingPrivkey") fields /\
        string_property (lit "viewingPubkey") fields /\
        string_property (lit "spendingPubkey") fields) ->
     throws (StealthAccount_new (Some (inr serialized)) random1 random2)).
Proof.
  split.
  - intros this. rewrite StealthAccount_new_string by apply serialize_nonempty.
    rewrite deserialize_serialize. destruct this. reflexivity.
  - intros serialized fields Hp Hn.
    rewrite StealthAccount_new_string
      by (intros ->; vm_compute in Hp; discriminate Hp).
    unfold deserialize, throws, string_property in *. rewrite Hp.
    cbn [bind get_prop].
    destruct (lookup (lit "viewingPrivkey") fields) as [[| | | |s1| |]|];
      cbn [bs58_decode_value bind]; eauto.
    destruct (decode s1); cbn [bind]; eauto.
    destruct (lookup (lit "spendingPrivkey") fields) as [[| | | |s2| |]|];
      cbn [bs58_decode_value bind]; eauto.
    destruct (decode s2); cbn [bind]; eauto.
    destruct (lookup (lit "viewingPubkey") fields) as [[| | | |s3| |]|];
      cbn [bs58_decode_value bind]; eauto.
    destruct (decode s3); cbn [bind]; eauto.
    destruct (lookup (lit "spendingPubkey") fields) as [[| | | |s4| |]|];
      cbn [bs58_decode_value bind]; eauto.
    exfalso. apply Hn. repeat split; eexists; reflexivity.
Qed.

End AccountStorage.

Lemma account_serialize_roundtrip_witness :
  throws (StealthAccount_new (C := ZLCurve)
            (Some (inr (json_text "{'viewingPrivkey':'11'}"))) seed_v seed_s).
Proof.
  apply (proj2 (account_serialize_roundtrip (C := ZLCurve) seed_v seed_s)
           (json_text "{'viewingPrivkey':'11'}")
           [(lit "viewingPrivkey", JStr (lit "11"))]).
  - vm_compute. reflexivity.
  - intros (_ & [s Hs] & _). vm_compute in Hs. discriminate Hs.
Defined.
(* ================================================================= *)
(** * When an announcement is refused *)

Lemma jsstring_eqb_eq (s t : jsstring) : jsstring_eqb s t = true <-> s = t.
Proof.
  revert t. induction s as [|c s IH]; intros [|d t]; simpl;
    try (split; [discriminate | congruence]); [tauto|].
  rewrite andb_true_iff, Z.eqb_eq, IH. split.
  - intros [-> ->]. reflexivity.
  - intros [= -> ->]. auto.
Qed.

Section AnnouncementRefusal.
Variable PublicKey_of_other : json -> result PublicKey.

(** X21.  [deserializeAnnouncement] returns [null] exactly when the text is
    not the JSON text of an object whose [t] is the string [STEALTH], whose
    [e] is accepted by [bs58.decode] and whose [s] is accepted by
    [new PublicKey]; the version [v] and the view tag [vt] play no part. *)
Theorem deserializeAnnouncement_null_iff (data : jsstring) :
  deserializeAnnouncement PublicKey_of_other data = Ok None <->
  ~ exists fields eph addr,
      JSON.parse data = Ok (JObj fields) /\
      lookup (lit "t") fields = Some (JStr (lit "STEALTH")) /\
      bs58_decode_value (lookup (lit "e") fields) = Ok eph /\
      PublicKey_of_value PublicKey_of_other (lookup (lit "s") fields) = Ok addr.
Proof.
  split.
  - intros H (fields & eph & addr & Hp & Ht & He & Hs).
    rewrite (deserialize_object PublicKey_of_other _ _ Hp Ht) in H.
    rewrite He in H. cbn [bind] in H. rewrite Hs in H. discriminate H.
  - intros Hn. unfold deserializeAnnouncement.
    destruct (JSON.parse data) as [v|e] eqn:Hp; [|reflexivity].
    destruct v as [| b | n | l | s | elems | fields]; try reflexivity.
    cbn [bind get_prop].
    destruct (differs_from_string (lookup (lit "t") fields) ANNOUNCEMENT_TAG)
      eqn:Hd; [reflexivity|].
    assert (Ht : lookup (lit "t") fields = Some (JStr (lit "STEALTH"))).
    { unfold differs_from_string in Hd.
      destruct (lookup (lit "t") fields) as [[| | | |x| |]|]; try discriminate.
      apply negb_false_iff, jsstring_eqb_eq in Hd. rewrite Hd. reflexivity. }
    destruct (bs58_decode_value (lookup (lit "e") fields)) as [eph|e] eqn:He;
      cbn [bind try_catch]; [|reflexivity].
    destruct (PublicKey_of_value PublicKey_of_other (lookup (lit "s") fields))
      as [addr|e] eqn:Hs; cbn [bind try_catch]; [|reflexivity].
    exfalso. apply Hn. exists fields, eph, addr. auto.
Qed.

(** X22.  [serializeAnnouncement] writes neither [txSignature] nor [slot]:
    announcements that differ in them only have the same string, and
    decoding the string of an announcement with an integer view tag, in the
    range of a byte or not, gives the announcement without them. *)
Theorem serializeAnnouncement_drops_optional (A : StealthAnnouncement) (n : Z) :
  viewTag A = Some (JNum n) -> 0 <= n <= 2 ^ 53 ->
  length (pk_bytes (stealthAddress A)) = 32%nat ->
  (forall signature slotNumber,
     serializeAnnouncement
       {| ephemeralPubkey := ephemeralPubkey A; viewTag := viewTag A;
          stealthAddress := stealthAddress A;
          txSignature := signature; slot := slotNumber |}
     = serializeAnnouncement A) /\
  deserializeAnnouncement PublicKey_of_other (serializeAnnouncement A) =
  Ok (Some {| ephemeralPubkey := ephemeralPubkey A; viewTag := viewTag A;
              stealthAddress := stealthAddress A;
              txSignature := None; slot := None |}).
Proof.
  intros Hvt Hn Hk. split; [reflexivity|].
  rewrite (serialize_text A n Hvt), Hvt.
  apply deserialize_announcement_text; assumption.
Qed.

End AnnouncementRefusal.

(** An announcement with a transaction signature, a slot and the view tag
    300. *)
Definition recorded : StealthAnnouncement :=
  {| ephemeralPubkey := repeat x07 32;
     viewTag := Some (JNum 300);
     stealthAddress := {| pk_bytes := repeat x09 32 |};
     txSignature := Some (lit "5Sig");
     slot := Some 42 |}.

Lemma serializeAnnouncement_drops_optional_witness :
  deserializeAnnouncement rejects_other (serializeAnnouncement recorded) =
  Ok (Some {| ephemeralPubkey := repeat x07 32;
              viewTag := Some (JNum 300);
              stealthAddress := {| pk_bytes := repeat x09 32 |};
              txSignature := None; slot := None |}).
Proof.
  apply (proj2 (serializeAnnouncement_drops_optional rejects_other recorded 300
                  eq_refl ltac:(split; [discriminate | discriminate]) eq_refl)).
Defined.
(* ================================================================= *)
(** * Withdrawing a discovered payment *)

Section Withdraw.
Variable getMinimumBalanceForRentExemption : Z -> result Z.

(** What [withdraw] keeps back: the rent-exempt minimum when asked to, and
    5000 lamports for the fee otherwise. *)
Definition kept_back (leaveRent : option bool) (rentExempt : Z) : Z :=
  match leaveRent with
  | Some true => rentExempt
  | _ => 5000
  end.

Lemma withdraw_unfold (send : TransferTransaction -> result jsstring)
    (payment : DiscoveredPayment) (destination : PublicKey)
    (leaveRent : option bool) (rentExempt : Z) :
  getMinimumBalanceForRentExemption 0 = Ok rentExempt ->
  withdraw getMinimumBalanceForRentExemption send payment destination leaveRent =
  if dp_balance payment - kept_back leaveRent rentExempt <=? 0
  then InsufficientBalance (dp_balance payment)
  else match send {| fromPubkey := dp_stealthAddress payment;
                     toPubkey := destination;
                     lamports := dp_balance payment - kept_back leaveRent rentExempt;
                     signers := [dp_keypair payment] |} with
       | Ok signature => Confirmed signature
       | Throw e => ConnectionError e
       end.
Proof.
  intros Hr. unfold withdraw, kept_back. rewrite Hr.
  destruct leaveRent as [[|]|]; reflexivity.
Qed.


End Withdraw.

(** A payment of 4000 lamports, a rent-exempt minimum of 890880 lamports
    and a submit function that confirms everything. *)
Definition small_payment : DiscoveredPayment :=
  {| dp_stealthAddress := {| pk_bytes := repeat x09 32 |};
     dp_ephemeralPubkey := repeat x07 32;
     dp_balance := 4000;
     dp_keypair := {| kp_publicKey := repeat x09 32; kp_secretKey := [] |} |}.

Definition rent_890880 : Z -> result Z := fun _ => Ok 890880.
Definition confirm_all : TransferTransaction -> result jsstring :=
  fun _ => Ok (lit "signature").

(* ================================================================= *)
(** * How long the encodings are *)

Section RadixBounds.
Import BaseX BaseXFacts.
Variable base : Z.
Hypothesis base_ge_2 : 2 <= base.

Lemma val_below_power (buf : list Z) :
  digits_below base buf -> val base buf < base ^ Z.of_nat (length buf).
Proof.
  induction 1 as [|d buf Hd _ IH]; [simpl; lia|].
  cbn [val length]. rewrite Nat2Z.inj_succ, Z.pow_succ_r by lia. nia.
Qed.

Lemma val_above_power (buf : list Z) :
  digits_below base buf -> normal buf -> buf <> [] ->
  base ^ (Z.of_nat (length buf) - 1) <= val base buf.
Proof.
  induction buf as [|d buf IH]; intros Hb Hn Hne; [congruence|].
  inversion Hb as [|? ? Hd Hb']; subst.
  destruct buf as [|e buf].
  - unfold normal in Hn. simpl in *. lia.
  - assert (Hn' : normal (e :: buf)).
    { unfold normal in *. rewrite last_cons_nonempty in Hn by discriminate.
      exact Hn. }
    specialize (IH Hb' Hn' ltac:(discriminate)).
    cbn [val length] in *.
    replace (Z.of_nat (S (S (length buf))) - 1)
      with (Z.succ (Z.of_nat (S (length buf)) - 1)) by lia.
    rewrite Z.pow_succ_r by lia. cbn [val] in IH. nia.
Qed.

End RadixBounds.

Section Bs58Length.
Import BaseX BaseXFacts.

(** The number of Base58 digits of a byte string without leading zero. *)
Lemma b58_digits_length (rest : bytes) (c : nat) :
  hd_error (map is_zero_byte rest) <> Some true ->
  256 ^ Z.of_nat (length rest) <= 58 ^ Z.of_nat (c + length rest) ->
  (length rest <= length (b58_digits rest) <= length rest + c)%nat.
Proof.
  intros Hhead Hpow.
  destruct (b58_digits_spec rest) as (Hv & Hd & Hn).
  rewrite <- (val_rev_horner 256) in Hv.
  destruct rest as [|b rest'] eqn:Er.
  { cbn [b58_digits fold_left length]. lia. }
  rewrite <- Er in *.
  assert (Hrd : digits_below 256 (rev (map b2z rest)))
    by (apply Forall_rev, bytes_digits).
  assert (Hrn : normal (rev (map b2z rest)))
    by (apply head_normal_rev; rewrite is_zero_b2z; exact Hhead).
  assert (Hrne : rev (map b2z rest) <> []).
  { rewrite Er. cbn [map rev]. intros H. apply app_eq_nil in H.
    destruct H as [_ H]. discriminate H. }
  pose proof (val_below_power 256 ltac:(lia) _ Hrd) as Hup.
  pose proof (val_above_power 256 ltac:(lia) _ Hrd Hrn Hrne) as Hlo.
  rewrite length_rev, length_map in Hup, Hlo.
  assert (Hr1 : (1 <= length rest)%nat) by (rewrite Er; cbn [length]; lia).
  assert (Hk : b58_digits rest <> []).
  { intros H0. rewrite H0 in Hv. cbn [val] in Hv.
    assert (0 < 256 ^ (Z.of_nat (length rest) - 1))
      by (apply Z.pow_pos_nonneg; lia).
    lia. }
  pose proof (val_below_power 58 ltac:(lia) _ Hd) as Hup58.
  pose proof (val_above_power 58 ltac:(lia) _ Hd Hn Hk) as Hlo58.
  set (k := length (b58_digits rest)) in *.
  set (r := length rest) in *.
  set (V := val 58 (b58_digits rest)) in *.
  split.
  - (* 58^(r-1) <= 256^(r-1) <= V < 58^k *)
    destruct (le_lt_dec r k) as [Hle|Hgt]; [exact Hle|exfalso].
    assert (58 ^ Z.of_nat k <= 58 ^ (Z.of_nat r - 1))
      by (apply Z.pow_le_mono_r; lia).
    assert (58 ^ (Z.of_nat r - 1) <= 256 ^ (Z.of_nat r - 1))
      by (apply Z.pow_le_mono_l; lia).
    lia.
  - (* 58^(k-1) <= V < 256^r <= 58^(c+r) *)
    destruct (le_lt_dec k (r + c)) as [Hle|Hgt]; [exact Hle|exfalso].
    assert (58 ^ Z.of_nat (c + r) <= 58 ^ (Z.of_nat k - 1))
      by (apply Z.pow_le_mono_r; lia).
    lia.
Qed.

(** A Base58 string is never shorter than the bytes it encodes, and longer
    by at most [c] characters when [256^r <= 58^(c+r)] up to the length of
    the bytes. *)
Lemma encode_length (source : bytes) (c : nat) :
  (forall r, (r <= length source)%nat ->
             256 ^ Z.of_nat r <= 58 ^ Z.of_nat (c + r)) ->
  (length source <= length (encode source) <= length source + c)%nat.
Proof.
  intros Hpow. unfold encode.
  fold (b58_digits (dropWhile is_zero_byte source)).
  destruct (b58_digits_spec (dropWhile is_zero_byte source)) as (_ & _ & Hn).
  rewrite (dropWhile_id is_zero (rev (b58_digits (dropWhile is_zero_byte source))))
    by (apply normal_rev_head; exact Hn).
  rewrite length_app, repeat_length, length_map, length_rev.
  pose proof (takeWhile_dropWhile is_zero_byte source) as Hsplit.
  assert (Hlen : (length (takeWhile is_zero_byte source) +
                  length (dropWhile is_zero_byte source) = length source)%nat)
    by (rewrite <- length_app, Hsplit; reflexivity).
  assert (Hr : (length (dropWhile is_zero_byte source) <= length source)%nat) by lia.
  pose proof (b58_digits_length (dropWhile is_zero_byte source) c
                (dropWhile_head is_zero_byte source) (Hpow _ Hr)) as Hb.
  lia.
Qed.

Lemma powers_upto (n c : nat) :
  forallb (fun r => 256 ^ Z.of_nat r <=? 58 ^ Z.of_nat (c + r)) (seq 0 (S n)) = true ->
  forall r, (r <= n)%nat -> 256 ^ Z.of_nat r <= 58 ^ Z.of_nat (c + r).
Proof.
  intros H r Hr. rewrite forallb_forall in H.
  apply Z.leb_le, H, in_seq. lia.
Qed.

Lemma encode_length_32 (source : bytes) :
  length source = 32%nat -> (32 <= length (encode source) <= 44)%nat.
Proof.
  intros Hl.
  pose proof (encode_length source 12) as H. rewrite Hl in H.
  apply H. apply powers_upto. vm_compute. reflexivity.
Qed.

Lemma encode_length_64 (source : bytes) :
  length source = 64%nat -> (64 <= length (encode source) <= 88)%nat.
Proof.
  intros Hl.
  pose proof (encode_length source 24) as H. rewrite Hl in H.
  apply H. apply powers_upto. vm_compute. reflexivity.
Qed.

End Bs58Length.

(** X24.  The string of a meta-address has from 71 to 95 characters: the
    prefix [st:sol:] and then from 64 to 88 characters of the Base58
    alphabet. *)
Theorem encodeMetaAddress_length (meta : StealthMetaAddress) (encoded : jsstring) :
  encodeMetaAddress meta = Ok encoded ->
  (71 <= length encoded <= 95)%nat /\
  firstn 7 encoded = lit "st:sol:" /\
  Forall (fun c => In c BaseX.ALPHABET) (slice_from 7 encoded).
Proof.
  intros H. destruct (encodeMetaAddress_Ok meta encoded H) as [Hv Hs].
  rewrite (encodeMetaAddress_32 meta Hv Hs) in H.
  assert (Es : encoded =
               PREFIX ++ BaseX.encode (viewingPubkey meta ++ spendingPubkey meta))
    by congruence.
  rewrite Es.
  pose proof (encode_length_64 (viewingPubkey meta ++ spendingPubkey meta)
                ltac:(rewrite length_app; lia)) as Hl.
  split; [|split].
  - rewrite length_app. change (length PREFIX) with 7%nat. lia.
  - change 7%nat with (length PREFIX). apply firstn_exact.
  - unfold slice_from. change 7%nat with (length PREFIX). rewrite skipn_exact.
    apply Forall_forall. intros c Hc. exact (encode_alphabet _ c Hc).
Qed.

Lemma encodeMetaAddress_length_witness :
  (71 <= length zero_meta_string <= 95)%nat /\
  firstn 7 zero_meta_string = lit "st:sol:" /\
  Forall (fun c => In c BaseX.ALPHABET) (slice_from 7 zero_meta_string).
Proof.
  apply (encodeMetaAddress_length zero_meta zero_meta_string).
  vm_compute. reflexivity.
Defined.

Lemma print_byte (n : Z) :
  0 <= n <= 255 ->
  (1 <= length (print_int n) <= 3)%nat /\
  Forall (fun c => 32 <= c <= 126) (print_int n).
Proof.
  intros Hn.
  assert (Hin : In n (map Z.of_nat (seq 0 256))).
  { rewrite <- (Z2Nat.id n) by lia. apply in_map, in_seq. lia. }
  assert (H : forallb (fun n => (1 <=? length (print_int n))%nat &&
                                (length (print_int n) <=? 3)%nat &&
                                forallb (fun c => (32 <=? c) && (c <=? 126))
                                        (print_int n))
                (map Z.of_nat (seq 0 256)) = true) by (vm_compute; reflexivity).
  rewrite forallb_forall in H. specialize (H n Hin).
  apply andb_prop in H. destruct H as [H H3].
  apply andb_prop in H. destruct H as [H1 H2].
  apply Nat.leb_le in H1. apply Nat.leb_le in H2.
  split; [lia|]. apply Forall_forall. intros c Hc.
  rewrite forallb_forall in H3. specialize (H3 c Hc).
  apply andb_prop in H3. destruct H3 as [Ha Hb].
  apply Z.leb_le in Ha. apply Z.leb_le in Hb. lia.
Qed.

Lemma alphabet_ascii (s : jsstring) :
  (forall c, In c s -> In c BaseX.ALPHABET) -> Forall (fun c => 32 <= c <= 126) s.
Proof.
  intros H. apply Forall_forall. intros c Hc. specialize (H c Hc).
  assert (Ha : forallb (fun c => (32 <=? c) && (c <=? 126)) BaseX.ALPHABET = true)
    by (vm_compute; reflexivity).
  rewrite forallb_forall in Ha. specialize (Ha c H).
  apply andb_prop in Ha. destruct Ha as [Ha Hb].
  apply Z.leb_le in Ha. apply Z.leb_le in Hb. lia.
Qed.

Lemma literal_ascii (s : jsstring) :
  forallb (fun c => (32 <=? c) && (c <=? 126)) s = true ->
  Forall (fun c => 32 <= c <= 126) s.
Proof.
  intros H. apply Forall_forall. intros c Hc.
  rewrite forallb_forall in H. specialize (H c Hc).
  apply andb_prop in H. destruct H as [Ha Hb].
  apply Z.leb_le in Ha. apply Z.leb_le in Hb. lia.
Qed.

(** X25.  The string of an announcement with keys of 32 bytes and a view
    tag from 0 to 255 has from 106 to 132 characters, all of them printable
    ASCII characters, so that the memo holds one byte for each. *)
Theorem serializeAnnouncement_length (A : StealthAnnouncement) (n : Z) :
  viewTag A = Some (JNum n) -> 0 <= n <= 255 ->
  length (ephemeralPubkey A) = 32%nat ->
  length (pk_bytes (stealthAddress A)) = 32%nat ->
  (106 <= length (serializeAnnouncement A) <= 132)%nat /\
  Forall (fun c => 32 <= c <= 126) (serializeAnnouncement A).
Proof.
  intros Hvt Hn He Hs. rewrite (serialize_text A n Hvt).
  unfold announcement_text, toBase58, toBytes.
  pose proof (encode_length_32 _ He) as Le.
  pose proof (encode_length_32 _ Hs) as Ls.
  destruct (print_byte n Hn) as [Ln An].
  split.
  - rewrite !length_app.
    change (length (json_text "{'v':1,'t':'STEALTH','e':'")) with 26%nat.
    change (length (json_text "','vt':")) with 7%nat.
    change (length (json_text ",'s':'")) with 6%nat.
    change (length (json_text "'}")) with 2%nat.
    lia.
  - assert (Henc : forall b, Forall (fun c => 32 <= c <= 126) (BaseX.encode b))
      by (intros b; apply alphabet_ascii; intros c Hc; exact (encode_alphabet b c Hc)).
    apply Forall_app; split; [apply literal_ascii; vm_compute; reflexivity|].
    apply Forall_app; split; [apply Henc|].
    apply Forall_app; split; [apply literal_ascii; vm_compute; reflexivity|].
    apply Forall_app; split; [exact An|].
    apply Forall_app; split; [apply literal_ascii; vm_compute; reflexivity|].
    apply Forall_app; split; [apply Henc|].
    apply literal_ascii; vm_compute; reflexivity.
Qed.

Lemma serializeAnnouncement_length_witness :
  (106 <= length (serializeAnnouncement genuine) <= 132)%nat /\
  Forall (fun c => 32 <= c <= 126) (serializeAnnouncement genuine).
Proof.
  apply (serializeAnnouncement_length genuine 196);
    [reflexivity | lia | reflexivity | reflexivity].
Defined.
(* ================================================================= *)
(** * Every seed has a public key *)

(** A clamped scalar is no multiple of the group order: it is a multiple
    of 8 below [2^255], and [8 L] is above [2^255]. *)
Lemma clamped_not_multiple (h : bytes) :
  length h = 32%nat -> 0 < bytesToBigIntLE (clamp h) mod CURVE_n < CURVE_n.
Proof.
  intros Hl. destruct (clamp_range h Hl) as [Hr H8].
  set (k := bytesToBigIntLE (clamp h)) in *.
  assert (HL : 0 < CURVE_n) by reflexivity.
  pose proof (Z.mod_pos_bound k CURVE_n HL) as Hm.
  destruct (Z.eq_dec (k mod CURVE_n) 0) as [E|E]; [exfalso | lia].
  pose proof (Z.div_mod k CURVE_n ltac:(lia)) as Hk. rewrite E in Hk.
  set (m := k / CURVE_n) in *.
  assert (Hlow : 2 ^ 252 < CURVE_n) by reflexivity.
  assert (Hhigh : 2 ^ 255 < 8 * CURVE_n) by reflexivity.
  change (2 ^ 254) with (4 * 2 ^ 252) in Hr.
  change (2 ^ 255) with (8 * 2 ^ 252) in Hr, Hhigh.
  assert (Hm17 : 1 <= m <= 7) by nia.
  assert (Hcases : m = 1 \/ m = 2 \/ m = 3 \/ m = 4 \/ m = 5 \/ m = 6 \/ m = 7) by lia.
  rewrite Hk in H8.
  destruct Hcases as [-> | [-> | [-> | [-> | [-> | [-> | ->]]]]]];
    vm_compute in H8; discriminate H8.
Qed.

Section EverySeed.
Context {C : Curve} (laws : CurveLaws C).

Lemma getPublicKey_total (seed : bytes) :
  length seed = 32%nat ->
  getPublicKey seed = Ok (toRawBytes (smul (seedToScalar seed mod CURVE_n) BASE)).
Proof.
  intros Hl. unfold getPublicKey. rewrite Hl. cbn [Nat.eqb negb].
  pose proof (clamped_not_multiple _ (seed_key_length seed)) as Hr.
  rewrite multiply_in_range by lia. reflexivity.
Qed.

(** X26.  [generateStealthKeys] returns for every pair of 32-byte seeds,
    and for no others: a clamped scalar is never a multiple of the group
    order, so each seed has a public key.  [new StealthAccount()] and
    [generateMetaAddress] therefore return too. *)
Theorem generateStealthKeys_total (random1 random2 : bytes) :
  ((exists generated, generateStealthKeys random1 random2 = Ok generated) <->
   length random1 = 32%nat /\ length random2 = 32%nat) /\
  (length random1 = 32%nat -> length random2 = 32%nat ->
   exists account encoded,
     StealthAccount_new None random1 random2 = Ok account /\
     generateMetaAddress random1 random2 = Ok (account, encoded)).
Proof.
  assert (Hgen : length random1 = 32%nat -> length random2 = 32%nat ->
                 exists V S, length V = 32%nat /\ length S = 32%nat /\
                   generateStealthKeys random1 random2 =
                   Ok {| viewingPrivkey := random1; spendingPrivkey := random2;
                         metaAddress := {| viewingPubkey := V;
                                           spendingPubkey := S |} |}).
  { intros H1 H2. eexists. eexists.
    split; [|split;
      [|apply (generateStealthKeys_public laws);
        apply getPublicKey_total; assumption]];
      apply (toRawBytes_length laws). }
  split; [split|].
  - intros [generated H].
    destruct (generateStealthKeys_Ok laws _ _ _ H) as (V & S & HV & HS & _).
    apply getPublicKey_Ok in HV. apply getPublicKey_Ok in HS. tauto.
  - intros [H1 H2]. destruct (Hgen H1 H2) as (V & S & _ & _ & H). eauto.
  - intros H1 H2. destruct (Hgen H1 H2) as (V & S & HVl & HSl & H).
    unfold generateMetaAddress, StealthAccount_new. rewrite H. cbn [bind].
    unfold getMetaAddressString. cbn [keys metaAddress].
    assert (Henc : encodeMetaAddress {| viewingPubkey := V; spendingPubkey := S |}
                   = Ok (PREFIX ++ BaseX.encode (V ++ S)))
      by (apply encodeMetaAddress_32; assumption).
    rewrite Henc. cbn [bind]. eexists. eexists. split; reflexivity.
Qed.

(* ================================================================= *)
(** * The stealth address is not the spending key *)

(** The base point has order [CURVE_n] exactly: smaller multiples of it
    are different points. *)
Hypothesis base_injective : forall m n,
  0 <= m < CURVE_n -> 0 <= n < CURVE_n ->
  smul m BASE = smul n BASE -> m = n.

Lemma toRawBytes_injective (P Q : point) : toRawBytes P = toRawBytes Q -> P = Q.
Proof.
  intros H. pose proof (fromHex_toRawBytes laws P) as HP.
  rewrite H, (fromHex_toRawBytes laws Q) in HP. congruence.
Qed.

(** X27.  The stealth address that [computeStealthAddress] returns for a
    meta-address made of the public keys of two seeds is never the spending
    public key itself. *)
Theorem stealth_address_differs_from_spending_key
    (vseed sseed random V S : bytes) (r : StealthAddressResult) :
  getPublicKey vseed = Ok V -> getPublicKey sseed = Ok S ->
  computeStealthAddress {| viewingPubkey := V; spendingPubkey := S |} random
    = Ok r ->
  toBytes (stealthPubkey r) <> S.
Proof.
  intros HV HS H.
  apply computeStealthAddress_Ok in H. destruct H as (ri & Hri & -> & _).
  destruct (compute_internal_Ok laws _ _ _ _ _ _ HV HS Hri)
    as (_ & _ & _ & Ht & _ & Hpk).
  apply getPublicKey_Ok in HS. destruct HS as (_ & HSr & ->).
  rewrite Hpk. unfold toBytes, public_point. cbn [pk_bytes].
  intros Heq. apply toRawBytes_injective in Heq.
  assert (HL : 0 < CURVE_n) by reflexivity.
  apply base_injective in Heq;
    [| unfold L; apply Z.mod_pos_bound; lia | apply Z.mod_pos_bound; lia].
  unfold L in *.
  set (s := seedToScalar sseed) in *.
  set (t := bytesToBigInt (sha256 (int_sharedSecret ri)) mod CURVE_n) in *.
  assert (Hdiff : (s + t - s) mod CURVE_n = 0).
  { rewrite Zminus_mod, Heq, Z.sub_diag. reflexivity. }
  replace (s + t - s) with t in Hdiff by lia.
  rewrite Z.mod_small in Hdiff by lia. lia.
Qed.

End EverySeed.

Lemma ZL_base_injective (m n : Z) :
  0 <= m < CURVE_n -> 0 <= n < CURVE_n ->
  smul (Curve := ZLCurve) m BASE = smul (Curve := ZLCurve) n BASE -> m = n.
Proof.
  intros Hm Hn H. apply (f_equal ZL.val) in H.
  cbn [smul BASE ZLCurve] in H. unfold ZL.smul in H.
  rewrite !ZL_val_mk in H.
  change (ZL.val (ZL.mk 1)) with 1 in H.
  rewrite !Z.mul_1_r, !Z.mod_small in H by assumption. exact H.
Qed.

Lemma generateStealthKeys_total_witness :
  exists generated, generateStealthKeys (C := ZLCurve) seed_v seed_s = Ok generated.
Proof.
  apply (proj1 (generateStealthKeys_total ZLCurve_laws seed_v seed_s)).
  split; reflexivity.
Defined.

Lemma stealth_address_differs_from_spending_key_witness :
  toBytes (stealthPubkey zl_result) <> zl_S.
Proof.
  apply (stealth_address_differs_from_spending_key ZLCurve_laws ZL_base_injective
           seed_v seed_s seed_e zl_V zl_S zl_result);
    vm_compute; reflexivity.
Defined.
